(** * Quant_Pricer: discount curve, Black-76, Monte Carlo, yield solver, sensitivities

    A shallow embedding of the numeric engines of the C++ library
    (core/DiscountCurve.cpp, engines/Black76.cpp, engines/MonteCarlo.cpp,
    engines/YieldSolver.cpp, engines/Sensitivity.cpp, instruments/Bond.cpp).

    The C++ code computes on [double].  The embedding is written once, over an
    interface [DoubleOps] of the operations the code applies to doubles, and an
    interface [Libm] of the <cmath> functions it calls and of Eigen's
    exponential of an array, which is kept apart from [std::exp].  [int]
    arithmetic that can overflow and reads of a table return an [option]: [None]
    is undefined behaviour.  Two interpretations are provided:
    - [float_ops]: IEEE 754 binary64 through Rocq's primitive floats (NaN,
      infinities, rounding); <cmath> is not available there;
    - [R_ops], [R_libm]: exact real arithmetic, every value finite.
    Theorems that only depend on the structure of the code are stated for every
    interpretation; identities of the formulas are stated over the reals. *)

From Stdlib Require Uint63.
From Stdlib Require Import Floats.
From Stdlib Require Import Reals Lra Lia ZArith QArith Qreals List Bool.
From Stdlib Require Import Permutation Sorted.
Import ListNotations.

Set Implicit Arguments.

(** ** Errors

    [std::invalid_argument] and the [std::runtime_error] of the yield solver. *)

Inductive error : Type :=
| InvalidArgument
| RootNotBracketed.

Inductive result (A : Type) : Type :=
| Ok (a : A)
| Err (e : error).

Arguments Ok {A} a.
Arguments Err {A} e.

Definition bind {A B : Type} (r : result A) (k : A -> result B) : result B :=
  match r with
  | Ok a => k a
  | Err e => Err e
  end.

Notation "x <- r ;; k" := (bind r (fun x => k))
  (at level 61, r at next level, right associativity).

(** ** The arithmetic interface *)

Class DoubleOps (D : Type) : Type := {
  dadd : D -> D -> D;
  dsub : D -> D -> D;
  dmul : D -> D -> D;
  ddiv : D -> D -> D;
  dneg : D -> D;
  dabs : D -> D;              (* std::abs *)
  dsqrt : D -> D;             (* std::sqrt *)
  dltb : D -> D -> bool;      (* a < b *)
  dleb : D -> D -> bool;      (* a <= b *)
  deqb : D -> D -> bool;      (* a == b *)
  disnan : D -> bool;         (* std::isnan *)
  disinf : D -> bool;         (* std::isinf *)
  dlit : Q -> D;              (* a decimal literal of the source *)
  dpi : D;                    (* QUANT_PI *)
  dsize : Z -> D              (* conversion of a std::size_t or enum value *)
}.

(** The mathematical routines the code calls: those of <cmath>, and Eigen's
    exponential of an array, [(array).exp()].  The latter is a routine of
    Eigen's own: it returns an array of the same size, and nothing in the
    source says that its coefficients are the values [std::exp] returns. *)
Class Libm (D : Type) : Type := {
  dexp : D -> D;              (* std::exp *)
  dlog : D -> D;              (* std::log *)
  dpow : D -> D -> D;         (* std::pow *)
  derf : D -> D;              (* std::erf *)
  array_exp : list D -> list D;   (* Eigen: ArrayXd::exp() *)
  array_exp_length : forall xs : list D, length (array_exp xs) = length xs
}.

Declare Scope double_scope.
Delimit Scope double_scope with D.
Infix "+" := dadd : double_scope.
Infix "-" := dsub : double_scope.
Infix "*" := dmul : double_scope.
Infix "/" := ddiv : double_scope.
Notation "- x" := (dneg x) : double_scope.
Infix "<?" := dltb : double_scope.
Infix "<=?" := dleb : double_scope.
Infix "==?" := deqb (at level 70) : double_scope.

Section DoubleBasics.
Context {D : Type} {ops : DoubleOps D}.

(** [a > b] is [b < a]. *)
Definition dgtb (a b : D) : bool := dltb b a.

(** [std::max(a, b)] is [(a < b) ? b : a]. *)
Definition dmax (a b : D) : D := if dltb a b then b else a.

Definition d0 : D := dlit 0.
Definition d1 : D := dlit 1.
Definition d2 : D := dlit 2.
Definition dhalf : D := dlit (1 # 2).

End DoubleBasics.

Infix ">?" := dgtb : double_scope.

(** ** IEEE 754 binary64 *)

(** A literal [n/d] with [|n|, d < 2^53] is the correctly rounded quotient of two
    exactly represented integers, which is the double a C++ compiler reads. *)
Definition float_lit (q : Q) : float :=
  let mag := PrimFloat.div (PrimFloat.of_uint63 (Uint63.of_Z (Z.abs (Qnum q))))
                           (PrimFloat.of_uint63 (Uint63.of_Z (Z.pos (Qden q)))) in
  if (Qnum q <? 0)%Z then PrimFloat.opp mag else mag.

(** A 64-bit unsigned value, converted with one rounding. *)
Definition float_size (z : Z) : float :=
  PrimFloat.add
    (PrimFloat.mul (PrimFloat.of_uint63 (Uint63.of_Z (z / 4294967296))) 4294967296%float)
    (PrimFloat.of_uint63 (Uint63.of_Z (z mod 4294967296))).

#[export] Instance float_ops : DoubleOps float := {
  dadd := PrimFloat.add;
  dsub := PrimFloat.sub;
  dmul := PrimFloat.mul;
  ddiv := PrimFloat.div;
  dneg := PrimFloat.opp;
  dabs := PrimFloat.abs;
  dsqrt := PrimFloat.sqrt;
  dltb := PrimFloat.ltb;
  dleb := PrimFloat.leb;
  deqb := PrimFloat.eqb;
  disnan := PrimFloat.is_nan;
  disinf := PrimFloat.is_infinity;
  dlit := float_lit;
  dpi := 0x1.921fb54442d18p+1%float;
  dsize := float_size
}.

(** ** Exact real arithmetic *)

Definition Rltb (a b : R) : bool := if Rlt_dec a b then true else false.
Definition Rleb (a b : R) : bool := if Rle_dec a b then true else false.
Definition Reqb (a b : R) : bool := if Req_dec_T a b then true else false.

#[export] Instance R_ops : DoubleOps R := {
  dadd := Rplus;
  dsub := Rminus;
  dmul := Rmult;
  ddiv := Rdiv;
  dneg := Ropp;
  dabs := Rabs;
  dsqrt := sqrt;
  dltb := Rltb;
  dleb := Rleb;
  deqb := Reqb;
  disnan := fun _ => false;
  disinf := fun _ => false;
  dlit := Q2R;
  dpi := PI;
  dsize := IZR
}.

(** *** The error function

    [erf x = 2/sqrt(pi) * sum_n (-1)^n x^(2n+1) / (n! (2n+1))], defined like the
    Standard Library defines [sin]: a power series in [x * x], times [x]. *)

Definition erf_coef (n : nat) : R :=
  ((-1) ^ n / (INR (fact n) * INR (2 * n + 1)))%R.

Lemma erf_coef_neq0 : forall n, erf_coef n <> 0%R.
Proof.
  intro n. unfold erf_coef.
  assert (Hf : INR (fact n) <> 0%R) by apply INR_fact_neq_0.
  assert (Hk : INR (2 * n + 1) <> 0%R) by (apply not_0_INR; lia).
  assert (Hp : ((-1) ^ n <> 0)%R) by (apply pow_nonzero; lra).
  unfold Rdiv. apply Rmult_integral_contrapositive_currified; [assumption|].
  apply Rinv_neq_0_compat.
  apply Rmult_integral_contrapositive_currified; assumption.
Qed.

Lemma erf_coef_ratio : forall n,
  Rabs (erf_coef (S n) / erf_coef n)
  = (INR (2 * n + 1) / (INR (S n) * INR (2 * n + 3)))%R.
Proof.
  intro n. unfold erf_coef.
  assert (Hf : INR (fact n) <> 0%R) by apply INR_fact_neq_0.
  assert (Hk : (0 < INR (2 * n + 1))%R) by (apply lt_0_INR; lia).
  assert (Hk3 : (0 < INR (2 * n + 3))%R) by (apply lt_0_INR; lia).
  assert (Hs : (0 < INR (S n))%R) by (apply lt_0_INR; lia).
  assert (Hp : ((-1) ^ n <> 0)%R) by (apply pow_nonzero; lra).
  replace (2 * S n + 1)%nat with (2 * n + 3)%nat by lia.
  rewrite fact_simpl, mult_INR.
  replace ((-1) ^ S n)%R with (-1 * (-1) ^ n)%R by (simpl; ring).
  replace (-1 * (-1) ^ n / (INR (S n) * INR (fact n) * INR (2 * n + 3)) /
           ((-1) ^ n / (INR (fact n) * INR (2 * n + 1))))%R
    with (- (INR (2 * n + 1) / (INR (S n) * INR (2 * n + 3))))%R
    by (field; repeat split; lra).
  rewrite Rabs_Ropp. apply Rabs_pos_eq.
  apply Rlt_le. apply Rdiv_lt_0_compat; [assumption|].
  apply Rmult_lt_0_compat; assumption.
Qed.

Lemma Alembert_erf :
  Un_cv (fun n => Rabs (erf_coef (S n) / erf_coef n)) 0.
Proof.
  intros eps Heps.
  destruct (archimed (/ eps)) as [Hup _].
  assert (Hinv : (0 < / eps)%R) by (apply Rinv_0_lt_compat; assumption).
  exists (Z.to_nat (up (/ eps))). intros n Hn.
  rewrite erf_coef_ratio.
  assert (Hk : (0 < INR (2 * n + 1))%R) by (apply lt_0_INR; lia).
  assert (Hk3 : (0 < INR (2 * n + 3))%R) by (apply lt_0_INR; lia).
  assert (Hs : (0 < INR (S n))%R) by (apply lt_0_INR; lia).
  assert (Hle : (INR (2 * n + 1) <= INR (2 * n + 3))%R) by (apply le_INR; lia).
  assert (Hbig : (/ eps < INR (S n))%R).
  { apply Rlt_le_trans with (IZR (up (/ eps))); [assumption|].
    rewrite INR_IZR_INZ. apply IZR_le. lia. }
  assert (Hpos : (0 <= INR (2 * n + 1) / (INR (S n) * INR (2 * n + 3)))%R).
  { apply Rlt_le. apply Rdiv_lt_0_compat; [assumption|].
    apply Rmult_lt_0_compat; assumption. }
  unfold R_dist. rewrite Rminus_0_r, Rabs_pos_eq by assumption.
  apply Rle_lt_trans with (/ INR (S n))%R.
  - apply Rmult_le_reg_r with (INR (S n) * INR (2 * n + 3))%R.
    + apply Rmult_lt_0_compat; assumption.
    + unfold Rdiv. rewrite Rmult_assoc, Rinv_l by (apply Rgt_not_eq; apply Rmult_lt_0_compat; assumption).
      replace (/ INR (S n) * (INR (S n) * INR (2 * n + 3)))%R with (INR (2 * n + 3))
        by (field; lra).
      lra.
  - rewrite <- (Rinv_inv eps). apply Rinv_lt_contravar; [|assumption].
    apply Rmult_lt_0_compat; lra.
Qed.

Definition erf_series (y : R) : {l : R | Pser erf_coef y l} :=
  Alembert_C3 erf_coef y erf_coef_neq0 Alembert_erf.

Definition erf (x : R) : R :=
  (2 / sqrt PI * (x * proj1_sig (erf_series (x * x))))%R.

Lemma erf_odd : forall x, erf (- x) = (- erf x)%R.
Proof.
  intro x. unfold erf.
  replace (- x * - x)%R with (x * x)%R by ring. ring.
Qed.

(** <cmath> over the reals.  [Rpower x y] is [exp (y * ln x)], the power for a
    positive base; [ln] of a non-positive number and [sqrt] of a negative one
    are 0 in the library of reals, where C gives an infinity or a NaN.  In
    exact arithmetic Eigen's exponential of an array is the exponential of each
    coefficient. *)
#[export] Instance R_libm : Libm R := {
  dexp := exp;
  dlog := ln;
  dpow := Rpower;
  derf := erf;
  array_exp := map exp;
  array_exp_length := length_map exp
}.

(** ** engines/Black76.cpp *)

Section Black76.
Context {D : Type} {ops : DoubleOps D} {lm : Libm D}.
Local Open Scope double_scope.

(** [0.5 * (1.0 + std::erf(x / std::sqrt(2.0)))] *)
Definition normCDF (x : D) : D :=
  dhalf * (d1 + derf (x / dsqrt d2)).

(** [(1.0 / std::sqrt(2.0 * QUANT_PI)) * std::exp(-0.5 * x * x)] *)
Definition normPDF (x : D) : D :=
  (d1 / dsqrt (d2 * dpi)) * dexp (- dhalf * x * x).

(** [(std::log(F / K) + 0.5 * sigma * sigma * T) / (sigma * std::sqrt(T))] *)
Definition Black76_d1 (F K T sigma : D) : D :=
  (dlog (F / K) + dhalf * sigma * sigma * T) / (sigma * dsqrt T).

Definition Black76_d2 (F K T sigma : D) : D :=
  Black76_d1 F K T sigma - sigma * dsqrt T.

Definition Black76_price
  (forwardPrice strike timeToExpiry volatility discountFactor : D) (isCall : bool) : D :=
  if (timeToExpiry <=? d0) || (volatility <=? d0) then
    if isCall then discountFactor * dmax (forwardPrice - strike) d0
    else discountFactor * dmax (strike - forwardPrice) d0
  else
    let d1_val := Black76_d1 forwardPrice strike timeToExpiry volatility in
    let d2_val := Black76_d2 forwardPrice strike timeToExpiry volatility in
    if isCall then
      discountFactor * (forwardPrice * normCDF d1_val - strike * normCDF d2_val)
    else
      discountFactor * (strike * normCDF (- d2_val) - forwardPrice * normCDF (- d1_val)).

Definition Black76_vega
  (forwardPrice strike timeToExpiry volatility discountFactor : D) : D :=
  if (timeToExpiry <=? d0) || (volatility <=? d0) then d0
  else
    let d1_val := Black76_d1 forwardPrice strike timeToExpiry volatility in
    discountFactor * forwardPrice * normPDF d1_val * dsqrt timeToExpiry.

Definition Black76_delta
  (forwardPrice strike timeToExpiry volatility discountFactor : D) (isCall : bool) : D :=
  if (timeToExpiry <=? d0) || (volatility <=? d0) then
    if isCall then discountFactor * (if forwardPrice >? strike then d1 else d0)
    else discountFactor * (if forwardPrice <? strike then - d1 else d0)
  else
    let d1_val := Black76_d1 forwardPrice strike timeToExpiry volatility in
    if isCall then discountFactor * normCDF d1_val
    else - discountFactor * normCDF (- d1_val).

End Black76.

(** ** core/DiscountCurve.hpp, core/DiscountCurve.cpp *)

Inductive Compounding : Type :=
| Annual | Semi | Quarterly | Monthly | Continuous.

(** The enumerators' values: [static_cast<double>(m)] converts them. *)
Definition Compounding_value (m : Compounding) : Z :=
  match m with
  | Annual => 1
  | Semi => 2
  | Quarterly => 4
  | Monthly => 12
  | Continuous => 0
  end.

Definition is_Continuous (m : Compounding) : bool :=
  match m with Continuous => true | _ => false end.

Inductive DayCount : Type := ACT_365F | THIRTY_360.

Section DiscountCurve.
Context {D : Type} {ops : DoubleOps D}.
Local Open Scope double_scope.

Record ZeroQuote : Type := { zq_time : D; zq_df : D }.

Record DiscountCurve : Type := {
  y_ : D;
  m_ : Compounding;
  dc_ : DayCount;
  boot_ : list ZeroQuote
}.

(** Flat constructor. *)
Definition DiscountCurve_flat (flatYield : D) (cmp : Compounding) (dc : DayCount)
  : result DiscountCurve :=
  if disnan flatYield || disinf flatYield then Err InvalidArgument
  else Ok {| y_ := flatYield; m_ := cmp; dc_ := dc; boot_ := [] |}.

Definition quote_time_invalid (q : ZeroQuote) : bool :=
  (zq_time q <=? d0) || disnan (zq_time q) || disinf (zq_time q).

Definition quote_df_invalid (q : ZeroQuote) : bool :=
  (zq_df q <=? d0) || disnan (zq_df q) || disinf (zq_df q).

(** The validation loop of the bootstrapped constructor. *)
Fixpoint validate_quotes (qs : list ZeroQuote) : result unit :=
  match qs with
  | [] => Ok tt
  | q :: rest =>
      if quote_time_invalid q then Err InvalidArgument
      else if quote_df_invalid q then Err InvalidArgument
      else validate_quotes rest
  end.

(** [std::sort] with the comparator [a.time < b.time], as an insertion sort.
    C++ leaves the order of quotes with equal times unspecified; this one keeps
    their input order. *)
Fixpoint insert_quote (q : ZeroQuote) (l : list ZeroQuote) : list ZeroQuote :=
  match l with
  | [] => [q]
  | h :: t => if zq_time h <? zq_time q then h :: insert_quote q t else q :: l
  end.

Definition sort_quotes (qs : list ZeroQuote) : list ZeroQuote :=
  fold_right insert_quote [] qs.

(** Boot-strapped constructor. *)
Definition DiscountCurve_boot (quotes : list ZeroQuote) : result DiscountCurve :=
  match quotes with
  | [] => Err InvalidArgument
  | _ :: _ =>
      _ <- validate_quotes quotes ;;
      Ok {| y_ := d0; m_ := Continuous; dc_ := ACT_365F; boot_ := sort_quotes quotes |}
  end.

(** [std::lower_bound] with the comparator [a.time < b.time] and the probe
    [ZeroQuote{t, 0.0}]: the index of the first quote whose time is not below
    [t] (the partition point of a sorted range). *)
Fixpoint lower_bound (l : list ZeroQuote) (t : D) : nat :=
  match l with
  | [] => O
  | q :: rest => if zq_time q <? t then S (lower_bound rest t) else O
  end.

Context {lm : Libm D}.

Definition DiscountCurve_df (c : DiscountCurve) (t : D) : result D :=
  if disnan t || disinf t then Err InvalidArgument
  else
    match boot_ c with
    | q0 :: _ =>
        if t <=? d0 then Ok d1
        else
          let it := lower_bound (boot_ c) t in
          if Nat.eqb it 0 then Ok (zq_df q0)
          else if Nat.eqb it (length (boot_ c)) then Ok (zq_df (last (boot_ c) q0))
          else
            let prev := nth (it - 1) (boot_ c) q0 in
            let cur := nth it (boot_ c) q0 in
            let t0 := zq_time prev in
            let t1 := zq_time cur in
            let df0 := zq_df prev in
            let df1 := zq_df cur in
            if (df0 <=? d0) || (df1 <=? d0) then
              if t1 ==? t0 then Ok df0
              else
                let weight := (t - t0) / (t1 - t0) in
                Ok (df0 + weight * (df1 - df0))
            else if t1 ==? t0 then Ok df0
            else
              let weight := (t - t0) / (t1 - t0) in
              let logDF := dlog df0 + weight * (dlog df1 - dlog df0) in
              Ok (dexp logDF)
    | [] =>
        if t <=? d0 then Ok d1
        else if is_Continuous (m_ c) then Ok (dexp (- y_ c * t))
        else
          let m := dsize (Compounding_value (m_ c)) in
          if m ==? d0 then Ok (dexp (- y_ c * t))
          else Ok (dpow (d1 + y_ c / m) (- m * t))
    end.

End DiscountCurve.

Arguments ZeroQuote D : clear implicits.
Arguments DiscountCurve D : clear implicits.

(** ** core/CashFlow.hpp, engines/Sensitivity.cpp *)

Section Sensitivity.
Context {D : Type} {ops : DoubleOps D} {lm : Libm D}.
Local Open Scope double_scope.

Record CashFlow : Type := { cf_time : D; cf_amount : D }.

Definition discountFactor (time yield : D) (compounding : Compounding) : D :=
  if is_Continuous compounding then dexp (- yield * time)
  else
    let m := dsize (Compounding_value compounding) in
    dpow (d1 + yield / m) (- m * time).

Definition discountFactorDelta (time yield : D) (compounding : Compounding) : D :=
  if is_Continuous compounding then - time * dexp (- yield * time)
  else
    let m := dsize (Compounding_value compounding) in
    let base := d1 + yield / m in
    - time * dpow base (- m * time - d1).

Definition discountFactorGamma (time yield : D) (compounding : Compounding) : D :=
  if is_Continuous compounding then time * time * dexp (- yield * time)
  else
    let m := dsize (Compounding_value compounding) in
    let base := d1 + yield / m in
    (time * time + time / m) * dpow base (- m * time - d2).

(** [double P = 0.0; for (cf : cashFlows) P += cf.amount * df; return P;] *)
Definition Sensitivity_price (cashFlows : list CashFlow) (yield : D)
  (compounding : Compounding) : D :=
  fold_left
    (fun P cf => P + cf_amount cf * discountFactor (cf_time cf) yield compounding)
    cashFlows d0.

Definition priceDelta (cashFlows : list CashFlow) (yield : D)
  (compounding : Compounding) : D :=
  fold_left
    (fun dP_dy cf =>
       dP_dy + cf_amount cf * discountFactorDelta (cf_time cf) yield compounding)
    cashFlows d0.

Definition priceGamma (cashFlows : list CashFlow) (yield : D)
  (compounding : Compounding) : D :=
  fold_left
    (fun d2P_dy2 cf =>
       d2P_dy2 + cf_amount cf * discountFactorGamma (cf_time cf) yield compounding)
    cashFlows d0.

Definition modifiedDuration (cashFlows : list CashFlow) (yield : D)
  (compounding : Compounding) : D :=
  let P := Sensitivity_price cashFlows yield compounding in
  let dP_dy := priceDelta cashFlows yield compounding in
  if P ==? d0 then d0 else - dP_dy / P.

Definition dv01 (cashFlows : list CashFlow) (yield : D)
  (compounding : Compounding) : D :=
  let dP_dy := priceDelta cashFlows yield compounding in
  - dP_dy * dlit (1 # 10000).

Definition convexity (cashFlows : list CashFlow) (yield : D)
  (compounding : Compounding) : D :=
  let P := Sensitivity_price cashFlows yield compounding in
  let d2P_dy2 := priceGamma cashFlows yield compounding in
  if P ==? d0 then d0 else d2P_dy2 / P.

End Sensitivity.

Arguments CashFlow D : clear implicits.

(** ** instruments/Bond.cpp, engines/YieldSolver.cpp *)

Section YieldSolver.
Context {D : Type} {ops : DoubleOps D} {lm : Libm D}.
Local Open Scope double_scope.

(** A bond is its cash-flow vector [cfs_]. *)
Record Bond : Type := { cfs_ : list (CashFlow D) }.

(** The loop of [Bond::price]: [price += cf.amount * curve.df(cf.time)]. *)
Fixpoint Bond_price_loop (cfs : list (CashFlow D)) (curve : DiscountCurve D)
  (price : D) : result D :=
  match cfs with
  | [] => Ok price
  | cf :: rest =>
      df <- DiscountCurve_df curve (cf_time cf) ;;
      Bond_price_loop rest curve (price + cf_amount cf * df)
  end.

Definition Bond_price (b : Bond) (curve : DiscountCurve D) : result D :=
  Bond_price_loop (cfs_ b) curve d0.

(** [f(y) = price(y) - targetPrice] on a flat curve of yield [y]. *)
Definition priceDifference (b : Bond) (yield targetPrice : D) (m : Compounding)
  : result D :=
  curve <- DiscountCurve_flat yield m ACT_365F ;;
  bondPrice <- Bond_price b curve ;;
  Ok (bondPrice - targetPrice).

Definition priceDifferenceDerivative (b : Bond) (yield : D) (m : Compounding)
  : result D :=
  let h := dmax (dlit (1 # 100000000)) (dlit (1 # 1000000) * dabs yield) in
  f_plus <- priceDifference b (yield + h) d0 m ;;
  f_minus <- priceDifference b (yield - h) d0 m ;;
  Ok ((f_plus - f_minus) / (d2 * h)).

(** The bracket check at the head of [bisectionPhase]: the upper bound and the
    value there. *)
Definition bracketRoot (b : Bond) (targetPrice : D) (m : Compounding) (fa : D)
  : result (D * D) :=
  let b_upper := d1 in
  fb <- priceDifference b b_upper targetPrice m ;;
  if fa * fb >? d0 then
    let b_upper := d2 in
    fb <- priceDifference b b_upper targetPrice m ;;
    if fa * fb >? d0 then Err RootNotBracketed
    else Ok (b_upper, fb)
  else Ok (b_upper, fb).

(** [for (int i = 0; i < 10; ++i)] of [bisectionPhase], [n] iterations left. *)
Fixpoint bisectionLoop (b : Bond) (targetPrice : D) (m : Compounding) (n : nat)
  (a b_upper fa fb : D) : result (D * D) :=
  match n with
  | O => Ok (a, b_upper)
  | S n' =>
      let c := (a + b_upper) / d2 in
      fc <- priceDifference b c targetPrice m ;;
      if fa * fc <? d0 then bisectionLoop b targetPrice m n' a c fa fc
      else bisectionLoop b targetPrice m n' c b_upper fc fb
  end.

Definition bisectionPhase (b : Bond) (targetPrice : D) (m : Compounding)
  : result D :=
  let a := d0 in
  fa <- priceDifference b a targetPrice m ;;
  bracket <- bracketRoot b targetPrice m fa ;;
  let '(b_upper, fb) := bracket in
  final <- bisectionLoop b targetPrice m 10 a b_upper fa fb ;;
  let '(a, b_upper) := final in
  Ok ((a + b_upper) / d2).

(** [if (y < 0.0) y = 0.001; if (y > 2.0) y = 2.0;] *)
Definition clampYield (y : D) : D :=
  let y := if y <? d0 then dlit (1 # 1000) else y in
  if y >? d2 then d2 else y.

(** One pass through the body of the Newton loop: it leaves the loop with a
    result ([return y] or [break]) or goes on with the next iterate. *)
Inductive NewtonStep : Type :=
| Finished (y : D)
| Continue (y : D).

Definition newtonIteration (b : Bond) (targetPrice : D) (m : Compounding) (y : D)
  : result NewtonStep :=
  let tolerance := dlit (1 # 1000000000000) in
  priceError <- priceDifference b y targetPrice m ;;
  if dabs priceError <? tolerance then Ok (Finished y)
  else
    priceDerivative <- priceDifferenceDerivative b y m ;;
    if dabs priceDerivative <? dlit (1 # 1000000000000000) then Ok (Finished y)
    else Ok (Continue (clampYield (y - priceError / priceDerivative))).

(** [for (int i = 0; i < maxIterations; ++i)], [n] iterations left. *)
Fixpoint newtonLoop (b : Bond) (targetPrice : D) (m : Compounding) (n : nat) (y : D)
  : result D :=
  match n with
  | O => Ok y
  | S n' =>
      step <- newtonIteration b targetPrice m y ;;
      match step with
      | Finished y => Ok y
      | Continue y' => newtonLoop b targetPrice m n' y'
      end
  end.

Definition maxIterations : nat := 100.

Definition newtonRaphsonPhase (b : Bond) (targetPrice : D) (m : Compounding) (y0 : D)
  : result D :=
  newtonLoop b targetPrice m maxIterations y0.

(** [y0], the initial guess, is not used by the source either. *)
Definition solve (b : Bond) (targetPrice : D) (m : Compounding) (y0 : D) : result D :=
  yieldBisection <- bisectionPhase b targetPrice m ;;
  newtonRaphsonPhase b targetPrice m yieldBisection.

End YieldSolver.

Arguments Bond D : clear implicits.
Arguments NewtonStep D : clear implicits.

(** ** engines/MonteCarlo.hpp, engines/MonteCarlo.cpp *)

Inductive OptionType : Type := Call | Put.

(** [std::size_t] is 64 bits wide. *)
Definition size_max : Z := 2 ^ 64.
Definition wrap64 (z : Z) : Z := z mod size_max.

Record Config : Type := {
  batchSize : Z;
  useAntithetic : bool;
  randomSeed : Z;
  enableVectorization : bool
}.

(** The default constructor of [Config]. *)
Definition Config_default : Config :=
  {| batchSize := 8000; useAntithetic := true; randomSeed := 42;
     enableVectorization := true |}.

(** The random source: a [std::mt19937] seeded from an [int], read through one
    [std::normal_distribution<double>(0.0, 1.0)].  A state holds both. *)
Class NormalSource (D : Type) : Type := {
  rng : Type;
  rng_seed : Z -> rng;
  rng_normal : rng -> D * rng
}.

Section MonteCarlo.
Context {D : Type} {ops : DoubleOps D} {lm : Libm D} {src : NormalSource D}.
Local Open Scope double_scope.

Record MCResult : Type := {
  price : D;
  standardError : D;
  confidenceInterval95 : D;
  effectivePaths : Z;
  varianceReduction : D
}.

Definition payoff (FT K : D) (tp : OptionType) : D :=
  match tp with
  | Call => dmax (FT - K) d0
  | Put => dmax (K - FT) d0
  end.

(** [F0 * (drift + vol_sqrt_T * randoms).exp()]: the sum and the products of
    the array expression are coefficient-wise, the exponential is Eigen's
    [exp()] of the whole array, not [std::exp]. *)
Definition generatePaths (F0 sigma T : D) (randoms : list D) : list D :=
  let drift := - dhalf * sigma * sigma * T in
  let vol_sqrt_T := sigma * dsqrt T in
  map (fun e => F0 * e) (array_exp (map (fun z => drift + vol_sqrt_T * z) randoms)).

Definition generateAntitheticPaths (F0 sigma T : D) (randoms : list D)
  : list D * list D :=
  let drift := - dhalf * sigma * sigma * T in
  let vol_sqrt_T := sigma * dsqrt T in
  let paths1 :=
    map (fun e => F0 * e) (array_exp (map (fun z => drift + vol_sqrt_T * z) randoms)) in
  let paths2 :=
    map (fun e => F0 * e)
        (array_exp (map (fun z => drift + vol_sqrt_T * (- z)) randoms)) in
  (paths1, paths2).

(** [for (i = 0; i < n; ++i) randoms(i) = normal(rng);] *)
Fixpoint drawNormals (n : nat) (g : rng) : list D * rng :=
  match n with
  | O => ([], g)
  | S n' =>
      let (z, g1) := rng_normal g in
      let (zs, g2) := drawNormals n' g1 in
      (z :: zs, g2)
  end.

(** The running state of [simulateVectorized]. *)
Record SimState : Type := {
  payoffSum : D;
  totalPaths : Z;
  sim_rng : rng
}.

(** The scalar branch: [n] passes of
    [Z = normal(rng); payoffSum += payoff(FT); totalPaths++;] and, with
    antithetic variates, [payoffSum += payoff(FT_anti); totalPaths++;]. *)
Fixpoint scalarBatch (F0 K sigma drift sqrtT : D) (tp : OptionType)
  (antithetic : bool) (n : nat) (st : SimState) : SimState :=
  match n with
  | O => st
  | S n' =>
      let (Z, g) := rng_normal (sim_rng st) in
      let FT := F0 * dexp (drift + sigma * sqrtT * Z) in
      let sum1 := payoffSum st + payoff FT K tp in
      let paths1 := wrap64 (totalPaths st + 1) in
      let st1 :=
        if antithetic then
          let FT_anti := F0 * dexp (drift + sigma * sqrtT * (- Z)) in
          {| payoffSum := sum1 + payoff FT_anti K tp;
             totalPaths := wrap64 (paths1 + 1);
             sim_rng := g |}
        else {| payoffSum := sum1; totalPaths := paths1; sim_rng := g |} in
      scalarBatch F0 K sigma drift sqrtT tp antithetic n' st1
  end.

(** The array branch: draw the whole batch, build the paths, add the payoffs. *)
Definition vectorBatch (F0 K sigma T : D) (tp : OptionType) (antithetic : bool)
  (currentBatchSize : Z) (st : SimState) : SimState :=
  let (randoms, g) := drawNormals (Z.to_nat currentBatchSize) (sim_rng st) in
  if antithetic then
    let (paths1, paths2) := generateAntitheticPaths F0 sigma T randoms in
    {| payoffSum :=
         fold_left (fun s p => s + payoff (fst p) K tp + payoff (snd p) K tp)
                   (combine paths1 paths2) (payoffSum st);
       totalPaths := wrap64 (totalPaths st + wrap64 (2 * currentBatchSize));
       sim_rng := g |}
  else
    let paths := generatePaths F0 sigma T randoms in
    {| payoffSum := fold_left (fun s p => s + payoff p K tp) paths (payoffSum st);
       totalPaths := wrap64 (totalPaths st + currentBatchSize);
       sim_rng := g |}.

(** [for (batch = 0; batch < N; batch += config.batchSize)].  The loop does not
    end when [batchSize] is 0, so it runs on fuel: [None] is out of fuel. *)
Fixpoint batchLoop (F0 K sigma T drift sqrtT : D) (tp : OptionType) (N : Z)
  (config : Config) (fuel : nat) (batch : Z) (st : SimState) : option SimState :=
  match fuel with
  | O => None
  | S fuel' =>
      if (batch <? N)%Z then
        let currentBatchSize := Z.min (batchSize config) (N - batch) in
        let st' :=
          if enableVectorization config && (1 <? currentBatchSize)%Z then
            vectorBatch F0 K sigma T tp (useAntithetic config) currentBatchSize st
          else
            scalarBatch F0 K sigma drift sqrtT tp (useAntithetic config)
                        (Z.to_nat currentBatchSize) st in
        batchLoop F0 K sigma T drift sqrtT tp N config fuel'
                  (wrap64 (batch + batchSize config)) st'
      else Some st
  end.

(** The result with the generator it leaves behind. *)
Definition simulateVectorized (fuel : nat) (F0 K sigma T df : D) (tp : OptionType)
  (N : Z) (config : Config) (g : rng) : option (D * rng) :=
  if T <=? d0 then Some (df * payoff F0 K tp, g)
  else
    let sqrtT := dsqrt T in
    let drift := - dhalf * sigma * sigma * T in
    match batchLoop F0 K sigma T drift sqrtT tp N config fuel 0
            {| payoffSum := d0; totalPaths := 0; sim_rng := g |} with
    | Some st => Some (df * (payoffSum st / dsize (totalPaths st)), sim_rng st)
    | None => None
    end.

Definition mcPrice (fuel : nat) (F0 K sigma T df : D) (tp : OptionType) (N : Z)
  : option D :=
  let defaultConfig := Config_default in
  let rng := rng_seed (randomSeed defaultConfig) in
  option_map fst (simulateVectorized fuel F0 K sigma T df tp N defaultConfig rng).

Definition mcPriceAdvanced (fuel : nat) (F0 K sigma T df : D) (tp : OptionType)
  (N : Z) (config : Config) : option D :=
  let rng := rng_seed (randomSeed config) in
  option_map fst (simulateVectorized fuel F0 K sigma T df tp N config rng).

(** The running state of [mcPriceWithStats]: the payoff vector and the generator. *)
Definition StatsState : Type := (list D * rng)%type.

Fixpoint statsScalarBatch (F0 K sigma drift sqrtT : D) (tp : OptionType)
  (antithetic : bool) (n : nat) (st : StatsState) : StatsState :=
  match n with
  | O => st
  | S n' =>
      let (Z, g) := rng_normal (snd st) in
      let FT := F0 * dexp (drift + sigma * sqrtT * Z) in
      let payoffs1 := fst st ++ [payoff FT K tp] in
      let payoffs2 :=
        if antithetic then
          let FT_anti := F0 * dexp (drift + sigma * sqrtT * (- Z)) in
          payoffs1 ++ [payoff FT_anti K tp]
        else payoffs1 in
      statsScalarBatch F0 K sigma drift sqrtT tp antithetic n' (payoffs2, g)
  end.

Definition statsVectorBatch (F0 K sigma T : D) (tp : OptionType) (antithetic : bool)
  (currentBatchSize : Z) (st : StatsState) : StatsState :=
  let (randoms, g) := drawNormals (Z.to_nat currentBatchSize) (snd st) in
  if antithetic then
    let (paths1, paths2) := generateAntitheticPaths F0 sigma T randoms in
    (fold_left (fun ps p => (ps ++ [payoff (fst p) K tp]) ++ [payoff (snd p) K tp])
               (combine paths1 paths2) (fst st), g)
  else
    let paths := generatePaths F0 sigma T randoms in
    (fold_left (fun ps p => ps ++ [payoff p K tp]) paths (fst st), g).

Fixpoint statsBatchLoop (F0 K sigma T drift sqrtT : D) (tp : OptionType) (N : Z)
  (config : Config) (fuel : nat) (batch : Z) (st : StatsState) : option StatsState :=
  match fuel with
  | O => None
  | S fuel' =>
      if (batch <? N)%Z then
        let currentBatchSize := Z.min (batchSize config) (N - batch) in
        let st' :=
          if enableVectorization config && (1 <? currentBatchSize)%Z then
            statsVectorBatch F0 K sigma T tp (useAntithetic config) currentBatchSize st
          else
            statsScalarBatch F0 K sigma drift sqrtT tp (useAntithetic config)
                             (Z.to_nat currentBatchSize) st in
        statsBatchLoop F0 K sigma T drift sqrtT tp N config fuel'
                       (wrap64 (batch + batchSize config)) st'
      else Some st
  end.

(** The statistics over the payoff vector. *)
Definition statsOfPayoffs (df : D) (effective : Z) (payoffs : list D) : MCResult :=
  let '(sum, sumSquares) :=
    fold_left (fun acc p => (fst acc + p, snd acc + p * p)) payoffs (d0, d0) in
  let size := dsize (Z.of_nat (length payoffs)) in
  let price := df * sum / size in
  let variance := (sumSquares / size) - (sum / size) * (sum / size) in
  let standardError := df * dsqrt (variance / size) in
  {| price := price;
     standardError := standardError;
     confidenceInterval95 := dlit (196 # 100) * standardError;
     effectivePaths := effective;
     varianceReduction := d0 |}.

(** [mcPriceWithStats], with the generator it leaves behind. *)
Definition mcPriceWithStats_run (fuel : nat) (F0 K sigma T df : D) (tp : OptionType)
  (N : Z) (config : Config) : option (MCResult * rng) :=
  let rng := rng_seed (randomSeed config) in
  let effective := if useAntithetic config then wrap64 (N * 2) else N in
  let sqrtT := dsqrt T in
  let drift := - dhalf * sigma * sigma * T in
  match statsBatchLoop F0 K sigma T drift sqrtT tp N config fuel 0 ([], rng) with
  | Some st => Some (statsOfPayoffs df effective (fst st), snd st)
  | None => None
  end.

Definition mcPriceWithStats (fuel : nat) (F0 K sigma T df : D) (tp : OptionType)
  (N : Z) (config : Config) : option MCResult :=
  option_map fst (mcPriceWithStats_run fuel F0 K sigma T df tp N config).

End MonteCarlo.

Arguments MCResult D : clear implicits.

(** * The rest of the library *)

(** ** Conversions between [int] and [double] *)

(** [int] is 32 bits wide; a [long] is narrowed to it modulo [2^32]. *)
Definition int_max : Z := 2 ^ 31 - 1.
Definition to_int (z : Z) : Z := (z + 2 ^ 31) mod 2 ^ 32 - 2 ^ 31.

(** [std::lround]: the nearest integer, halfway cases away from zero. *)
Class Rounding (D : Type) : Type := {
  dlround : D -> Z
}.

(** On binary64 [x] is [(-1)^s * m * 2^e]; C leaves the result unspecified
    for a NaN or an infinity, where this one gives 0. *)
Definition float_lround (x : float) : Z :=
  match Prim2SF x with
  | S754_finite s m e =>
      let mag :=
        if (0 <=? e)%Z then (Z.pos m * 2 ^ e)%Z
        else ((Z.pos m + 2 ^ (- e - 1)) / 2 ^ (- e))%Z in
      if s then (- mag)%Z else mag
  | _ => 0%Z
  end.

#[export] Instance float_rounding : Rounding float := {
  dlround := float_lround
}.

Definition R_lround (x : R) : Z :=
  if Rle_dec 0 x then Int_part (x + 1 / 2) else (- Int_part (- x + 1 / 2))%Z.

#[export] Instance R_rounding : Rounding R := {
  dlround := R_lround
}.

Section IntToDouble.
Context {D : Type} {ops : DoubleOps D}.
Local Open Scope double_scope.

(** An [int] converted to [double]: exact, whatever the sign. *)
Definition dint (z : Z) : D :=
  if (z <? 0)%Z then - dsize (- z) else dsize z.

End IntToDouble.

(** ** core/CashFlow.cpp *)

Section CashFlows.
Context {D : Type} {ops : DoubleOps D} {rd : Rounding D}.
Local Open Scope double_scope.

(** [for (int i = 1; i <= totalPayments; ++i)], [count] passes left. *)
Fixpoint couponPayments (couponAmount timeStep maturityYears : D)
  (totalPayments : Z) (count : nat) (i : Z) : list (CashFlow D) :=
  match count with
  | O => []
  | S count' =>
      let time :=
        if (i =? totalPayments)%Z then maturityYears else dint i * timeStep in
      {| cf_time := time; cf_amount := couponAmount |}
      :: couponPayments couponAmount timeStep maturityYears totalPayments count'
           (i + 1)
  end.

(** [cashFlows.back().amount += face] *)
Fixpoint addToBack (face : D) (cashFlows : list (CashFlow D)) : list (CashFlow D) :=
  match cashFlows with
  | [] => []
  | [cf] => [ {| cf_time := cf_time cf; cf_amount := cf_amount cf + face |} ]
  | cf :: rest => cf :: addToBack face rest
  end.

Definition bulletSchedule (face cpnRate : D) (couponPerYear : Z) (maturityYears : D)
  : result (list (CashFlow D)) :=
  if disnan face || disinf face then Err InvalidArgument
  else if disnan cpnRate || disinf cpnRate then Err InvalidArgument
  else if disnan maturityYears || disinf maturityYears then Err InvalidArgument
  else if maturityYears <=? d0 then Err InvalidArgument
  else if (couponPerYear <=? 0)%Z then Err InvalidArgument
  else if face <=? d0 then Err InvalidArgument
  else
    let couponAmount := (cpnRate * face) / dint couponPerYear in
    let timeStep := d1 / dint couponPerYear in
    let totalPayments := to_int (dlround (maturityYears * dint couponPerYear)) in
    let cashFlows :=
      couponPayments couponAmount timeStep maturityYears totalPayments
        (Z.to_nat totalPayments) 1 in
    match cashFlows with
    | [] => Ok [ {| cf_time := maturityYears; cf_amount := face |} ]
    | _ :: _ => Ok (addToBack face cashFlows)
    end.

End CashFlows.

(** ** core/DiscountCurve.cpp: the forward bond price *)

Section ForwardPrice.
Context {D : Type} {ops : DoubleOps D} {lm : Libm D}.
Local Open Scope double_scope.

Definition DiscountCurve_fwdBondPrice (c : DiscountCurve D) (t : D) : result D :=
  discount <- DiscountCurve_df c t ;;
  Ok (if discount >? d0 then d1 / discount else d0).

End ForwardPrice.

(** ** instruments/Bond.cpp *)

Section BondAnalytics.
Context {D : Type} {ops : DoubleOps D} {lm : Libm D} {rd : Rounding D}.
Local Open Scope double_scope.

(** The constructor. *)
Definition Bond_new (face cpnRate : D) (couponPerYear : Z) (maturityYears : D)
  : result (Bond D) :=
  cfs <- bulletSchedule face cpnRate couponPerYear maturityYears ;;
  Ok {| cfs_ := cfs |}.

(** The solver's [solve] on this bond, with its default [y0 = 0.05]. *)
Definition Bond_yieldFromPrice (b : Bond D) (cleanPrice : D) (m : Compounding)
  : result D :=
  solve b cleanPrice m (dlit (5 # 100)).

Definition Bond_extractYield (b : Bond D) (curve : DiscountCurve D) (m : Compounding)
  : result D :=
  match cfs_ b with
  | [] => Ok (dlit (5 # 100))
  | cf0 :: _ =>
      let maturityTime := cf_time (last (cfs_ b) cf0) in
      df <- DiscountCurve_df curve maturityTime ;;
      if df <=? d0 then Ok (dlit (5 # 100))
      else if is_Continuous m then Ok (- dlog df / maturityTime)
      else
        let compoundingFreq := dsize (Compounding_value m) in
        let yieldFactor := dpow (d1 / df) (d1 / (compoundingFreq * maturityTime)) in
        Ok (compoundingFreq * (yieldFactor - d1))
  end.

Definition Bond_dv01 (b : Bond D) (curve : DiscountCurve D) (m : Compounding)
  : result D :=
  yield <- Bond_extractYield b curve m ;;
  Ok (dv01 (cfs_ b) yield m).

Definition Bond_modDuration (b : Bond D) (curve : DiscountCurve D) (m : Compounding)
  : result D :=
  yield <- Bond_extractYield b curve m ;;
  Ok (modifiedDuration (cfs_ b) yield m).

Definition Bond_convexity (b : Bond D) (curve : DiscountCurve D) (m : Compounding)
  : result D :=
  yield <- Bond_extractYield b curve m ;;
  Ok (convexity (cfs_ b) yield m).

End BondAnalytics.

(** ** instruments/EuropeanBondOption.cpp *)

Inductive EuropeanBondOption_Type : Type := Type_Call | Type_Put.

Section EuropeanBondOption.
Context {D : Type} {ops : DoubleOps D} {lm : Libm D} {src : NormalSource D}.
Local Open Scope double_scope.

Record EuropeanBondOption : Type := {
  type_ : EuropeanBondOption_Type;
  K_ : D;
  T_ : D
}.

Definition isCall_of (tp : EuropeanBondOption_Type) : bool :=
  match tp with Type_Call => true | Type_Put => false end.

(** The underlying bond matures 5 years after the option expires. *)
Definition getForwardPrice (opt : EuropeanBondOption) (curve : DiscountCurve D)
  : result D :=
  let bondMaturity := T_ opt + dlit 5 in
  DiscountCurve_fwdBondPrice curve bondMaturity.

Definition priceBlack (opt : EuropeanBondOption) (curve : DiscountCurve D) (sigma : D)
  : result D :=
  forwardPrice <- getForwardPrice opt curve ;;
  discountFactor <- DiscountCurve_df curve (T_ opt) ;;
  let isCall := isCall_of (type_ opt) in
  Ok (Black76_price forwardPrice (K_ opt) (T_ opt) sigma discountFactor isCall).

(** [None] inside [Ok] is the simulation out of fuel. *)
Definition priceMC (fuel : nat) (opt : EuropeanBondOption) (curve : DiscountCurve D)
  (sigma : D) (paths : Z) : result (option D) :=
  forwardPrice <- getForwardPrice opt curve ;;
  discountFactor <- DiscountCurve_df curve (T_ opt) ;;
  let mcType := match type_ opt with Type_Call => Call | Type_Put => Put end in
  Ok (mcPrice fuel forwardPrice (K_ opt) sigma (T_ opt) discountFactor mcType paths).

Definition vegaBlack (opt : EuropeanBondOption) (curve : DiscountCurve D) (sigma : D)
  : result D :=
  forwardPrice <- getForwardPrice opt curve ;;
  discountFactor <- DiscountCurve_df curve (T_ opt) ;;
  Ok (Black76_vega forwardPrice (K_ opt) (T_ opt) sigma discountFactor).

End EuropeanBondOption.

Arguments EuropeanBondOption D : clear implicits.

(** ** core/DayCount.hpp, core/DayCount.cpp *)

(** The fields are [int]. *)
Record Date : Type := { year : Z; month : Z; day : Z }.

(** [int] arithmetic.  A result outside [-2^31, 2^31) is undefined behaviour in
    C++, and so is a read outside an array: [None] stands for both. *)
Definition int_min : Z := (- 2 ^ 31)%Z.

Definition int_checked (z : Z) : option Z :=
  if (int_min <=? z)%Z && (z <=? int_max)%Z then Some z else None.

Definition int_add (a b : Z) : option Z := int_checked (a + b).
Definition int_sub (a b : Z) : option Z := int_checked (a - b).
Definition int_mul (a b : Z) : option Z := int_checked (a * b).

Definition and_then {A B : Type} (r : option A) (k : A -> option B) : option B :=
  match r with
  | Some a => k a
  | None => None
  end.

Notation "x <-? r ;; k" := (and_then r (fun x => k))
  (at level 61, r at next level, right associativity).

(** [(year % 4 == 0 && year % 100 != 0) || (year % 400 == 0)] *)
Definition isLeapYear (y : Z) : bool :=
  ((Z.rem y 4 =? 0)%Z && negb (Z.rem y 100 =? 0)%Z) || (Z.rem y 400 =? 0)%Z.

Definition daysInMonth : list Z := [31; 28; 31; 30; 31; 30; 31; 31; 30; 31; 30; 31]%Z.

(** [daysInMonth[i]]: the table has twelve entries. *)
Definition daysInMonth_at (i : Z) : option Z :=
  if (i <? 0)%Z then None else nth_error daysInMonth (Z.to_nat i).

(** The test before [std::swap(d0, d1)]. *)
Definition laterThan (d0 d1 : Date) : bool :=
  (year d0 >? year d1)%Z
  || ((year d0 =? year d1)%Z && (month d0 >? month d1)%Z)
  || ((year d0 =? year d1)%Z && (month d0 =? month d1)%Z && (day d0 >? day d1)%Z).

(** [for (int year = d0.year; year < d1.year; ++year)], [count] passes left:
    [totalDays += 1] in a leap year. *)
Fixpoint leapYearLoop (count : nat) (y totalDays : Z) : option Z :=
  match count with
  | O => Some totalDays
  | S count' =>
      totalDays <-? (if isLeapYear y then int_add totalDays 1 else Some totalDays) ;;
      leapYearLoop count' (y + 1) totalDays
  end.

(** [for (int m = 1; m < d.month; ++m)], [count] passes left, with [step] the
    [-=] of the start date or the [+=] of the end date.  The table is read at
    [m - 1]. *)
Fixpoint monthLoop (step : Z -> Z -> option Z) (leap : bool) (count : nat)
  (m totalDays : Z) : option Z :=
  match count with
  | O => Some totalDays
  | S count' =>
      days <-? daysInMonth_at (m - 1) ;;
      totalDays <-? step totalDays days ;;
      totalDays <-? (if (m =? 2)%Z && leap then step totalDays 1%Z else Some totalDays) ;;
      monthLoop step leap count' (m + 1) totalDays
  end.

(** [totalDays] of the ACT_365F case. *)
Definition actualDays (d0 d1 : Date) : option Z :=
  let totalDays := 0%Z in
  years <-? int_sub (year d1) (year d0) ;;
  yearDays <-? int_mul years 365 ;;
  totalDays <-? int_add totalDays yearDays ;;
  totalDays <-? leapYearLoop (Z.to_nat (year d1 - year d0)) (year d0) totalDays ;;
  totalDays <-? monthLoop int_sub (isLeapYear (year d0)) (Z.to_nat (month d0 - 1)) 1
                  totalDays ;;
  startDay <-? int_sub (day d0) 1 ;;
  totalDays <-? int_sub totalDays startDay ;;
  totalDays <-? monthLoop int_add (isLeapYear (year d1)) (Z.to_nat (month d1 - 1)) 1
                  totalDays ;;
  endDay <-? int_sub (day d1) 1 ;;
  int_add totalDays endDay.

(** [days] of the THIRTY_360 case. *)
Definition thirty360Days (d0 d1 : Date) : option Z :=
  let d0_day := day d0 in
  let d1_day := day d1 in
  let d0_day := if (d0_day =? 31)%Z then 30%Z else d0_day in
  let d1_day := if (d1_day =? 31)%Z && (d0_day =? 30)%Z then 30%Z else d1_day in
  years <-? int_sub (year d1) (year d0) ;;
  yearDays <-? int_mul 360 years ;;
  months <-? int_sub (month d1) (month d0) ;;
  monthDays <-? int_mul 30 months ;;
  sum <-? int_add yearDays monthDays ;;
  days <-? int_sub d1_day d0_day ;;
  int_add sum days.

Section YearFraction.
Context {D : Type} {ops : DoubleOps D}.
Local Open Scope double_scope.

(** [None]: the call has undefined behaviour. *)
Definition yearFraction (d0 d1 : Date) (dc : DayCount) : option D :=
  let '(d0, d1) := if laterThan d0 d1 then (d1, d0) else (d0, d1) in
  match dc with
  | ACT_365F => totalDays <-? actualDays d0 d1 ;; Some (dint totalDays / dlit 365)
  | THIRTY_360 => days <-? thirty360Days d0 d1 ;; Some (dint days / dlit 360)
  end.

End YearFraction.

(** * Vocabulary of the properties *)

(** ** Quotes *)

Section QuoteVocabulary.
Context {D : Type} {ops : DoubleOps D}.

Definition quote_valid (q : ZeroQuote D) : Prop :=
  quote_time_invalid q = false /\ quote_df_invalid q = false.

Definition quote_invalid (q : ZeroQuote D) : Prop :=
  quote_time_invalid q = true \/ quote_df_invalid q = true.

End QuoteVocabulary.

(** Order of two real quotes by time. *)
Definition time_le (a b : ZeroQuote R) : Prop := (zq_time a <= zq_time b)%R.
Definition time_lt (a b : ZeroQuote R) : Prop := (zq_time a < zq_time b)%R.

(** A quote in binary64, and a quote over the reals. *)
Definition fq (t d : float) : ZeroQuote float := {| zq_time := t; zq_df := d |}.

Definition rq (t d : R) : ZeroQuote R := {| zq_time := t; zq_df := d |}.

(** The quotes of the spec's scenario C. *)
Definition scenarioC_quotes : list (ZeroQuote R) :=
  [rq (1 / 2) (98 / 100); rq 1 (95 / 100); rq 2 (9 / 10)]%R.

(** ** Sums and discount factors over the reals *)

Definition Rsum (l : list R) : R := fold_right Rplus 0%R l.

(** The discount factor of the spec, per convention. *)
Definition spec_discountFactor (t y : R) (m : Compounding) : R :=
  match m with
  | Continuous => exp (- y * t)
  | _ => Rpower (1 + y / IZR (Compounding_value m)) (- IZR (Compounding_value m) * t)
  end.

(** The discount factor of a flat curve at yield [y]. *)
Definition flat_df (y : R) (m : Compounding) (t : R) : R :=
  if Rle_dec t 0 then 1%R else spec_discountFactor t y m.

(** ** The yield solver *)

Section SolverVocabulary.
Context {D : Type} {ops : DoubleOps D} {lm : Libm D}.
Local Open Scope double_scope.

(** The bracket test fails: all three evaluations succeed and neither
    [f(0)*f(1)] nor [f(0)*f(2)] is found not to exceed 0. *)
Definition notBracketed (b : Bond D) (targetPrice : D) (m : Compounding) : Prop :=
  exists fa fb1 fb2 : D,
    priceDifference b d0 targetPrice m = Ok fa /\
    priceDifference b d1 targetPrice m = Ok fb1 /\
    (fa * fb1 >? d0) = true /\
    priceDifference b d2 targetPrice m = Ok fb2 /\
    (fa * fb2 >? d0) = true.

End SolverVocabulary.

(** The bond's price as a function of the yield. *)
Definition price_of_yield (b : Bond R) (m : Compounding) (y : R) : R :=
  Rsum (map (fun cf => cf_amount cf * flat_df y m (cf_time cf))%R (cfs_ b)).

(** [f(y) = price(y) - targetPrice]. *)
Definition price_gap (b : Bond R) (targetPrice : R) (m : Compounding) (y : R) : R :=
  (price_of_yield b m y - targetPrice)%R.

(** Central difference with the adaptive step. *)
Definition adaptive_step (y : R) : R :=
  Rmax (1 / 100000000) (1 / 1000000 * Rabs y).

Definition central_difference (b : Bond R) (m : Compounding) (y : R) : R :=
  ((price_of_yield b m (y + adaptive_step y) - price_of_yield b m (y - adaptive_step y))
   / (2 * adaptive_step y))%R.

(** One bisection step on a bracket, by the spec's words: halve, keep the lower
    half when the sign changes there, the upper half otherwise. *)
Definition bisect_step (f : R -> R) (ab : R * R) : R * R :=
  let c := ((fst ab + snd ab) / 2)%R in
  if Rlt_dec (f (fst ab) * f c) 0 then (fst ab, c) else (c, snd ab).

(** The midpoint of a bracket. *)
Definition midpoint (ab : R * R) : R := ((fst ab + snd ab) / 2)%R.

(** The Newton loop: when it stops, and how it updates. *)
Definition newton_stop (b : Bond R) (targetPrice : R) (m : Compounding) (y : R) : bool :=
  Rltb (Rabs (price_gap b targetPrice m y)) (1 / 1000000000000)
  || Rltb (Rabs (central_difference b m y)) (1 / 1000000000000000).

Definition newton_update (b : Bond R) (targetPrice : R) (m : Compounding) (y : R) : R :=
  clampYield (y - price_gap b targetPrice m y / central_difference b m y)%R.

(** A <cmath> for runs on [float] of a bond paying once, after one year, under
    annual compounding: [pow] is only called with the exponent -1.0, where it
    is the rounded reciprocal (a C library may differ from it in the last
    bit).  Nothing else is provided. *)
Definition libm_reciprocal : Libm float :=
  {| dexp := fun _ => nan;
     dlog := fun _ => nan;
     dpow := fun x y => if PrimFloat.eqb y (-1)%float then PrimFloat.div 1 x else nan;
     derf := fun _ => nan;
     array_exp := map (fun _ => nan);
     array_exp_length := length_map (fun _ => nan) |}.

(** [Bond(100, 0.0, 1, 1.0)] in binary64. *)
Definition zero_coupon_float : Bond float :=
  {| cfs_ := [ {| cf_time := 1%float; cf_amount := 100%float |} ] |}.

(** A bond with a single payment of 100 after one year
    ([Bond(100, 0.0, 1, 1.0)]). *)
Definition zero_coupon : Bond R :=
  {| cfs_ := [ {| cf_time := 1%R; cf_amount := 100%R |} ] |}.

(** ** Monte Carlo *)

(** Eigen's exponential of an array returns, coefficient by coefficient, what
    [std::exp] returns. *)
Definition array_exp_is_std_exp {D : Type} {lm : Libm D} : Prop :=
  forall xs : list D, array_exp xs = map dexp xs.

(** Every path of a run with [config] is computed with [std::exp]: the array
    branch is off, or no batch has more than one path, or Eigen's exponential
    agrees with [std::exp]. *)
Definition std_exp_only {D : Type} {lm : Libm D} (config : Config) : Prop :=
  enableVectorization config = false \/ batchSize config = 1%Z \/ array_exp_is_std_exp.

Section PathVocabulary.
Context {D : Type} {ops : DoubleOps D} {lm : Libm D} {src : NormalSource D}.
Local Open Scope double_scope.

Variables (F0 K sigma T : D) (tp : OptionType) (antithetic : bool).

(** What one draw adds to the payoff sum. *)
Definition addPath (s z : D) : D :=
  let drift := - dhalf * sigma * sigma * T in
  let s1 := s + payoff (F0 * dexp (drift + sigma * dsqrt T * z)) K tp in
  if antithetic then s1 + payoff (F0 * dexp (drift + sigma * dsqrt T * (- z))) K tp
  else s1.

(** Paths per draw. *)
Definition pathsPerDraw : Z := if antithetic then 2%Z else 1%Z.

(** The state after [n] draws, in closed form. *)
Definition afterDraws (n : nat) (st : SimState) : SimState :=
  {| payoffSum := fold_left addPath (fst (drawNormals n (sim_rng st))) (payoffSum st);
     totalPaths :=
       match n with
       | O => totalPaths st
       | S _ => wrap64 (totalPaths st + pathsPerDraw * Z.of_nat n)
       end;
     sim_rng := snd (drawNormals n (sim_rng st)) |}.

(** Two states after the same draws: the same path count and generator. *)
Definition same_draws (a b : SimState) : Prop :=
  totalPaths a = totalPaths b /\ sim_rng a = sim_rng b.

End PathVocabulary.

(** The scalar per-path loop over all [N] paths, with the generator it leaves. *)
Definition simulateScalar {D : Type} {ops : DoubleOps D} {lm : Libm D}
  {src : NormalSource D} (F0 K sigma T df : D) (tp : OptionType) (N : Z)
  (antithetic : bool) (g : rng) : D * rng :=
  if (T <=? d0)%D then ((df * payoff F0 K tp)%D, g)
  else
    let st :=
      scalarBatch F0 K sigma (- dhalf * sigma * sigma * T)%D (dsqrt T) tp antithetic
                  (Z.to_nat N) {| payoffSum := d0; totalPaths := 0; sim_rng := g |} in
    ((df * (payoffSum st / dsize (totalPaths st)))%D, sim_rng st).

(** A source for the examples: the draws are 0, 1, 2, ... *)
Definition counting_source_R : NormalSource R :=
  {| rng := nat; rng_seed := fun _ => O; rng_normal := fun n => (INR n, S n) |}.

Definition counting_source_float : NormalSource float :=
  {| rng := nat; rng_seed := fun _ => O;
     rng_normal := fun n => (PrimFloat.of_uint63 (Uint63.of_Z (Z.of_nat n)), S n) |}.

(** An Eigen whose exponential is close to [std::exp] but not equal to it:
    over the reals, [exp] with a relative error of 2^-52, about one unit in the
    last place of binary64. *)
Definition libm_inexact_array_exp : Libm R :=
  {| dexp := exp;
     dlog := ln;
     dpow := Rpower;
     derf := erf;
     array_exp := map (fun x => exp x * (1 + / 2 ^ 52))%R;
     array_exp_length := length_map (fun x => exp x * (1 + / 2 ^ 52))%R |}.

(** The configuration of the repository's consistency test with the array
    branch on, and the same with the array branch off. *)
Definition config_array : Config :=
  {| batchSize := 8000; useAntithetic := true; randomSeed := 123;
     enableVectorization := true |}.

Definition config_scalar : Config :=
  {| batchSize := 8000; useAntithetic := true; randomSeed := 123;
     enableVectorization := false |}.

(** ** Monte Carlo statistics *)

Section StatsVocabulary.
Context {D : Type} {ops : DoubleOps D} {lm : Libm D} {src : NormalSource D}.
Local Open Scope double_scope.

Variables (F0 K sigma T : D) (tp : OptionType) (antithetic : bool).

(** The payoffs one draw appends to the payoff vector. *)
Definition pathPayoffs (z : D) : list D :=
  let drift := - dhalf * sigma * sigma * T in
  let p1 := payoff (F0 * dexp (drift + sigma * dsqrt T * z)) K tp in
  if antithetic then [p1; payoff (F0 * dexp (drift + sigma * dsqrt T * (- z))) K tp]
  else [p1].

(** The payoff vector and the generator after [n] draws, in closed form. *)
Definition statsAfterDraws (n : nat) (st : StatsState) : StatsState :=
  (fst st ++ flat_map pathPayoffs (fst (drawNormals n (snd st))),
   snd (drawNormals n (snd st))).

(** Two payoff vectors of the same length, with the same generator. *)
Definition same_shape (a b : StatsState) : Prop :=
  length (fst a) = length (fst b) /\ snd a = snd b.

(** The state of [simulateVectorized] and the state of [mcPriceWithStats] after
    the same batches: the payoff sum is the sum over the payoff vector, from
    the left; the path count is its length, as a [std::size_t]; the generators
    are equal. *)
Definition sim_stats_related (st : SimState) (sst : StatsState) : Prop :=
  payoffSum st = fold_left dadd (fst sst) d0 /\
  totalPaths st = wrap64 (Z.of_nat (length (fst sst))) /\
  sim_rng st = snd sst.

End StatsVocabulary.

(** Mean and mean of squares of a list of reals. *)
Definition Rmean (l : list R) : R := (Rsum l / INR (length l))%R.
Definition Rmean_sq (l : list R) : R := (Rsum (map (fun p => p * p) l) / INR (length l))%R.

(** ** Schedules, bonds and dates *)

(** The inputs [bulletSchedule] rejects. *)
Definition bulletSchedule_rejects {D : Type} {ops : DoubleOps D}
  (face cpnRate : D) (couponPerYear : Z) (maturityYears : D) : bool :=
  disnan face || disinf face || disnan cpnRate || disinf cpnRate
  || disnan maturityYears || disinf maturityYears
  || (maturityYears <=? d0)%D || (couponPerYear <=? 0)%Z || (face <=? d0)%D.

(** The schedule of a 100 face, 5% semi-annual bond of 1.5 years. *)
Definition semiannual_schedule : list (CashFlow R) :=
  [ {| cf_time := 1 / 2; cf_amount := 5 / 2 |};
    {| cf_time := 1; cf_amount := 5 / 2 |};
    {| cf_time := 3 / 2; cf_amount := 205 / 2 |} ]%R.

(** The proleptic Gregorian calendar, for comparison with [actualDays]: the
    number of leap years before year [y], the days of a year before month [m],
    the length of a month, and the number of a day, which grows by one from
    each day to the next. *)
Definition leapsBefore (y : Z) : Z :=
  ((y - 1) / 4 - (y - 1) / 100 + (y - 1) / 400)%Z.

Definition daysBeforeMonth (leap : bool) (m : Z) : Z :=
  (nth (Z.to_nat (m - 1)) [0; 31; 59; 90; 120; 151; 181; 212; 243; 273; 304; 334] 0
   + (if leap && (2 <? m) then 1 else 0))%Z.

Definition monthLength (leap : bool) (m : Z) : Z :=
  if (m =? 2)%Z then (if leap then 29 else 28)%Z
  else if (m =? 4)%Z || (m =? 6)%Z || (m =? 9)%Z || (m =? 11)%Z then 30%Z
  else 31%Z.

Definition dayNumber (d : Date) : Z :=
  (365 * year d + leapsBefore (year d)
   + daysBeforeMonth (isLeapYear (year d)) (month d) + day d)%Z.

Definition validDate (d : Date) : bool :=
  (1 <=? month d)%Z && (month d <=? 12)%Z && (1 <=? day d)%Z
  && (day d <=? monthLength (isLeapYear (year d)) (month d))%Z.

(** * Properties *)

(** ** The real interpretation: literals and comparisons *)

Lemma R_d0 : @d0 R R_ops = 0%R.
Proof. unfold d0. simpl. unfold Q2R. simpl. lra. Qed.

Lemma R_d1 : @d1 R R_ops = 1%R.
Proof. unfold d1. simpl. unfold Q2R. simpl. lra. Qed.

Lemma R_d2 : @d2 R R_ops = 2%R.
Proof. unfold d2. simpl. unfold Q2R. simpl. lra. Qed.

Lemma R_dhalf : @dhalf R R_ops = (1 / 2)%R.
Proof. unfold dhalf. simpl. unfold Q2R. simpl. lra. Qed.

Lemma Rltb_true : forall a b, Rltb a b = true <-> (a < b)%R.
Proof. intros a b. unfold Rltb. destruct (Rlt_dec a b); split; (congruence || tauto). Qed.

Lemma Rltb_false : forall a b, Rltb a b = false <-> (b <= a)%R.
Proof.
  intros a b. unfold Rltb. destruct (Rlt_dec a b); split; intro; try congruence; lra.
Qed.

Lemma Rleb_true : forall a b, Rleb a b = true <-> (a <= b)%R.
Proof. intros a b. unfold Rleb. destruct (Rle_dec a b); split; (congruence || tauto). Qed.

Lemma Rleb_false : forall a b, Rleb a b = false <-> (b < a)%R.
Proof.
  intros a b. unfold Rleb. destruct (Rle_dec a b); split; intro; try congruence; lra.
Qed.

Lemma Reqb_true : forall a b, Reqb a b = true <-> a = b.
Proof. intros a b. unfold Reqb. destruct (Req_dec_T a b); split; (congruence || tauto). Qed.

Lemma Reqb_false : forall a b, Reqb a b = false <-> a <> b.
Proof. intros a b. unfold Reqb. destruct (Req_dec_T a b); split; (congruence || tauto). Qed.

Lemma R_dmax : forall a b : R, dmax a b = Rmax a b.
Proof.
  intros a b. unfold dmax, Rmax. simpl. unfold Rltb.
  destruct (Rlt_dec a b), (Rle_dec a b); lra.
Qed.

(** Rewrites the interface away, leaving expressions over [R]. *)
Ltac to_R :=
  repeat rewrite R_dmax in *;
  cbn [dadd dsub dmul ddiv dneg dabs dsqrt dltb dleb deqb disnan disinf dpi dsize
       dexp dlog dpow derf R_ops R_libm] in *;
  repeat rewrite R_d0 in *; repeat rewrite R_d1 in *;
  repeat rewrite R_d2 in *; repeat rewrite R_dhalf in *.

(** ** Black-76 *)

Lemma normCDF_R : forall x : R,
  normCDF x = (1 / 2 * (1 + erf (x / sqrt 2)))%R.
Proof. intro x. unfold normCDF. to_R. reflexivity. Qed.

Lemma normCDF_symm : forall x : R, (normCDF x + normCDF (- x)%R = 1)%R.
Proof.
  intro x. rewrite !normCDF_R.
  replace (- x / sqrt 2)%R with (- (x / sqrt 2))%R by (unfold Rdiv; ring).
  rewrite erf_odd. lra.
Qed.

Lemma degenerate_test : forall T sigma : R,
  (T <= 0 \/ sigma <= 0)%R -> ((T <=? d0) || (sigma <=? d0))%D = true.
Proof.
  intros T sigma H. to_R. apply orb_true_iff.
  destruct H; [left | right]; apply Rleb_true; assumption.
Qed.

Lemma regular_test : forall T sigma : R,
  (0 < T)%R -> (0 < sigma)%R -> ((T <=? d0) || (sigma <=? d0))%D = false.
Proof.
  intros T sigma HT Hs. to_R. apply orb_false_iff.
  split; apply Rleb_false; assumption.
Qed.

(** C5. The closed-form pricer, for all inputs.  When [T <= 0] or [sigma <= 0]
    the price is [D * max(F - K, 0)] for a call and [D * max(K - F, 0)] for a
    put, vega is 0 and delta is [D] times the indicator of moneyness (1 if
    [F > K] for a call, -1 if [F < K] for a put, else 0); otherwise price, vega
    and delta are the Black-76 expressions in [d1], [d2], the normal CDF built
    on [erf] and the normal density.  First for every interpretation of the
    arithmetic, as the code writes the expressions; then over the reals, where
    [D * 1 = D] and [D * 0 = 0]. *)
Theorem Black76_closed_form :
  (forall (D : Type) (ops : DoubleOps D) (lm : Libm D) (F K T sigma Dc : D),
     (((T <=? d0) || (sigma <=? d0))%D = true ->
        Black76_price F K T sigma Dc true = (Dc * dmax (F - K) d0)%D /\
        Black76_price F K T sigma Dc false = (Dc * dmax (K - F) d0)%D /\
        Black76_vega F K T sigma Dc = d0 /\
        Black76_delta F K T sigma Dc true = (Dc * (if (F >? K)%D then d1 else d0))%D /\
        Black76_delta F K T sigma Dc false
          = (Dc * (if (F <? K)%D then (- d1)%D else d0))%D)
     /\
     (((T <=? d0) || (sigma <=? d0))%D = false ->
        let N := fun x : D => (dhalf * (d1 + derf (x / dsqrt d2)))%D in
        let phi := fun x : D => (d1 / dsqrt (d2 * dpi) * dexp (- dhalf * x * x))%D in
        let x1 := ((dlog (F / K) + dhalf * sigma * sigma * T) / (sigma * dsqrt T))%D in
        let x2 := (x1 - sigma * dsqrt T)%D in
        Black76_price F K T sigma Dc true = (Dc * (F * N x1 - K * N x2))%D /\
        Black76_price F K T sigma Dc false = (Dc * (K * N (- x2) - F * N (- x1)))%D /\
        Black76_vega F K T sigma Dc = (Dc * F * phi x1 * dsqrt T)%D /\
        Black76_delta F K T sigma Dc true = (Dc * N x1)%D /\
        Black76_delta F K T sigma Dc false = (- Dc * N (- x1))%D))
  /\
  (forall F K T sigma Dc : R,
     ((T <= 0 \/ sigma <= 0)%R ->
        Black76_price F K T sigma Dc true = (Dc * Rmax (F - K) 0)%R /\
        Black76_price F K T sigma Dc false = (Dc * Rmax (K - F) 0)%R /\
        Black76_vega F K T sigma Dc = 0%R /\
        Black76_delta F K T sigma Dc true = (if Rlt_dec K F then Dc else 0%R) /\
        Black76_delta F K T sigma Dc false = (if Rlt_dec F K then (- Dc)%R else 0%R))
     /\
     (~ (T <= 0 \/ sigma <= 0)%R ->
        let N := fun x : R => (1 / 2 * (1 + erf (x / sqrt 2)))%R in
        let phi := fun x : R => (1 / sqrt (2 * PI) * exp (- (1 / 2) * x * x))%R in
        let d1 := ((ln (F / K) + 1 / 2 * sigma * sigma * T) / (sigma * sqrt T))%R in
        let d2 := (d1 - sigma * sqrt T)%R in
        Black76_price F K T sigma Dc true = (Dc * (F * N d1 - K * N d2))%R /\
        Black76_price F K T sigma Dc false = (Dc * (K * N (- d2) - F * N (- d1)))%R /\
        Black76_vega F K T sigma Dc = (Dc * F * phi d1 * sqrt T)%R /\
        Black76_delta F K T sigma Dc true = (Dc * N d1)%R /\
        Black76_delta F K T sigma Dc false = (- Dc * N (- d1))%R)).
Proof.
  split.
  - intros D ops lm F K T sigma Dc.
    unfold Black76_price, Black76_vega, Black76_delta.
    split; intro H; rewrite H; cbv zeta; repeat split; reflexivity.
  - intros F K T sigma Dc. split.
    + intro Hdeg.
      unfold Black76_price, Black76_vega, Black76_delta.
      rewrite (degenerate_test Hdeg). unfold dgtb. to_R.
      repeat split; try reflexivity.
      * unfold Rltb. destruct (Rlt_dec K F); ring.
      * unfold Rltb. destruct (Rlt_dec F K); ring.
    + intro Hreg.
      assert (HT : (0 < T)%R) by (destruct (Rle_dec T 0); [exfalso; auto | lra]).
      assert (Hs : (0 < sigma)%R) by (destruct (Rle_dec sigma 0); [exfalso; auto | lra]).
      unfold Black76_price, Black76_vega, Black76_delta.
      rewrite (regular_test HT Hs).
      unfold Black76_d2, Black76_d1, normCDF, normPDF. to_R.
      cbv zeta. repeat split; reflexivity.
Qed.

(** An expired call in the money (the discounted difference, delta [D]) and a
    live one. *)
Lemma Black76_closed_form_witness :
  (Black76_price 3 2 0 (1 / 5) (1 / 2) true = 1 / 2 * Rmax (3 - 2) 0 /\
   Black76_delta 3 2 0 (1 / 5) (1 / 2) true = 1 / 2 /\
   Black76_price 3 2 1 1 (1 / 2) true =
     1 / 2 * (3 * normCDF ((ln (3 / 2) + 1 / 2 * 1 * 1 * 1) / (1 * sqrt 1))
              - 2 * normCDF ((ln (3 / 2) + 1 / 2 * 1 * 1 * 1) / (1 * sqrt 1) - 1 * sqrt 1)))%R.
Proof.
  destruct Black76_closed_form as [_ Hreal].
  destruct (Hreal 3 2 0 (1 / 5) (1 / 2))%R as [Hdeg _].
  destruct (Hdeg ltac:(left; lra)) as (Hc & _ & _ & Hd & _).
  destruct (Hreal 3 2 1 1 (1 / 2))%R as [_ Hreg].
  destruct (Hreg ltac:(intros [H | H]; lra)) as (Hc1 & _).
  split; [exact Hc | split].
  - rewrite Hd. destruct (Rlt_dec 2 3); [reflexivity | lra].
  - rewrite Hc1. rewrite !normCDF_R. reflexivity.
Defined.

(** C9. Put-call parity of the closed-form pricer over the reals: for [T > 0],
    [sigma > 0] and any discount factor (in particular in (0,1]),
    call - put = D * (F - K), because [N x + N (- x) = 1]. *)
Theorem Black76_put_call_parity : forall F K T sigma Dc : R,
  (0 < T)%R -> (0 < sigma)%R ->
  (Black76_price F K T sigma Dc true - Black76_price F K T sigma Dc false
   = Dc * (F - K))%R.
Proof.
  intros F K T sigma Dc HT Hs.
  unfold Black76_price. rewrite (regular_test HT Hs). cbv zeta.
  set (x1 := Black76_d1 F K T sigma). set (x2 := Black76_d2 F K T sigma).
  to_R.
  pose proof (normCDF_symm x1) as H1. pose proof (normCDF_symm x2) as H2.
  replace (normCDF (- x1)%R) with (1 - normCDF x1)%R by lra.
  replace (normCDF (- x2)%R) with (1 - normCDF x2)%R by lra.
  ring.
Qed.

Lemma Black76_put_call_parity_witness :
  (Black76_price (13 / 10) (5 / 4) 1 (1 / 5) (19 / 20) true
   - Black76_price (13 / 10) (5 / 4) 1 (1 / 5) (19 / 20) false
   = 19 / 20 * (13 / 10 - 5 / 4))%R.
Proof.
  apply (@Black76_put_call_parity (13 / 10) (5 / 4) 1 (1 / 5) (19 / 20))%R; lra.
Defined.

(** ** The bootstrapped constructor *)

Section BootGeneric.
Context {D : Type} {ops : DoubleOps D}.

Lemma quote_valid_not_invalid : forall q, quote_valid q -> ~ quote_invalid q.
Proof. intros q [H1 H2] [H | H]; congruence. Qed.

Lemma validate_quotes_Ok : forall qs,
  validate_quotes qs = Ok tt <-> Forall quote_valid qs.
Proof.
  induction qs as [| q rest IH]; simpl.
  - split; auto.
  - destruct (quote_time_invalid q) eqn:Ht; [| destruct (quote_df_invalid q) eqn:Hd].
    + split; [discriminate |]. intro H. inversion H as [| ? ? [H1 _] _]. congruence.
    + split; [discriminate |]. intro H. inversion H as [| ? ? [_ H2] _]. congruence.
    + rewrite IH. split.
      * intro H. constructor; [split; assumption | assumption].
      * intro H. inversion H. assumption.
Qed.

Lemma validate_quotes_Err : forall qs e,
  validate_quotes qs = Err e -> e = InvalidArgument /\ Exists quote_invalid qs.
Proof.
  induction qs as [| q rest IH]; simpl; intros e H.
  - discriminate.
  - destruct (quote_time_invalid q) eqn:Ht; [| destruct (quote_df_invalid q) eqn:Hd].
    + inversion H. split; [reflexivity |]. apply Exists_cons_hd. left. assumption.
    + inversion H. split; [reflexivity |]. apply Exists_cons_hd. right. assumption.
    + destruct (IH e H) as [He Hex]. split; [assumption |]. apply Exists_cons_tl. assumption.
Qed.

Lemma insert_quote_perm : forall q l, Permutation (q :: l) (insert_quote q l).
Proof.
  intros q l. induction l as [| h t IH]; simpl.
  - apply Permutation_refl.
  - destruct (dltb (zq_time h) (zq_time q)).
    + apply perm_trans with (h :: q :: t); [apply perm_swap |].
      apply perm_skip. exact IH.
    + apply Permutation_refl.
Qed.

Lemma sort_quotes_perm : forall qs, Permutation qs (sort_quotes qs).
Proof.
  induction qs as [| q rest IH]; simpl.
  - apply perm_nil.
  - apply perm_trans with (q :: sort_quotes rest).
    + apply perm_skip. exact IH.
    + apply insert_quote_perm.
Qed.

(** What the constructor returns, in one equation. *)
Lemma DiscountCurve_boot_Ok : forall quotes c,
  DiscountCurve_boot quotes = Ok c ->
  quotes <> [] /\ Forall quote_valid quotes /\
  c = {| y_ := d0; m_ := Continuous; dc_ := ACT_365F; boot_ := sort_quotes quotes |}.
Proof.
  intros quotes c H. unfold DiscountCurve_boot in H.
  destruct quotes as [| q rest]; [discriminate |].
  destruct (validate_quotes (q :: rest)) as [[] | e] eqn:Hv; simpl in H; [| discriminate].
  inversion H. split; [discriminate |]. split; [| reflexivity].
  apply validate_quotes_Ok. assumption.
Qed.

Lemma DiscountCurve_boot_Err : forall quotes e,
  DiscountCurve_boot quotes = Err e ->
  e = InvalidArgument /\ (quotes = [] \/ Exists quote_invalid quotes).
Proof.
  intros quotes e H. unfold DiscountCurve_boot in H.
  destruct quotes as [| q rest].
  - inversion H. auto.
  - destruct (validate_quotes (q :: rest)) as [[] | e'] eqn:Hv; simpl in H; [discriminate |].
    inversion H; subst e'. apply validate_quotes_Err in Hv. destruct Hv as [He Hex].
    split; [assumption | right; assumption].
Qed.

Lemma DiscountCurve_boot_fails_iff : forall quotes,
  DiscountCurve_boot quotes = Err InvalidArgument <->
  (quotes = [] \/ Exists quote_invalid quotes).
Proof.
  intro quotes. split.
  - intro H. apply DiscountCurve_boot_Err in H. tauto.
  - intros [H | H].
    + subst. reflexivity.
    + destruct (DiscountCurve_boot quotes) as [c | e] eqn:Hc.
      * apply DiscountCurve_boot_Ok in Hc. destruct Hc as (_ & Hall & _).
        exfalso. apply Exists_exists in H. destruct H as (q & Hin & Hbad).
        rewrite Forall_forall in Hall.
        exact (quote_valid_not_invalid (Hall q Hin) Hbad).
      * apply DiscountCurve_boot_Err in Hc. destruct Hc as [-> _]. reflexivity.
Qed.

End BootGeneric.

Lemma insert_quote_HdRel : forall (q a : ZeroQuote R) l,
  time_le a q -> HdRel time_le a l -> HdRel time_le a (insert_quote q l).
Proof.
  intros q a l Haq Hl. destruct l as [| h t]; simpl.
  - constructor. assumption.
  - inversion Hl; subst. destruct (Rltb (zq_time h) (zq_time q)); constructor; assumption.
Qed.

Lemma insert_quote_Sorted : forall (q : ZeroQuote R) l,
  Sorted time_le l -> Sorted time_le (insert_quote q l).
Proof.
  intros q l Hs. induction Hs as [| h t Hs IH Hhd]; simpl.
  - repeat constructor.
  - destruct (Rltb (zq_time h) (zq_time q)) eqn:Hlt.
    + apply Rltb_true in Hlt. constructor; [exact IH |].
      apply insert_quote_HdRel; [unfold time_le; lra | assumption].
    + apply Rltb_false in Hlt. constructor.
      * constructor; assumption.
      * constructor. exact Hlt.
Qed.

Lemma sort_quotes_Sorted : forall qs : list (ZeroQuote R),
  StronglySorted time_le (sort_quotes qs).
Proof.
  intro qs. apply Sorted_StronglySorted.
  - intros a b c Hab Hbc. unfold time_le in *. lra.
  - induction qs as [| q rest IH]; simpl; [constructor |].
    apply insert_quote_Sorted. exact IH.
Qed.

Lemma StronglySorted_strict : forall l : list (ZeroQuote R),
  StronglySorted time_le l -> NoDup (map (@zq_time R) l) -> StronglySorted time_lt l.
Proof.
  intros l Hs. induction Hs as [| a l Hs IH Hall]; intro Hnd; [constructor |].
  simpl in Hnd. inversion Hnd as [| ? ? Hnotin Hnd']; subst.
  constructor; [apply IH; assumption |].
  rewrite Forall_forall in *. intros b Hb.
  pose proof (Hall b Hb) as Hle. unfold time_le in Hle. unfold time_lt.
  destruct (Req_dec_T (zq_time a) (zq_time b)) as [Heq | Hne]; [| lra].
  exfalso. apply Hnotin. rewrite Heq. apply in_map. assumption.
Qed.

Lemma quote_valid_R : forall q : ZeroQuote R,
  quote_valid q <-> (0 < zq_time q /\ 0 < zq_df q)%R.
Proof.
  intro q. unfold quote_valid, quote_time_invalid, quote_df_invalid. to_R.
  rewrite !orb_false_r.
  rewrite !Rleb_false. tauto.
Qed.

Lemma DiscountCurve_boot_real : forall (quotes : list (ZeroQuote R)) (c : DiscountCurve R),
  DiscountCurve_boot quotes = Ok c ->
  Forall (fun q => 0 < zq_time q /\ 0 < zq_df q)%R (boot_ c) /\
  StronglySorted time_le (boot_ c) /\
  (NoDup (map (@zq_time R) quotes) -> StronglySorted time_lt (boot_ c)).
Proof.
  intros quotes c H. apply DiscountCurve_boot_Ok in H. destruct H as (_ & Hall & ->). simpl.
  split; [| split].
  - eapply Permutation_Forall; [apply sort_quotes_perm |].
    eapply Forall_impl; [| exact Hall]. intros q Hq. apply quote_valid_R. exact Hq.
  - apply sort_quotes_Sorted.
  - intro Hnd. apply StronglySorted_strict; [apply sort_quotes_Sorted |].
    eapply Permutation_NoDup; [| exact Hnd].
    apply Permutation_map. apply sort_quotes_perm.
Qed.

(** The constructor accepts a discount factor above 1 and two quotes with the
    same time: the stored factors are not confined to (0,1] and the stored
    times are not strictly increasing. *)
Lemma DiscountCurve_boot_counterexample :
  exists (c : DiscountCurve float) (q1 q2 : ZeroQuote float),
    DiscountCurve_boot [fq 1 1.5; fq 1 0.75] = Ok c /\
    boot_ c = [q1; q2] /\
    PrimFloat.leb (zq_df q1) 1 = false /\
    PrimFloat.ltb (zq_time q1) (zq_time q2) = false.
Proof.
  exists {| y_ := 0%float; m_ := Continuous; dc_ := ACT_365F;
            boot_ := [fq 1 1.5; fq 1 0.75] |}, (fq 1 1.5), (fq 1 0.75).
  repeat split; vm_compute; reflexivity.
Qed.

(** C7, as the code has it.  For every interpretation of the arithmetic:
    construction fails, with InvalidArgument, exactly when the sequence is empty
    or some quote has a non-positive, NaN or infinite time or discount factor;
    on success the stored quotes are the input quotes, reordered, and each has
    passed both checks.  Over the reals: every stored quote has time > 0 and
    discount factor > 0 (no upper bound), the stored times are non-decreasing,
    and strictly increasing when the input times are pairwise distinct. *)
Theorem DiscountCurve_boot_spec :
  (forall (D : Type) (ops : DoubleOps D) (quotes : list (ZeroQuote D)),
     (DiscountCurve_boot quotes = Err InvalidArgument <->
      (quotes = [] \/
       Exists (fun q =>
                 ((zq_time q <=? d0)%D || disnan (zq_time q) || disinf (zq_time q)) = true \/
                 ((zq_df q <=? d0)%D || disnan (zq_df q) || disinf (zq_df q)) = true)
              quotes)) /\
     DiscountCurve_boot quotes <> Err RootNotBracketed /\
     (forall c, DiscountCurve_boot quotes = Ok c ->
        Permutation quotes (boot_ c) /\
        Forall (fun q =>
                  ((zq_time q <=? d0)%D || disnan (zq_time q) || disinf (zq_time q)) = false /\
                  ((zq_df q <=? d0)%D || disnan (zq_df q) || disinf (zq_df q)) = false)
               (boot_ c)))
  /\
  (forall (quotes : list (ZeroQuote R)) (c : DiscountCurve R),
     DiscountCurve_boot quotes = Ok c ->
     Forall (fun q => 0 < zq_time q /\ 0 < zq_df q)%R (boot_ c) /\
     StronglySorted (fun a b => zq_time a <= zq_time b)%R (boot_ c) /\
     (NoDup (map (@zq_time R) quotes) ->
      StronglySorted (fun a b => zq_time a < zq_time b)%R (boot_ c))).
Proof.
  split.
  - intros D ops quotes. split; [| split].
    + apply DiscountCurve_boot_fails_iff.
    + intro H. apply DiscountCurve_boot_Err in H. destruct H as [H _]. discriminate.
    + intros c H. apply DiscountCurve_boot_Ok in H. destruct H as (_ & Hall & ->). simpl.
      split; [apply sort_quotes_perm |].
      eapply Permutation_Forall; [apply sort_quotes_perm | exact Hall].
  - apply DiscountCurve_boot_real.
Qed.

(** Two quotes given out of order are stored in order. *)
Lemma DiscountCurve_boot_spec_witness :
  Permutation [fq 2 0.5; fq 1 0.75] [fq 1 0.75; fq 2 0.5] /\
  Forall (fun q =>
            (PrimFloat.leb (zq_time q) 0 || PrimFloat.is_nan (zq_time q)
             || PrimFloat.is_infinity (zq_time q)) = false /\
            (PrimFloat.leb (zq_df q) 0 || PrimFloat.is_nan (zq_df q)
             || PrimFloat.is_infinity (zq_df q)) = false)
         [fq 1 0.75; fq 2 0.5].
Proof.
  destruct DiscountCurve_boot_spec as [Hgen _].
  destruct (Hgen float float_ops [fq 2 0.5; fq 1 0.75]) as (_ & _ & Hok).
  exact (Hok {| y_ := 0%float; m_ := Continuous; dc_ := ACT_365F;
                boot_ := [fq 1 0.75; fq 2 0.5] |} eq_refl).
Defined.

(** ** Discount factors *)

Section DfGeneric.
Context {D : Type} {ops : DoubleOps D} {lm : Libm D}.
Local Open Scope double_scope.

Ltac case_ifs :=
  repeat match goal with
         | |- context [if ?b then _ else _] => destruct b
         end.

(** The only failure of [df] is the finiteness check on [t]. *)
Lemma DiscountCurve_df_Err : forall (c : DiscountCurve D) t e,
  DiscountCurve_df c t = Err e <->
  (e = InvalidArgument /\ (disnan t || disinf t) = true).
Proof.
  intros c t e. unfold DiscountCurve_df.
  destruct (disnan t || disinf t).
  - split.
    + intro H. inversion H. auto.
    + intros [-> _]. reflexivity.
  - split.
    + destruct (boot_ c); cbv zeta; case_ifs; discriminate.
    + intros [_ H]. discriminate.
Qed.

Lemma DiscountCurve_df_nonpositive : forall (c : DiscountCurve D) t,
  (disnan t || disinf t) = false -> (t <=? d0) = true ->
  DiscountCurve_df c t = Ok d1.
Proof.
  intros c t Hfin Hle. unfold DiscountCurve_df. rewrite Hfin.
  destruct (boot_ c); rewrite Hle; reflexivity.
Qed.

Lemma DiscountCurve_df_flat_continuous : forall y dc t,
  (disnan t || disinf t) = false -> (t <=? d0) = false ->
  DiscountCurve_df {| y_ := y; m_ := Continuous; dc_ := dc; boot_ := [] |} t
  = Ok (dexp (- y * t)).
Proof.
  intros y dc t Hfin Hle. unfold DiscountCurve_df. simpl.
  rewrite Hfin, Hle. reflexivity.
Qed.

Lemma DiscountCurve_df_flat_discrete : forall y m dc t,
  m <> Continuous -> (dsize (Compounding_value m) ==? d0) = false ->
  (disnan t || disinf t) = false -> (t <=? d0) = false ->
  DiscountCurve_df {| y_ := y; m_ := m; dc_ := dc; boot_ := [] |} t
  = Ok (dpow (d1 + y / dsize (Compounding_value m)) (- dsize (Compounding_value m) * t)).
Proof.
  intros y m dc t Hm Hz Hfin Hle. unfold DiscountCurve_df. simpl.
  rewrite Hfin, Hle.
  destruct m; try congruence; simpl in *; rewrite Hz; reflexivity.
Qed.

(** [lower_bound] on a list whose first quote is not below [t]. *)
Lemma lower_bound_head : forall q (l : list (ZeroQuote D)) t,
  (zq_time q <? t) = false -> lower_bound (q :: l) t = O.
Proof. intros q l t H. simpl. rewrite H. reflexivity. Qed.

Lemma lower_bound_app_below : forall (l1 l2 : list (ZeroQuote D)) t,
  Forall (fun q => (zq_time q <? t) = true) l1 ->
  lower_bound (l1 ++ l2) t = (length l1 + lower_bound l2 t)%nat.
Proof.
  intros l1 l2 t H. induction H as [| q l Hq Hl IH]; simpl.
  - reflexivity.
  - rewrite Hq, IH. reflexivity.
Qed.

End DfGeneric.

(** Over the reals. *)

Lemma StronglySorted_app_below : forall (l1 : list (ZeroQuote R)) qa l2 t,
  StronglySorted time_le (l1 ++ qa :: l2) -> (zq_time qa < t)%R ->
  Forall (fun q => dltb (zq_time q) t = true) (l1 ++ [qa]).
Proof.
  intros l1 qa l2 t Hs Hlt.
  apply Forall_app. split.
  - induction l1 as [| h tl IH]; [constructor |].
    simpl in Hs. inversion Hs as [| ? ? Hs' Hall]; subst.
    constructor; [| apply IH; assumption].
    rewrite Forall_forall in Hall.
    assert (Hin : In qa (tl ++ qa :: l2)) by (apply in_or_app; right; left; reflexivity).
    specialize (Hall qa Hin). unfold time_le in Hall.
    simpl. apply Rltb_true. lra.
  - constructor; [| constructor]. simpl. apply Rltb_true. assumption.
Qed.

(** Where the code interpolates, and what it returns there. *)
Lemma DiscountCurve_df_between : forall (c : DiscountCurve R) l1 qa qb l2 t,
  boot_ c = l1 ++ qa :: qb :: l2 ->
  StronglySorted time_le (boot_ c) ->
  (0 < zq_df qa)%R -> (0 < zq_df qb)%R ->
  (0 < t)%R -> (zq_time qa < t <= zq_time qb)%R ->
  DiscountCurve_df c t =
  Ok (exp (ln (zq_df qa) +
           (t - zq_time qa) / (zq_time qb - zq_time qa) * (ln (zq_df qb) - ln (zq_df qa))))%R.
Proof.
  intros c l1 qa qb l2 t Hboot Hs Ha Hb Ht [Hlo Hhi].
  unfold DiscountCurve_df. change (disnan t || disinf t) with false. cbv iota.
  rewrite Hboot in *.
  destruct (l1 ++ qa :: qb :: l2) as [| q0 rest] eqn:Hl.
  { destruct l1; discriminate. }
  assert (Hle0 : dleb t d0 = false) by (to_R; apply Rleb_false; assumption).
  rewrite Hle0. cbv zeta. rewrite <- Hl in *.
  assert (Hlb : lower_bound (l1 ++ qa :: qb :: l2) t = S (length l1)).
  { replace (l1 ++ qa :: qb :: l2) with ((l1 ++ [qa]) ++ qb :: l2)
      by (rewrite <- app_assoc; reflexivity).
    rewrite lower_bound_app_below
      by (eapply StronglySorted_app_below; eassumption).
    rewrite lower_bound_head by (simpl; apply Rltb_false; lra).
    rewrite length_app. simpl. lia. }
  rewrite Hlb.
  replace (Nat.eqb (S (length l1)) 0) with false by reflexivity.
  replace (Nat.eqb (S (length l1)) (length (l1 ++ qa :: qb :: l2))) with false
    by (symmetry; apply Nat.eqb_neq; rewrite length_app; simpl; lia).
  replace (S (length l1) - 1)%nat with (length l1) by lia.
  assert (Hprev : nth (length l1) (l1 ++ qa :: qb :: l2) q0 = qa)
    by (rewrite app_nth2 by lia; rewrite Nat.sub_diag; reflexivity).
  assert (Hcur : nth (S (length l1)) (l1 ++ qa :: qb :: l2) q0 = qb).
  { rewrite app_nth2 by lia.
    replace (S (length l1) - length l1)%nat with 1%nat by lia. reflexivity. }
  rewrite Hprev, Hcur.
  assert (H0a : dleb (zq_df qa) d0 = false) by (to_R; apply Rleb_false; assumption).
  assert (H0b : dleb (zq_df qb) d0 = false) by (to_R; apply Rleb_false; assumption).
  rewrite H0a, H0b. simpl orb. cbv iota.
  assert (Hne : deqb (zq_time qb) (zq_time qa) = false) by (simpl; apply Reqb_false; lra).
  rewrite Hne. reflexivity.
Qed.

Lemma DiscountCurve_df_first : forall (c : DiscountCurve R) q0 rest t,
  boot_ c = q0 :: rest -> (0 < t <= zq_time q0)%R ->
  DiscountCurve_df c t = Ok (zq_df q0).
Proof.
  intros c q0 rest t Hboot [Ht Hle].
  unfold DiscountCurve_df. change (disnan t || disinf t) with false. cbv iota.
  rewrite Hboot.
  assert (Hle0 : dleb t d0 = false) by (to_R; apply Rleb_false; assumption).
  rewrite Hle0. cbv zeta.
  rewrite lower_bound_head by (simpl; apply Rltb_false; lra).
  reflexivity.
Qed.

Lemma DiscountCurve_df_beyond : forall (c : DiscountCurve R) l ql t,
  boot_ c = l ++ [ql] -> StronglySorted time_le (boot_ c) ->
  (0 < t)%R -> (zq_time ql < t)%R ->
  DiscountCurve_df c t = Ok (zq_df ql).
Proof.
  intros c l ql t Hboot Hs Ht Hlt.
  unfold DiscountCurve_df. change (disnan t || disinf t) with false. cbv iota.
  rewrite Hboot in *.
  destruct (l ++ [ql]) as [| q0 rest] eqn:Hl.
  { destruct l; discriminate. }
  assert (Hle0 : dleb t d0 = false) by (to_R; apply Rleb_false; assumption).
  rewrite Hle0. cbv zeta. rewrite <- Hl in *.
  assert (Hlb : lower_bound (l ++ [ql]) t = length (l ++ [ql])).
  { rewrite <- (app_nil_r (l ++ [ql])) at 1.
    rewrite lower_bound_app_below
      by (eapply StronglySorted_app_below; eassumption).
    simpl. lia. }
  rewrite Hlb. rewrite Nat.eqb_refl.
  replace (Nat.eqb (length (l ++ [ql])) 0) with false
    by (symmetry; apply Nat.eqb_neq; rewrite length_app; simpl; lia).
  rewrite last_last. reflexivity.
Qed.

Lemma StronglySorted_lt_le : forall l : list (ZeroQuote R),
  StronglySorted time_lt l -> StronglySorted time_le l.
Proof.
  intros l H. induction H as [| a l Hs IH Hall]; constructor; [assumption |].
  eapply Forall_impl; [| exact Hall]. intros b Hb. unfold time_lt, time_le in *. lra.
Qed.

Lemma StronglySorted_lt_last_two : forall (l : list (ZeroQuote R)) qa ql,
  StronglySorted time_lt (l ++ [qa; ql]) -> (zq_time qa < zq_time ql)%R.
Proof.
  induction l as [| h tl IH]; intros qa ql Hs.
  - simpl in Hs. inversion Hs as [| ? ? _ Hall]; subst.
    inversion Hall; subst. assumption.
  - simpl in Hs. inversion Hs; subst. apply IH. assumption.
Qed.

Lemma DiscountCurve_df_last : forall (c : DiscountCurve R) l ql,
  boot_ c = l ++ [ql] -> StronglySorted time_lt (boot_ c) ->
  Forall (fun q => 0 < zq_time q /\ 0 < zq_df q)%R (boot_ c) ->
  DiscountCurve_df c (zq_time ql) = Ok (zq_df ql).
Proof.
  intros c l ql Hboot Hs Hpos.
  assert (Hql : (0 < zq_time ql /\ 0 < zq_df ql)%R).
  { rewrite Forall_forall in Hpos. apply Hpos. rewrite Hboot.
    apply in_or_app. right. left. reflexivity. }
  induction l as [| qa l' _] using rev_ind.
  - eapply DiscountCurve_df_first; [exact Hboot | lra].
  - rewrite <- app_assoc in Hboot. simpl in Hboot.
    assert (Hqa : (0 < zq_time qa /\ 0 < zq_df qa)%R).
    { rewrite Forall_forall in Hpos. apply Hpos. rewrite Hboot.
      apply in_or_app. right. left. reflexivity. }
    assert (Hlt : (zq_time qa < zq_time ql)%R).
    { rewrite Hboot in Hs. eapply StronglySorted_lt_last_two. exact Hs. }
    rewrite (@DiscountCurve_df_between c l' qa ql [] (zq_time ql)); try tauto; try lra.
    + f_equal.
      replace ((zq_time ql - zq_time qa) / (zq_time ql - zq_time qa))%R with 1%R
        by (field; lra).
      replace (ln (zq_df qa) + 1 * (ln (zq_df ql) - ln (zq_df qa)))%R
        with (ln (zq_df ql)) by ring.
      apply exp_ln. tauto.
    + apply StronglySorted_lt_le. assumption.
Qed.

Lemma DiscountCurve_df_flat_real : forall (y : R) (m : Compounding) (dc : DayCount) (t : R),
  (0 < t)%R ->
  DiscountCurve_df {| y_ := y; m_ := m; dc_ := dc; boot_ := [] |} t =
  Ok (if is_Continuous m then exp (- y * t)
      else Rpower (1 + y / IZR (Compounding_value m))
                  (- IZR (Compounding_value m) * t))%R.
Proof.
  intros y m dc t Ht.
  assert (Hle : dleb t d0 = false) by (to_R; apply Rleb_false; assumption).
  destruct m; simpl is_Continuous; cbv iota;
    try (rewrite DiscountCurve_df_flat_discrete;
         [to_R; reflexivity | discriminate | to_R; apply Reqb_false; simpl; lra
         | reflexivity | assumption]).
  rewrite DiscountCurve_df_flat_continuous; [reflexivity | reflexivity | assumption].
Qed.

Ltac decide_Rltb :=
  repeat match goal with
         | |- context [Rltb ?a ?b] =>
             first [ rewrite (proj2 (Rltb_true a b)) by lra
                   | rewrite (proj2 (Rltb_false a b)) by lra ]
         end.

Lemma scenarioC_boot :
  DiscountCurve_boot scenarioC_quotes =
  Ok {| y_ := d0; m_ := Continuous; dc_ := ACT_365F; boot_ := scenarioC_quotes |}.
Proof.
  unfold DiscountCurve_boot, scenarioC_quotes.
  assert (Hv : validate_quotes [rq (1 / 2) (98 / 100); rq 1 (95 / 100); rq 2 (9 / 10)]%R
               = Ok tt).
  { apply validate_quotes_Ok. repeat constructor; apply quote_valid_R; simpl; lra. }
  rewrite Hv. simpl bind. f_equal. f_equal.
  unfold sort_quotes.
  repeat (cbn [fold_right insert_quote zq_time rq dltb R_ops]; decide_Rltb).
  reflexivity.
Qed.

Lemma scenarioC_value :
  let v := exp (1 / 2 * (ln (95 / 100) + ln (9 / 10)))%R in
  (v * v = 855 / 1000 /\ 0 < v)%R.
Proof.
  intro v. split; [| apply exp_pos].
  unfold v. rewrite <- exp_plus.
  replace (1 / 2 * (ln (95 / 100) + ln (9 / 10)) + 1 / 2 * (ln (95 / 100) + ln (9 / 10)))%R
    with (ln (95 / 100) + ln (9 / 10))%R by lra.
  rewrite exp_plus, !exp_ln by lra. lra.
Qed.

(** Two quotes at the last time, stored in the order [a], [b]: the constructor
    accepts them, [df] at the last time is [a], the factor of the first of the
    two, and beyond the last time it is [b], the factor of the last stored
    quote. *)
Lemma DiscountCurve_df_tied : forall a b : R,
  (0 < a)%R -> (0 < b)%R ->
  let c := {| y_ := d0; m_ := Continuous; dc_ := ACT_365F;
              boot_ := [rq 1 (9 / 10); rq 2 a; rq 2 b]%R |} in
  DiscountCurve_boot [rq 1 (9 / 10); rq 2 a; rq 2 b]%R = Ok c /\
  DiscountCurve_df c 2%R = Ok a /\
  DiscountCurve_df c 3%R = Ok b.
Proof.
  intros a b Ha Hb c.
  assert (Hs : StronglySorted time_le (boot_ c))
    by (repeat constructor; unfold time_le; simpl; lra).
  split; [| split].
  - unfold DiscountCurve_boot.
    assert (Hv : validate_quotes [rq 1 (9 / 10); rq 2 a; rq 2 b]%R = Ok tt).
    { apply validate_quotes_Ok. repeat constructor; apply quote_valid_R; simpl; lra. }
    rewrite Hv. simpl bind. unfold c. f_equal. f_equal.
    unfold sort_quotes.
    repeat (cbn [fold_right insert_quote zq_time rq dltb R_ops]; decide_Rltb).
    reflexivity.
  - rewrite (@DiscountCurve_df_between c [] (rq 1 (9 / 10))%R (rq 2 a) [rq 2 b] 2%R);
      try reflexivity; try assumption; simpl; try lra.
    f_equal.
    replace (ln (9 / 10) + (2 - 1) / (2 - 1) * (ln a - ln (9 / 10)))%R with (ln a)
      by (field; lra).
    apply exp_ln. assumption.
  - apply (@DiscountCurve_df_beyond c [rq 1 (9 / 10); rq 2 a]%R (rq 2 b) 3%R);
      try reflexivity; try assumption; simpl; lra.
Qed.

(** With two quotes at the last time, [df] at the last time and [df] beyond
    it differ, in whichever order the two are stored: at the last time the
    result is not the factor of the last stored quote. *)
Lemma DiscountCurve_df_counterexample :
  (DiscountCurve_boot [rq 1 (9 / 10); rq 2 (8 / 10); rq 2 (7 / 10)]%R
   = Ok {| y_ := d0; m_ := Continuous; dc_ := ACT_365F;
           boot_ := [rq 1 (9 / 10); rq 2 (8 / 10); rq 2 (7 / 10)]%R |} /\
   DiscountCurve_df {| y_ := d0; m_ := Continuous; dc_ := ACT_365F;
                       boot_ := [rq 1 (9 / 10); rq 2 (8 / 10); rq 2 (7 / 10)]%R |} 2%R
   = Ok (8 / 10)%R /\
   DiscountCurve_df {| y_ := d0; m_ := Continuous; dc_ := ACT_365F;
                       boot_ := [rq 1 (9 / 10); rq 2 (8 / 10); rq 2 (7 / 10)]%R |} 3%R
   = Ok (7 / 10)%R) /\
  (DiscountCurve_boot [rq 1 (9 / 10); rq 2 (7 / 10); rq 2 (8 / 10)]%R
   = Ok {| y_ := d0; m_ := Continuous; dc_ := ACT_365F;
           boot_ := [rq 1 (9 / 10); rq 2 (7 / 10); rq 2 (8 / 10)]%R |} /\
   DiscountCurve_df {| y_ := d0; m_ := Continuous; dc_ := ACT_365F;
                       boot_ := [rq 1 (9 / 10); rq 2 (7 / 10); rq 2 (8 / 10)]%R |} 2%R
   = Ok (7 / 10)%R /\
   DiscountCurve_df {| y_ := d0; m_ := Continuous; dc_ := ACT_365F;
                       boot_ := [rq 1 (9 / 10); rq 2 (7 / 10); rq 2 (8 / 10)]%R |} 3%R
   = Ok (8 / 10)%R).
Proof.
  split.
  - apply (@DiscountCurve_df_tied (8 / 10) (7 / 10))%R; lra.
  - apply (@DiscountCurve_df_tied (7 / 10) (8 / 10))%R; lra.
Qed.

(** C2, as the code has it.  [df(t)] fails, with InvalidArgument, exactly when
    [t] is NaN or infinite, and a finite [t <= 0] gives 1.0 (for every
    interpretation of the arithmetic).  For [t > 0]: a flat curve gives
    [exp(-y*t)] under Continuous compounding and [(1 + y/m)^(-m*t)] under a
    discrete convention with [m] periods; a bootstrapped curve gives the first
    quote's factor at or below the first quote time, the last quote's factor
    above the last quote time, and also at the last quote time when the quote
    times are pairwise distinct, and between adjacent quotes the log-linear
    interpolation.  The quotes (0.5,0.98), (1,0.95), (2,0.90) give
    [df(1.5) = exp(0.5*(ln 0.95 + ln 0.90))], about 0.92466 and not 0.925.  The
    bootstrapped part is over the reals. *)
Theorem DiscountCurve_df_spec :
  (forall (D : Type) (ops : DoubleOps D) (lm : Libm D) (c : DiscountCurve D) (t : D),
     (DiscountCurve_df c t = Err InvalidArgument <-> (disnan t || disinf t) = true) /\
     DiscountCurve_df c t <> Err RootNotBracketed /\
     ((disnan t || disinf t) = false -> (t <=? d0)%D = true ->
      DiscountCurve_df c t = Ok d1))
  /\
  (forall (D : Type) (ops : DoubleOps D) (lm : Libm D) (y : D) (m : Compounding)
          (dc : DayCount) (c : DiscountCurve D) (t : D),
     DiscountCurve_flat y m dc = Ok c ->
     (disnan t || disinf t) = false -> (t <=? d0)%D = false ->
     (m = Continuous -> DiscountCurve_df c t = Ok (dexp (- y * t)%D)) /\
     (m <> Continuous -> (dsize (Compounding_value m) ==? d0)%D = false ->
      DiscountCurve_df c t =
      Ok (dpow (d1 + y / dsize (Compounding_value m))%D
               (- dsize (Compounding_value m) * t)%D)))
  /\
  (forall (lm : Libm float) (y : float) (m : Compounding) (dc : DayCount)
          (c : DiscountCurve float) (t : float),
     DiscountCurve_flat y m dc = Ok c -> m <> Continuous ->
     (PrimFloat.is_nan t || PrimFloat.is_infinity t) = false -> PrimFloat.leb t 0 = false ->
     DiscountCurve_df c t =
     Ok (dpow (PrimFloat.add 1 (PrimFloat.div y (float_size (Compounding_value m))))
              (PrimFloat.mul (PrimFloat.opp (float_size (Compounding_value m))) t)))
  /\
  (forall (y : R) (m : Compounding) (dc : DayCount) (c : DiscountCurve R) (t : R),
     DiscountCurve_flat y m dc = Ok c -> (0 < t)%R ->
     DiscountCurve_df c t =
     Ok (if is_Continuous m then exp (- y * t)
         else Rpower (1 + y / IZR (Compounding_value m))
                     (- IZR (Compounding_value m) * t))%R)
  /\
  (forall (quotes : list (ZeroQuote R)) (c : DiscountCurve R) (t : R),
     DiscountCurve_boot quotes = Ok c -> (0 < t)%R ->
     (forall q0 rest, boot_ c = q0 :: rest -> (t <= zq_time q0)%R ->
        DiscountCurve_df c t = Ok (zq_df q0)) /\
     (forall l ql, boot_ c = l ++ [ql] ->
        (zq_time ql < t \/ (zq_time ql = t /\ NoDup (map (@zq_time R) quotes)))%R ->
        DiscountCurve_df c t = Ok (zq_df ql)) /\
     (forall l1 qa qb l2, boot_ c = l1 ++ qa :: qb :: l2 ->
        (zq_time qa < t < zq_time qb)%R ->
        DiscountCurve_df c t =
        Ok (exp (ln (zq_df qa) +
                 (t - zq_time qa) / (zq_time qb - zq_time qa)
                 * (ln (zq_df qb) - ln (zq_df qa))))%R))
  /\
  (exists c : DiscountCurve R,
     DiscountCurve_boot scenarioC_quotes = Ok c /\
     DiscountCurve_df c (3 / 2)%R = Ok (exp (1 / 2 * (ln (95 / 100) + ln (9 / 10))))%R /\
     (92466 / 100000 < exp (1 / 2 * (ln (95 / 100) + ln (9 / 10))) < 92467 / 100000)%R).
Proof.
  split; [| split; [| split; [| split; [| split]]]].
  - intros D ops lm c t. split; [| split].
    + rewrite DiscountCurve_df_Err. tauto.
    + intro H. apply DiscountCurve_df_Err in H. destruct H as [H _]. discriminate.
    + apply DiscountCurve_df_nonpositive.
  - intros D ops lm y m dc c t Hc Hfin Hle.
    unfold DiscountCurve_flat in Hc.
    destruct (disnan y || disinf y); [discriminate |]. inversion Hc; subst c.
    split.
    + intros ->. apply DiscountCurve_df_flat_continuous; assumption.
    + intros Hm Hz. apply DiscountCurve_df_flat_discrete; assumption.
  - intros lm y m dc c t Hc Hm Hfin Hle.
    unfold DiscountCurve_flat in Hc.
    destruct (disnan y || disinf y); [discriminate |]. inversion Hc; subst c.
    rewrite DiscountCurve_df_flat_discrete; try assumption.
    + destruct m; try congruence; reflexivity.
    + destruct m; try congruence; vm_compute; reflexivity.
  - intros y m dc c t Hc Ht.
    unfold DiscountCurve_flat in Hc. simpl in Hc. inversion Hc; subst c.
    apply DiscountCurve_df_flat_real. assumption.
  - intros quotes c t Hc Ht.
    destruct (@DiscountCurve_boot_real quotes c Hc) as (Hpos & Hsorted & Hstrict).
    split; [| split].
    + intros q0 rest Hboot Hle. eapply DiscountCurve_df_first; [exact Hboot | lra].
    + intros l ql Hboot [Hlt | [Heq Hnd]].
      * eapply DiscountCurve_df_beyond; eassumption.
      * subst t. eapply DiscountCurve_df_last; [exact Hboot | auto | exact Hpos].
    + intros l1 qa qb l2 Hboot [Hlo Hhi].
      assert (Hin : forall q, In q [qa; qb] -> In q (boot_ c)).
      { intros q Hq. rewrite Hboot. apply in_or_app. right.
        destruct Hq as [<- | [<- | []]]; simpl; auto. }
      rewrite Forall_forall in Hpos.
      eapply DiscountCurve_df_between; try eassumption.
      * apply (Hpos qa). apply Hin. simpl. auto.
      * apply (Hpos qb). apply Hin. simpl. auto.
      * lra.
  - eexists. split; [apply scenarioC_boot |]. split.
    + rewrite (@DiscountCurve_df_between _ [rq (1 / 2) (98 / 100)]%R
                 (rq 1 (95 / 100))%R (rq 2 (9 / 10))%R [] (3 / 2)%R);
        try reflexivity; simpl; try lra.
      * f_equal. f_equal. lra.
      * apply sort_quotes_Sorted
          || (repeat constructor; unfold time_le; simpl; lra).
    + destruct scenarioC_value as [Hsq Hpos].
      set (v := exp (1 / 2 * (ln (95 / 100) + ln (9 / 10)))%R) in *.
      split; nra.
Qed.

(** Scenario B of the spec (flat 5% curve, annual compounding) and a
    non-positive time. *)
Lemma DiscountCurve_df_spec_witness :
  (DiscountCurve_df {| y_ := 5 / 100; m_ := Annual; dc_ := ACT_365F; boot_ := [] |} (- 1)
   = Ok d1 /\
   DiscountCurve_df {| y_ := 5 / 100; m_ := Annual; dc_ := ACT_365F; boot_ := [] |} 1
   = Ok (Rpower (1 + 5 / 100 / 1) (- 1 * 1)))%R.
Proof.
  destruct DiscountCurve_df_spec as (Hgen & _ & _ & Hflat & _).
  split.
  - destruct (Hgen R R_ops R_libm
                {| y_ := 5 / 100; m_ := Annual; dc_ := ACT_365F; boot_ := [] |}%R (- 1)%R)
      as (_ & _ & Hnp).
    apply Hnp; [reflexivity |]. to_R. apply Rleb_true. lra.
  - apply (Hflat (5 / 100)%R Annual ACT_365F); [reflexivity | lra].
Defined.

(** ** Sensitivities *)

Lemma fold_left_Rsum : forall (A : Type) (f : A -> R) (l : list A) (a : R),
  fold_left (fun acc x => (acc + f x)%R) l a = (a + Rsum (map f l))%R.
Proof.
  intros A f l. induction l as [| x l IH]; intro a; simpl.
  - lra.
  - rewrite IH. lra.
Qed.

Lemma discountFactor_R : forall t y m,
  discountFactor t y m = spec_discountFactor t y m.
Proof.
  intros t y m. unfold discountFactor, spec_discountFactor.
  destruct m; cbn [is_Continuous]; to_R; reflexivity.
Qed.

(** C8. For every interpretation of the arithmetic: the price is the sum, taken
    in sequence order from 0.0, of amount * df(time, y, convention) with df the
    per-convention formula; modified duration and convexity are 0 when the
    price compares equal to 0 and otherwise -priceDelta/price and
    priceGamma/price; dv01 is -priceDelta * 0.0001.  Over the reals the price
    is the sum of amount * df and the ratios are as stated. *)
Theorem Sensitivity_spec :
  (forall (D : Type) (ops : DoubleOps D) (lm : Libm D)
          (cashFlows : list (CashFlow D)) (cf : CashFlow D) (y : D) (m : Compounding),
     Sensitivity_price [] y m = d0 /\
     Sensitivity_price (cashFlows ++ [cf]) y m
       = (Sensitivity_price cashFlows y m
          + cf_amount cf * discountFactor (cf_time cf) y m)%D /\
     discountFactor (cf_time cf) y Continuous = dexp (- y * cf_time cf)%D /\
     (m <> Continuous ->
      discountFactor (cf_time cf) y m
        = dpow (d1 + y / dsize (Compounding_value m))%D
               (- dsize (Compounding_value m) * cf_time cf)%D) /\
     ((Sensitivity_price cashFlows y m ==? d0)%D = true ->
      modifiedDuration cashFlows y m = d0 /\ convexity cashFlows y m = d0) /\
     ((Sensitivity_price cashFlows y m ==? d0)%D = false ->
      modifiedDuration cashFlows y m
        = (- priceDelta cashFlows y m / Sensitivity_price cashFlows y m)%D /\
      convexity cashFlows y m
        = (priceGamma cashFlows y m / Sensitivity_price cashFlows y m)%D) /\
     dv01 cashFlows y m = (- priceDelta cashFlows y m * dlit (1 # 10000))%D)
  /\
  (forall (cashFlows : list (CashFlow R)) (y : R) (m : Compounding),
     Sensitivity_price cashFlows y m
       = Rsum (map (fun cf => cf_amount cf * spec_discountFactor (cf_time cf) y m)%R
                   cashFlows) /\
     (Sensitivity_price cashFlows y m = 0%R ->
      modifiedDuration cashFlows y m = 0%R /\ convexity cashFlows y m = 0%R) /\
     (Sensitivity_price cashFlows y m <> 0%R ->
      modifiedDuration cashFlows y m
        = (- priceDelta cashFlows y m / Sensitivity_price cashFlows y m)%R /\
      convexity cashFlows y m
        = (priceGamma cashFlows y m / Sensitivity_price cashFlows y m)%R) /\
     dv01 cashFlows y m = (- priceDelta cashFlows y m * (1 / 10000))%R).
Proof.
  split.
  - intros D ops lm cashFlows cf y m.
    split; [reflexivity |].
    split; [unfold Sensitivity_price; rewrite fold_left_app; reflexivity |].
    split; [reflexivity |].
    split; [intro Hm; unfold discountFactor; destruct m; try congruence; reflexivity |].
    unfold modifiedDuration, convexity, dv01. cbv zeta.
    split; [intro H; rewrite H; split; reflexivity |].
    split; [intro H; rewrite H; split; reflexivity |].
    reflexivity.
  - intros cashFlows y m.
    split.
    { unfold Sensitivity_price. to_R.
      rewrite (fold_left_Rsum
                 (fun cf => (cf_amount cf * discountFactor (cf_time cf) y m)%R)).
      rewrite Rplus_0_l. f_equal. apply map_ext. intro cf.
      rewrite discountFactor_R. reflexivity. }
    unfold modifiedDuration, convexity, dv01. cbv zeta. to_R.
    split; [intro H; rewrite (proj2 (Reqb_true _ _) H); split; reflexivity |].
    split; [intro H; rewrite (proj2 (Reqb_false _ _) H); split; reflexivity |].
    f_equal; unfold Q2R; simpl; lra.
Qed.

(** A bond with one payment: price 0 only if the amount is 0; and no payments. *)
Lemma Sensitivity_spec_witness :
  (modifiedDuration (D := R) [] (5 / 100) Annual = 0 /\
   convexity (D := R) [] (5 / 100) Annual = 0 /\
   dv01 [{| cf_time := 1; cf_amount := 105 |}] (5 / 100) Annual
   = - priceDelta [{| cf_time := 1; cf_amount := 105 |}] (5 / 100) Annual * (1 / 10000))%R.
Proof.
  destruct Sensitivity_spec as [_ HR].
  destruct (HR [] (5 / 100)%R Annual) as (Hsum & Hzero & _).
  destruct (Hzero Hsum) as [Hd Hc].
  destruct (HR [{| cf_time := 1; cf_amount := 105 |}]%R (5 / 100)%R Annual)
    as (_ & _ & _ & Hdv).
  exact (conj Hd (conj Hc Hdv)).
Defined.

(** ** The yield solver: where it can fail *)

Section SolverGeneric.
Context {D : Type} {ops : DoubleOps D} {lm : Libm D}.
Local Open Scope double_scope.

Lemma DiscountCurve_flat_Err : forall y m dc e,
  DiscountCurve_flat y m dc = Err e ->
  e = InvalidArgument /\ (disnan y || disinf y) = true.
Proof.
  intros y m dc e H. unfold DiscountCurve_flat in H.
  destruct (disnan y || disinf y); inversion H. auto.
Qed.

Lemma Bond_price_loop_Err : forall cfs (curve : DiscountCurve D) p e,
  Bond_price_loop cfs curve p = Err e ->
  e = InvalidArgument /\
  Exists (fun cf => (disnan (cf_time cf) || disinf (cf_time cf)) = true) cfs.
Proof.
  induction cfs as [| cf rest IH]; intros curve p e H; simpl in H; [discriminate |].
  destruct (DiscountCurve_df curve (cf_time cf)) as [v | e'] eqn:Hdf; cbn [bind] in H.
  - destruct (IH _ _ _ H) as [He Hex]. split; [exact He | apply Exists_cons_tl; exact Hex].
  - inversion H; subst e'. apply DiscountCurve_df_Err in Hdf.
    split; [tauto | apply Exists_cons_hd; tauto].
Qed.

(** [f] fails only with InvalidArgument, and only at a yield or a cash-flow
    time that is NaN or infinite. *)
Lemma priceDifference_Err_cause : forall (b : Bond D) y targetPrice m e,
  priceDifference b y targetPrice m = Err e ->
  e = InvalidArgument /\
  ((disnan y || disinf y) = true \/
   Exists (fun cf => (disnan (cf_time cf) || disinf (cf_time cf)) = true) (cfs_ b)).
Proof.
  intros b y targetPrice m e H. unfold priceDifference in H.
  destruct (DiscountCurve_flat y m ACT_365F) as [curve | e'] eqn:Hc; cbn [bind] in H.
  - unfold Bond_price in H.
    destruct (Bond_price_loop (cfs_ b) curve d0) as [v | e'] eqn:Hp; cbn [bind] in H;
      [discriminate |].
    inversion H; subst e'. apply Bond_price_loop_Err in Hp. tauto.
  - inversion H; subst e'. apply DiscountCurve_flat_Err in Hc. tauto.
Qed.

Lemma priceDifference_Err : forall (b : Bond D) y targetPrice m e,
  priceDifference b y targetPrice m = Err e -> e = InvalidArgument.
Proof. intros b y targetPrice m e H. apply priceDifference_Err_cause in H. tauto. Qed.

Lemma priceDifferenceDerivative_Err : forall (b : Bond D) y m e,
  priceDifferenceDerivative b y m = Err e -> e = InvalidArgument.
Proof.
  intros b y m e H. unfold priceDifferenceDerivative in H. cbv zeta in H.
  match type of H with
  | bind ?r _ = _ => destruct r as [v1 | e1] eqn:H1; cbn [bind] in H
  end.
  - match type of H with
    | bind ?r _ = _ => destruct r as [v2 | e2] eqn:H2; cbn [bind] in H
    end; [discriminate |].
    inversion H; subst e2. eapply priceDifference_Err. exact H2.
  - inversion H; subst e1. eapply priceDifference_Err. exact H1.
Qed.

Lemma newtonIteration_Err : forall (b : Bond D) targetPrice m y e,
  newtonIteration b targetPrice m y = Err e -> e = InvalidArgument.
Proof.
  intros b targetPrice m y e H. unfold newtonIteration in H. cbv zeta in H.
  destruct (priceDifference b y targetPrice m) as [pe | e1] eqn:H1; cbn [bind] in H.
  - destruct (dabs pe <? dlit (1 # 1000000000000)); [discriminate |].
    destruct (priceDifferenceDerivative b y m) as [pd | e2] eqn:H2; cbn [bind] in H.
    + destruct (dabs pd <? dlit (1 # 1000000000000000)); discriminate.
    + inversion H; subst e2. eapply priceDifferenceDerivative_Err. exact H2.
  - inversion H; subst e1. eapply priceDifference_Err. exact H1.
Qed.

Lemma newtonLoop_Err : forall (b : Bond D) targetPrice m n y e,
  newtonLoop b targetPrice m n y = Err e -> e = InvalidArgument.
Proof.
  intros b targetPrice m n. induction n as [| n IH]; intros y e H; cbn [newtonLoop] in H;
    [discriminate |].
  destruct (newtonIteration b targetPrice m y) as [[y' | y'] | e1] eqn:H1; cbn [bind] in H.
  - discriminate.
  - eapply IH. exact H.
  - inversion H; subst e1. eapply newtonIteration_Err. exact H1.
Qed.

Lemma bisectionLoop_Err : forall (b : Bond D) targetPrice m n a b_upper fa fb e,
  bisectionLoop b targetPrice m n a b_upper fa fb = Err e -> e = InvalidArgument.
Proof.
  intros b targetPrice m n. induction n as [| n IH]; intros a b_upper fa fb e H;
    cbn [bisectionLoop] in H; [discriminate |].
  cbv zeta in H.
  destruct (priceDifference b ((a + b_upper) / d2) targetPrice m) as [fc | e1] eqn:H1;
    cbn [bind] in H.
  - destruct (fa * fc <? d0); eapply IH; exact H.
  - inversion H; subst e1. eapply priceDifference_Err. exact H1.
Qed.

Lemma bracketRoot_RootNotBracketed : forall (b : Bond D) targetPrice m fa,
  bracketRoot b targetPrice m fa = Err RootNotBracketed <->
  exists fb1 fb2 : D,
    priceDifference b d1 targetPrice m = Ok fb1 /\
    (fa * fb1 >? d0) = true /\
    priceDifference b d2 targetPrice m = Ok fb2 /\
    (fa * fb2 >? d0) = true.
Proof.
  intros b targetPrice m fa. unfold bracketRoot. cbv zeta.
  destruct (priceDifference b d1 targetPrice m) as [fb1 | e1] eqn:H1; cbn [bind].
  - destruct (fa * fb1 >? d0) eqn:Hp1.
    + destruct (priceDifference b d2 targetPrice m) as [fb2 | e2] eqn:H2; cbn [bind].
      * destruct (fa * fb2 >? d0) eqn:Hp2.
        -- split; [intros _; exists fb1, fb2; auto | reflexivity].
        -- split; [discriminate |].
           intros (x1 & x2 & Hx1 & _ & Hx2 & Hx3). inversion Hx2; subst. congruence.
      * split.
        -- intro H. inversion H; subst e2. apply priceDifference_Err in H2. discriminate.
        -- intros (x1 & x2 & _ & _ & Hx2 & _). discriminate.
    + split; [discriminate |].
      intros (x1 & x2 & Hx1 & Hx & _). inversion Hx1; subst. congruence.
  - split.
    + intro H. inversion H; subst e1. apply priceDifference_Err in H1. discriminate.
    + intros (x1 & x2 & Hx1 & _). discriminate.
Qed.

Lemma solve_RootNotBracketed_iff : forall (b : Bond D) targetPrice m y0,
  solve b targetPrice m y0 = Err RootNotBracketed <-> notBracketed b targetPrice m.
Proof.
  intros b targetPrice m y0. unfold solve, bisectionPhase, notBracketed. cbv zeta.
  destruct (priceDifference b d0 targetPrice m) as [fa | e0] eqn:H0; cbn [bind].
  - destruct (bracketRoot b targetPrice m fa) as [[b_upper fb] | e1] eqn:Hbr; cbn [bind].
    + split.
      * intro H. exfalso.
        destruct (bisectionLoop b targetPrice m 10 d0 b_upper fa fb) as [[a' b'] | e2] eqn:Hl;
          cbn [bind] in H.
        -- apply newtonLoop_Err in H. discriminate.
        -- inversion H; subst e2. apply bisectionLoop_Err in Hl. discriminate.
      * intros (x0 & x1 & x2 & Hx0 & Hrest). inversion Hx0; subst x0.
        assert (Hbad : bracketRoot b targetPrice m fa = Err RootNotBracketed)
          by (apply bracketRoot_RootNotBracketed; exists x1, x2; exact Hrest).
        congruence.
    + split.
      * intro H. inversion H; subst e1.
        apply bracketRoot_RootNotBracketed in Hbr.
        destruct Hbr as (fb1 & fb2 & Hbr). exists fa, fb1, fb2. tauto.
      * intros (x0 & x1 & x2 & Hx0 & Hrest). inversion Hx0; subst x0.
        assert (Hbad : bracketRoot b targetPrice m fa = Err RootNotBracketed)
          by (apply bracketRoot_RootNotBracketed; exists x1, x2; exact Hrest).
        congruence.
  - split.
    + intro H. inversion H; subst e0. apply priceDifference_Err in H0. discriminate.
    + intros (x0 & x1 & x2 & Hx0 & _). discriminate.
Qed.

End SolverGeneric.

(** ** The yield solver over the reals *)

Lemma Q2R_unit_fraction : forall p : positive, Q2R (1 # p) = (1 / IZR (Z.pos p))%R.
Proof. intro p. unfold Q2R. cbn [Qnum Qden]. lra. Qed.

Lemma Q2R_lit0 : Q2R 0 = 0%R.
Proof. unfold Q2R. cbn [Qnum Qden]. lra. Qed.

Lemma Q2R_lit1 : Q2R 1 = 1%R.
Proof. unfold Q2R. cbn [Qnum Qden]. lra. Qed.

Lemma Q2R_lit2 : Q2R 2 = 2%R.
Proof. unfold Q2R. cbn [Qnum Qden]. lra. Qed.

(** [to_R], and the literals as fractions. *)
Ltac to_R_lit :=
  to_R; cbn [dlit R_ops] in *;
  rewrite ?Q2R_lit0, ?Q2R_lit1, ?Q2R_lit2, ?Q2R_unit_fraction in *.

Lemma DiscountCurve_df_flat_R : forall y m dc t,
  DiscountCurve_df {| y_ := y; m_ := m; dc_ := dc; boot_ := [] |} t = Ok (flat_df y m t).
Proof.
  intros y m dc t. unfold flat_df. destruct (Rle_dec t 0) as [Hle | Hgt].
  - rewrite DiscountCurve_df_nonpositive;
      [to_R; reflexivity | reflexivity | to_R; apply Rleb_true; assumption].
  - rewrite DiscountCurve_df_flat_real by lra.
    unfold spec_discountFactor. destruct m; reflexivity.
Qed.

Lemma Bond_price_loop_R : forall cfs y m dc (p : R),
  Bond_price_loop cfs {| y_ := y; m_ := m; dc_ := dc; boot_ := [] |} p
  = Ok (p + Rsum (map (fun cf => cf_amount cf * flat_df y m (cf_time cf)) cfs))%R.
Proof.
  intros cfs y m dc. induction cfs as [| cf rest IH]; intro p; simpl.
  - f_equal. lra.
  - rewrite DiscountCurve_df_flat_R. cbn [bind]. rewrite IH. f_equal. lra.
Qed.

Lemma priceDifference_R : forall (b : Bond R) y targetPrice m,
  priceDifference b y targetPrice m = Ok (price_gap b targetPrice m y).
Proof.
  intros b y targetPrice m. unfold priceDifference, DiscountCurve_flat, Bond_price.
  simpl disnan. simpl disinf. simpl orb. cbv iota. cbn [bind].
  rewrite Bond_price_loop_R. cbn [bind]. to_R.
  unfold price_gap, price_of_yield. f_equal. lra.
Qed.

Lemma priceDifferenceDerivative_R : forall (b : Bond R) y m,
  priceDifferenceDerivative b y m = Ok (central_difference b m y).
Proof.
  intros b y m. unfold priceDifferenceDerivative. cbv zeta.
  rewrite !priceDifference_R. cbn [bind]. to_R_lit.
  unfold central_difference, adaptive_step, price_gap. f_equal. lra.
Qed.

Lemma bisectionLoop_R : forall (b : Bond R) targetPrice m n a b_upper fb,
  bisectionLoop b targetPrice m n a b_upper (price_gap b targetPrice m a) fb
  = Ok (Nat.iter n (bisect_step (price_gap b targetPrice m)) (a, b_upper)).
Proof.
  intros b targetPrice m n. induction n as [| n IH]; intros a b_upper fb.
  - reflexivity.
  - cbn [bisectionLoop]. cbv zeta. rewrite priceDifference_R. cbn [bind]. to_R_lit.
    rewrite Nat.iter_succ_r. unfold bisect_step at 2. cbn [fst snd].
    unfold Rltb. destruct (Rlt_dec _ 0); apply IH.
Qed.

Lemma bisect_step_width : forall f k a b,
  let ab := Nat.iter k (bisect_step f) (a, b) in
  (snd ab - fst ab = (b - a) / 2 ^ k)%R.
Proof.
  intros f k a b. induction k as [| k IH].
  - simpl. lra.
  - cbv zeta in *. rewrite Nat.iter_succ.
    assert (Hp : (2 ^ k <> 0)%R) by (apply pow_nonzero; lra).
    replace ((b - a) / 2 ^ S k)%R with ((b - a) / 2 ^ k / 2)%R
      by (cbn [pow]; field; assumption).
    rewrite <- IH. set (ab := Nat.iter k (bisect_step f) (a, b)).
    unfold bisect_step. cbv zeta. destruct (Rlt_dec _ 0%R); cbn [fst snd]; lra.
Qed.

Lemma bisect_step_sign : forall f a b,
  (f a * f b < 0)%R ->
  let ab := bisect_step f (a, b) in (f (fst ab) * f (snd ab) <= 0)%R.
Proof.
  intros f a b Hsign. unfold bisect_step. cbn [fst snd].
  destruct (Rlt_dec _ 0) as [Hlt | Hge]; cbn [fst snd]; [lra |].
  set (c := ((a + b) / 2)%R) in *.
  destruct (Rle_dec (f c * f b) 0) as [H | H]; [exact H | exfalso].
  assert (Hpos : (0 < f c * f b)%R) by lra.
  assert (Hac : (0 <= f a * f c)%R) by lra.
  assert (Hsq : (0 <= f c * f c)%R) by nra.
  nra.
Qed.

Lemma bracketRoot_R : forall (b : Bond R) targetPrice m fa,
  let f := price_gap b targetPrice m in
  bracketRoot b targetPrice m fa =
  if Rlt_dec 0 (fa * f 1%R) then
    if Rlt_dec 0 (fa * f 2%R) then Err RootNotBracketed else Ok (2%R, f 2%R)
  else Ok (1%R, f 1%R).
Proof.
  intros b targetPrice m fa f. unfold bracketRoot. cbv zeta.
  unfold dgtb. to_R_lit. rewrite !priceDifference_R. cbn [bind]. fold f.
  to_R_lit. unfold Rltb. destruct (Rlt_dec 0 (fa * f 1%R)); [| reflexivity].
  rewrite ?priceDifference_R. cbn [bind]. fold f.
  destruct (Rlt_dec 0 (fa * f 2%R)); reflexivity.
Qed.

Lemma bisectionPhase_R : forall (b : Bond R) targetPrice m,
  let f := price_gap b targetPrice m in
  bisectionPhase b targetPrice m =
  (bracket <- bracketRoot b targetPrice m (f 0%R) ;;
   Ok (midpoint (Nat.iter 10 (bisect_step f) (0%R, fst bracket)))).
Proof.
  intros b targetPrice m f. unfold bisectionPhase. cbv zeta. to_R_lit.
  rewrite priceDifference_R. cbn [bind]. fold f.
  destruct (bracketRoot b targetPrice m (f 0%R)) as [[b_upper fb] | e]; [| reflexivity].
  cbn [bind]. unfold f. rewrite bisectionLoop_R. cbn [bind]. fold f.
  cbn [fst]. destruct (Nat.iter 10 (bisect_step f) (0%R, b_upper)) as [a' b'].
  to_R_lit. reflexivity.
Qed.

Lemma newtonIteration_R : forall (b : Bond R) targetPrice m y,
  newtonIteration b targetPrice m y =
  Ok (if newton_stop b targetPrice m y then Finished y
      else Continue (newton_update b targetPrice m y)).
Proof.
  intros b targetPrice m y. unfold newtonIteration, newton_stop, newton_update. cbv zeta.
  rewrite priceDifference_R. cbn [bind]. to_R_lit.
  destruct (Rltb (Rabs (price_gap b targetPrice m y)) (1 / 1000000000000));
    [reflexivity |].
  rewrite priceDifferenceDerivative_R. cbn [bind]. to_R_lit.
  destruct (Rltb (Rabs (central_difference b m y)) (1 / 1000000000000000));
    reflexivity.
Qed.

Lemma newtonLoop_R : forall (b : Bond R) targetPrice m n y,
  exists k : nat,
    (k <= n)%nat /\
    newtonLoop b targetPrice m n y = Ok (Nat.iter k (newton_update b targetPrice m) y) /\
    (forall j, (j < k)%nat ->
       newton_stop b targetPrice m (Nat.iter j (newton_update b targetPrice m) y) = false) /\
    (k = n \/
     newton_stop b targetPrice m (Nat.iter k (newton_update b targetPrice m) y) = true).
Proof.
  intros b targetPrice m n. induction n as [| n IH]; intro y.
  - exists O. repeat split; auto. intros j Hj. lia.
  - cbn [newtonLoop]. rewrite newtonIteration_R. cbn [bind].
    destruct (newton_stop b targetPrice m y) eqn:Hstop.
    + exists O. repeat split; auto; [lia |]. intros j Hj. lia.
    + destruct (IH (newton_update b targetPrice m y)) as (k & Hk & Hrun & Hbefore & Hend).
      exists (S k). rewrite !Nat.iter_succ_r. split; [lia |]. split; [exact Hrun |]. split.
      * intros j Hj. destruct j as [| j]; [exact Hstop |].
        rewrite Nat.iter_succ_r. apply Hbefore. lia.
      * destruct Hend as [-> | Hend]; [left; reflexivity | right; exact Hend].
Qed.

Lemma clampYield_R : forall z : R,
  clampYield z = (if Rlt_dec z 0 then 1 / 1000 else if Rlt_dec 2 z then 2 else z)%R.
Proof.
  intro z. unfold clampYield, dgtb. to_R_lit. unfold Rltb.
  destruct (Rlt_dec z 0).
  - destruct (Rlt_dec 2 (1 / 1000)); [lra | reflexivity].
  - destruct (Rlt_dec 2 z); reflexivity.
Qed.

Lemma clampYield_range : forall z : R, (0 <= clampYield z <= 2)%R.
Proof.
  intro z. rewrite clampYield_R.
  destruct (Rlt_dec z 0); [lra |]. destruct (Rlt_dec 2 z); lra.
Qed.

Lemma newtonRaphsonPhase_total : forall (b : Bond R) targetPrice m y0,
  exists y, newtonRaphsonPhase b targetPrice m y0 = Ok y.
Proof.
  intros b targetPrice m y0. unfold newtonRaphsonPhase.
  destruct (newtonLoop_R b targetPrice m maxIterations y0) as (k & _ & Hrun & _).
  eexists. exact Hrun.
Qed.

Lemma solve_R : forall (b : Bond R) targetPrice m y0,
  let f := price_gap b targetPrice m in
  solve b targetPrice m y0 =
  if Rlt_dec 0 (f 0%R * f 1%R) then
    if Rlt_dec 0 (f 0%R * f 2%R) then Err RootNotBracketed
    else newtonRaphsonPhase b targetPrice m
           (midpoint (Nat.iter 10 (bisect_step f) (0%R, 2%R)))
  else newtonRaphsonPhase b targetPrice m
         (midpoint (Nat.iter 10 (bisect_step f) (0%R, 1%R))).
Proof.
  intros b targetPrice m y0 f. unfold solve.
  rewrite bisectionPhase_R, bracketRoot_R. fold f.
  destruct (Rlt_dec 0 (f 0%R * f 1%R)); [destruct (Rlt_dec 0 (f 0%R * f 2%R)) |];
    reflexivity.
Qed.

(** A NaN target price: every [f] value is NaN, no product exceeds 0, the
    bisection runs, the first Newton update makes the iterate NaN, and the next
    evaluation of [f] builds a flat curve on a NaN yield. *)
Lemma solve_nan_target_counterexample :
  solve (lm := libm_reciprocal) zero_coupon_float nan Annual (float_lit (5 # 100))
  = Err InvalidArgument.
Proof. vm_compute. reflexivity. Qed.

(** C4, as the code has it.  For every interpretation of the arithmetic,
    [solve] fails with RootNotBracketed exactly when [f(0)], [f(1)] and [f(2)]
    are computed and both [f(0)*f(1) > 0] and [f(0)*f(2) > 0] hold, where
    [f(y) = price(y) - targetPrice]; an evaluation of [f] fails only with
    InvalidArgument and only at a yield (or cash-flow time) that is NaN or
    infinite.  Over the reals, where every value is finite, [solve] returns a
    yield in every other case and RootNotBracketed is its only failure. *)
Theorem solve_failures :
  (forall (D : Type) (ops : DoubleOps D) (lm : Libm D)
          (b : Bond D) (targetPrice : D) (m : Compounding) (y0 : D),
     (solve b targetPrice m y0 = Err RootNotBracketed <->
      exists fa fb1 fb2 : D,
        priceDifference b d0 targetPrice m = Ok fa /\
        priceDifference b d1 targetPrice m = Ok fb1 /\
        (fa * fb1 >? d0)%D = true /\
        priceDifference b d2 targetPrice m = Ok fb2 /\
        (fa * fb2 >? d0)%D = true) /\
     (forall y e, priceDifference b y targetPrice m = Err e ->
        e = InvalidArgument /\
        ((disnan y || disinf y) = true \/
         Exists (fun cf => (disnan (cf_time cf) || disinf (cf_time cf)) = true) (cfs_ b))))
  /\
  (forall (b : Bond R) (targetPrice : R) (m : Compounding) (y0 : R),
     let f := price_gap b targetPrice m in
     (forall y, priceDifference b y targetPrice m = Ok (f y)) /\
     (solve b targetPrice m y0 = Err RootNotBracketed <->
      (f 0 * f 1 > 0 /\ f 0 * f 2 > 0)%R) /\
     (~ (f 0 * f 1 > 0 /\ f 0 * f 2 > 0)%R -> exists y, solve b targetPrice m y0 = Ok y) /\
     (forall e, solve b targetPrice m y0 = Err e -> e = RootNotBracketed)).
Proof.
  split.
  - intros D ops lm b targetPrice m y0. split.
    + apply solve_RootNotBracketed_iff.
    + intros y e. apply priceDifference_Err_cause.
  - intros b targetPrice m y0 f.
    split; [intro y; apply priceDifference_R |].
    rewrite solve_R. fold f.
    destruct (Rlt_dec 0 (f 0%R * f 1%R)) as [H1 | H1];
      [destruct (Rlt_dec 0 (f 0%R * f 2%R)) as [H2 | H2] |].
    + split; [split; [intros _; split; lra | reflexivity] |].
      split; [intro H; exfalso; apply H; split; lra |].
      intros e He. inversion He. reflexivity.
    + destruct (newtonRaphsonPhase_total b targetPrice m
                  (midpoint (Nat.iter 10 (bisect_step f) (0%R, 2%R)))) as [y Hy].
      rewrite Hy. split; [split; [discriminate | intros [_ H]; lra] |].
      split; [intros _; exists y; reflexivity |].
      intros e He. discriminate.
    + destruct (newtonRaphsonPhase_total b targetPrice m
                  (midpoint (Nat.iter 10 (bisect_step f) (0%R, 1%R)))) as [y Hy].
      rewrite Hy. split; [split; [discriminate | intros [H _]; lra] |].
      split; [intros _; exists y; reflexivity |].
      intros e He. discriminate.
Qed.

(** C3, as the code has it, over the reals.  When the root is bracketed with
    upper bound [bu] (1, or 2 after the expansion), [solve] runs the Newton phase
    from the midpoint of the bracket that exactly 10 bisection steps leave; each
    step halves the bracket, keeps the lower half when [f(a)*f(c) < 0] and the
    upper half when [f(a)*f(c) > 0], and a bracket with [f(a)*f(b) < 0] is left
    with [f(a')*f(b') <= 0].  The Newton phase returns the iterate after
    [k <= 100] updates: it stops at the first iterate with [|f(y)| < 1e-12] or
    with [|f'(y)| < 1e-15], [f'] the central difference with
    [h = max(1e-8, 1e-6*|y|)], or after 100 updates.  After each update a
    negative iterate is replaced by 0.001 and an iterate above 2.0 by 2.0, so
    the iterate lies in [0, 2.0]. *)
Theorem yield_solver_phases :
  forall (b : Bond R) (targetPrice : R) (m : Compounding) (y0 : R),
  let f := price_gap b targetPrice m in
  let f' := central_difference b m in
  let stop := fun y : R =>
    Rltb (Rabs (f y)) (1 / 1000000000000) || Rltb (Rabs (f' y)) (1 / 1000000000000000) in
  let update := fun y : R => clampYield (y - f y / f' y)%R in
  (forall bu fb, bracketRoot b targetPrice m (f 0%R) = Ok (bu, fb) ->
     (bu = 1 \/ bu = 2)%R /\
     bisectionPhase b targetPrice m = Ok (midpoint (Nat.iter 10 (bisect_step f) (0%R, bu))) /\
     solve b targetPrice m y0 =
       newtonRaphsonPhase b targetPrice m
         (midpoint (Nat.iter 10 (bisect_step f) (0%R, bu)))) /\
  (forall a bu : R,
     ((f a * f ((a + bu) / 2) < 0)%R -> bisect_step f (a, bu) = (a, (a + bu) / 2)%R) /\
     ((f a * f ((a + bu) / 2) > 0)%R -> bisect_step f (a, bu) = ((a + bu) / 2, bu)%R) /\
     (forall k, snd (Nat.iter k (bisect_step f) (a, bu)) - fst (Nat.iter k (bisect_step f) (a, bu))
                = (bu - a) / 2 ^ k)%R /\
     (f a * f bu < 0 ->
      f (fst (bisect_step f (a, bu))) * f (snd (bisect_step f (a, bu))) <= 0)%R) /\
  (forall y : R,
     priceDifferenceDerivative b y m = Ok (f' y) /\
     f' y = ((price_of_yield b m (y + Rmax (1 / 100000000) (1 / 1000000 * Rabs y))
              - price_of_yield b m (y - Rmax (1 / 100000000) (1 / 1000000 * Rabs y)))
             / (2 * Rmax (1 / 100000000) (1 / 1000000 * Rabs y)))%R /\
     newtonIteration b targetPrice m y =
       Ok (if stop y then Finished y else Continue (update y))) /\
  (forall y1 : R, exists k : nat,
     (k <= 100)%nat /\
     newtonRaphsonPhase b targetPrice m y1 = Ok (Nat.iter k update y1) /\
     (forall j, (j < k)%nat -> stop (Nat.iter j update y1) = false) /\
     (k = 100%nat \/ stop (Nat.iter k update y1) = true)) /\
  (forall z : R,
     clampYield z = (if Rlt_dec z 0 then 1 / 1000 else if Rlt_dec 2 z then 2 else z)%R /\
     (0 <= clampYield z <= 2)%R).
Proof.
  intros b targetPrice m y0 f f' stop update.
  split; [| split; [| split; [| split]]].
  - intros bu fb Hbr.
    assert (Hbu : (bu = 1 \/ bu = 2)%R).
    { rewrite bracketRoot_R in Hbr. fold f in Hbr.
      destruct (Rlt_dec 0 (f 0%R * f 1%R)); [destruct (Rlt_dec 0 (f 0%R * f 2%R)) |];
        inversion Hbr; auto. }
    split; [exact Hbu |].
    assert (Hbis : bisectionPhase b targetPrice m
                   = Ok (midpoint (Nat.iter 10 (bisect_step f) (0%R, bu)))).
    { rewrite bisectionPhase_R. fold f. rewrite Hbr. reflexivity. }
    split; [exact Hbis |].
    unfold solve. rewrite Hbis. reflexivity.
  - intros a bu. split; [| split; [| split]].
    + intro H. unfold bisect_step. cbn [fst snd].
      destruct (Rlt_dec _ 0%R); [reflexivity | lra].
    + intro H. unfold bisect_step. cbn [fst snd].
      destruct (Rlt_dec _ 0%R); [lra | reflexivity].
    + intro k. apply bisect_step_width.
    + intro Hsign. apply (bisect_step_sign f a bu Hsign).
  - intro y. split; [apply priceDifferenceDerivative_R |].
    split; [reflexivity |]. apply newtonIteration_R.
  - intro y1. apply (newtonLoop_R b targetPrice m maxIterations y1).
  - intro z. split; [apply clampYield_R | apply clampYield_range].
Qed.

Lemma zero_coupon_price : forall y : R,
  (-1 < y)%R -> price_of_yield zero_coupon Annual y = (100 / (1 + y))%R.
Proof.
  intros y Hy. unfold price_of_yield, zero_coupon, flat_df, spec_discountFactor.
  cbn [cfs_ map cf_time cf_amount Rsum fold_right Compounding_value].
  destruct (Rle_dec 1 0) as [H | _]; [lra |].
  replace (- (1) * 1)%R with (- (1))%R by lra.
  replace (1 + y / 1)%R with (1 + y)%R by lra.
  rewrite Rpower_Ropp, Rpower_1 by lra. lra.
Qed.

Lemma zero_coupon_gap : forall targetPrice y : R,
  (-1 < y)%R ->
  price_gap zero_coupon targetPrice Annual y = (100 / (1 + y) - targetPrice)%R.
Proof. intros targetPrice y Hy. unfold price_gap. rewrite zero_coupon_price by assumption. reflexivity. Qed.

(** A Newton update from y = 0.0005 towards a root near 0.0004: the new iterate
    is kept as it is, below 0.001. *)
Lemma newton_iterate_below_clamp :
  exists y' : R,
    newtonIteration zero_coupon (200000 / 2001 + 1 / 100)%R Annual (1 / 2000)%R
    = Ok (Continue y') /\
    (0 <= y' < 1 / 1000)%R.
Proof.
  set (target := (200000 / 2001 + 1 / 100)%R).
  set (y := (1 / 2000)%R).
  assert (Hgap : price_gap zero_coupon target Annual y = (- (1 / 100))%R).
  { rewrite zero_coupon_gap by (unfold y; lra). unfold target, y. lra. }
  assert (Hstep : adaptive_step y = (1 / 100000000)%R).
  { unfold adaptive_step, y. rewrite Rabs_pos_eq by lra. apply Rmax_left. lra. }
  assert (Hder : central_difference zero_coupon Annual y
                 = ((100 / (1 + (y + 1 / 100000000)) - 100 / (1 + (y - 1 / 100000000)))
                    / (2 * (1 / 100000000)))%R).
  { unfold central_difference. rewrite Hstep.
    rewrite !zero_coupon_price by (unfold y; lra). reflexivity. }
  exists (y - price_gap zero_coupon target Annual y / central_difference zero_coupon Annual y)%R.
  rewrite newtonIteration_R. unfold newton_stop, newton_update.
  rewrite clampYield_R. rewrite Hgap, Hder. unfold y.
  rewrite Rabs_left by lra.
  rewrite (proj2 (Rltb_false _ _)) by lra.
  rewrite Rabs_left by lra.
  rewrite (proj2 (Rltb_false _ _)) by lra.
  cbn [orb].
  destruct (Rlt_dec _ 0) as [H | _]; [exfalso; lra |].
  destruct (Rlt_dec 2 _) as [H | _]; [exfalso; lra |].
  split; [reflexivity | lra].
Qed.

(** The same in binary64, as a whole run: at the price 99.95 the solver returns
    a yield of about 0.0005, below 0.001. *)
Lemma solve_returns_below_clamp :
  exists y : float,
    solve (lm := libm_reciprocal) zero_coupon_float (float_lit (9995 # 100)) Annual
          (float_lit (5 # 100)) = Ok y /\
    PrimFloat.ltb 0 y = true /\ PrimFloat.ltb y (float_lit (1 # 1000)) = true.
Proof. eexists. repeat split; vm_compute; reflexivity. Qed.

(** The zero-coupon bond at price 95 (bracketed on [0,1]) and at price 200
    (not bracketed on [0,2]). *)
Lemma solve_failures_witness :
  (exists y, solve zero_coupon 95%R Annual (5 / 100)%R = Ok y) /\
  solve zero_coupon 200%R Annual (5 / 100)%R = Err RootNotBracketed.
Proof.
  destruct solve_failures as [_ Hreal].
  split.
  - destruct (Hreal zero_coupon 95%R Annual (5 / 100)%R) as (_ & _ & Hok & _).
    apply Hok. rewrite !zero_coupon_gap by lra. lra.
  - destruct (Hreal zero_coupon 200%R Annual (5 / 100)%R) as (_ & Hiff & _).
    apply Hiff. rewrite !zero_coupon_gap by lra. lra.
Defined.

(** At price 95 the root is bracketed on [0,1]. *)
Lemma yield_solver_phases_witness :
  solve zero_coupon 95%R Annual (5 / 100)%R =
  newtonRaphsonPhase zero_coupon 95%R Annual
    (midpoint (Nat.iter 10 (bisect_step (price_gap zero_coupon 95%R Annual)) (0%R, 1%R))).
Proof.
  destruct (yield_solver_phases zero_coupon 95%R Annual (5 / 100)%R) as (Hbis & _).
  apply (Hbis 1%R (price_gap zero_coupon 95%R Annual 1%R)).
  rewrite bracketRoot_R.
  destruct (Rlt_dec 0 _) as [H | _]; [| reflexivity].
  exfalso. rewrite !zero_coupon_gap in H by lra. lra.
Defined.

(** ** Monte Carlo: batching and array evaluation *)

Lemma wrap64_add_l : forall a b, wrap64 (wrap64 a + b) = wrap64 (a + b).
Proof. intros a b. unfold wrap64. apply Zplus_mod_idemp_l. Qed.

Lemma wrap64_add_l2 : forall a b c, wrap64 (wrap64 a + b + c) = wrap64 (a + b + c).
Proof. intros a b c. rewrite <- Z.add_assoc, wrap64_add_l, Z.add_assoc. reflexivity. Qed.

Lemma wrap64_add_r : forall a b, wrap64 (a + wrap64 b) = wrap64 (a + b).
Proof. intros a b. unfold wrap64. apply Zplus_mod_idemp_r. Qed.

Lemma wrap64_small : forall a, (0 <= a < size_max)%Z -> wrap64 a = a.
Proof. intros a H. unfold wrap64. apply Z.mod_small. exact H. Qed.

Section BatchingGeneric.
Context {D : Type} {ops : DoubleOps D} {lm : Libm D} {src : NormalSource D}.
Local Open Scope double_scope.

Variables (F0 K sigma T : D) (tp : OptionType) (antithetic : bool).

Lemma scalarBatch_afterDraws : forall n st,
  scalarBatch F0 K sigma (- dhalf * sigma * sigma * T) (dsqrt T) tp antithetic n st
  = afterDraws F0 K sigma T tp antithetic n st.
Proof.
  induction n as [| n IH]; intro st.
  - destruct st. reflexivity.
  - cbn [scalarBatch]. unfold afterDraws. cbn [drawNormals].
    destruct (rng_normal (sim_rng st)) as [z g] eqn:Hz.
    rewrite IH. unfold afterDraws.
    destruct (drawNormals n g) as [zs g'] eqn:Hzs.
    unfold pathsPerDraw, addPath.
    destruct antithetic; cbn [sim_rng payoffSum totalPaths fst snd fold_left];
      rewrite Hzs; cbn [fst snd]; f_equal;
      destruct n; cbn [totalPaths]; rewrite ?wrap64_add_l, ?wrap64_add_l2; f_equal; lia.
Qed.

Lemma fold_left_map : forall (A B C : Type) (f : A -> B -> A) (g : C -> B) l a,
  fold_left f (map g l) a = fold_left (fun x c => f x (g c)) l a.
Proof.
  intros A B C f g l. induction l as [| c l IH]; intro a; simpl; [reflexivity | apply IH].
Qed.

Lemma combine_map : forall (A B C : Type) (f : A -> B) (g : A -> C) l,
  combine (map f l) (map g l) = map (fun x => (f x, g x)) l.
Proof.
  intros A B C f g l. induction l as [| x l IH]; simpl; [reflexivity | rewrite IH; reflexivity].
Qed.

Lemma drawNormals_length : forall (n : nat) (g : rng),
  length (fst (drawNormals n g)) = n.
Proof.
  induction n as [| n IH]; intro g; [reflexivity |].
  cbn [drawNormals]. destruct (rng_normal g) as [z g1].
  specialize (IH g1). destruct (drawNormals n g1) as [zs g2].
  cbn [fst length] in *. rewrite IH. reflexivity.
Qed.

(** The arrays of paths have one coefficient per draw, whatever Eigen's
    exponential returns. *)
Lemma generatePaths_length : forall randoms,
  length (generatePaths F0 sigma T randoms) = length randoms.
Proof.
  intro randoms. unfold generatePaths. cbv zeta.
  rewrite length_map, array_exp_length, length_map. reflexivity.
Qed.

Lemma generateAntitheticPaths_length : forall randoms,
  length (fst (generateAntitheticPaths F0 sigma T randoms)) = length randoms /\
  length (snd (generateAntitheticPaths F0 sigma T randoms)) = length randoms.
Proof.
  intro randoms. unfold generateAntitheticPaths. cbv zeta. cbn [fst snd].
  rewrite !length_map, !array_exp_length, !length_map. split; reflexivity.
Qed.

(** Where Eigen's exponential is [std::exp], the arrays hold the paths of the
    scalar branch. *)
Lemma generatePaths_std : array_exp_is_std_exp -> forall randoms,
  generatePaths F0 sigma T randoms
  = map (fun z => F0 * dexp (- dhalf * sigma * sigma * T + sigma * dsqrt T * z)) randoms.
Proof.
  intros Hstd randoms. unfold generatePaths. cbv zeta.
  rewrite Hstd, !map_map. reflexivity.
Qed.

Lemma generateAntitheticPaths_std : array_exp_is_std_exp -> forall randoms,
  generateAntitheticPaths F0 sigma T randoms
  = (map (fun z => F0 * dexp (- dhalf * sigma * sigma * T + sigma * dsqrt T * z)) randoms,
     map (fun z => F0 * dexp (- dhalf * sigma * sigma * T + sigma * dsqrt T * (- z)))
         randoms).
Proof.
  intros Hstd randoms. unfold generateAntitheticPaths. cbv zeta.
  rewrite !Hstd, !map_map. reflexivity.
Qed.

(** Where Eigen's exponential is [std::exp], the array branch computes what the
    scalar branch computes. *)
Lemma vectorBatch_afterDraws : array_exp_is_std_exp -> forall currentBatchSize st,
  (0 < currentBatchSize)%Z ->
  vectorBatch F0 K sigma T tp antithetic currentBatchSize st
  = afterDraws F0 K sigma T tp antithetic (Z.to_nat currentBatchSize) st.
Proof.
  intros Hstd cur st Hcur. unfold vectorBatch, afterDraws.
  destruct (drawNormals (Z.to_nat cur) (sim_rng st)) as [zs g] eqn:Hzs.
  cbn [fst snd].
  destruct (Z.to_nat cur) as [| n] eqn:Hn; [lia |].
  assert (Hof : Z.of_nat (S n) = cur) by lia. rewrite Hof.
  rewrite generateAntitheticPaths_std, generatePaths_std by exact Hstd.
  unfold pathsPerDraw, addPath.
  destruct antithetic; cbv zeta.
  - rewrite combine_map, fold_left_map. cbn [fst snd].
    rewrite wrap64_add_r. reflexivity.
  - rewrite fold_left_map. f_equal. f_equal. lia.
Qed.

(** Whatever Eigen's exponential returns, the array branch takes the draws the
    scalar branch takes and counts the same paths. *)
Lemma vectorBatch_same_draws : forall currentBatchSize st,
  (0 < currentBatchSize)%Z ->
  same_draws (vectorBatch F0 K sigma T tp antithetic currentBatchSize st)
             (afterDraws F0 K sigma T tp antithetic (Z.to_nat currentBatchSize) st).
Proof.
  intros cur st Hcur. unfold vectorBatch, afterDraws, same_draws.
  destruct (drawNormals (Z.to_nat cur) (sim_rng st)) as [zs g] eqn:Hzs.
  cbn [fst snd].
  destruct (Z.to_nat cur) as [| n] eqn:Hn; [lia |].
  assert (Hof : Z.of_nat (S n) = cur) by lia. rewrite Hof.
  unfold pathsPerDraw.
  destruct antithetic.
  - destruct (generateAntitheticPaths F0 sigma T zs) as [paths1 paths2].
    cbn [totalPaths sim_rng]. rewrite wrap64_add_r. split; reflexivity.
  - cbn [totalPaths sim_rng]. split; [f_equal; lia | reflexivity].
Qed.

Lemma drawNormals_app : forall a b g,
  drawNormals (a + b) g =
  (fst (drawNormals a g) ++ fst (drawNormals b (snd (drawNormals a g))),
   snd (drawNormals b (snd (drawNormals a g)))).
Proof.
  induction a as [| a IH]; intros b g.
  - cbn [Nat.add drawNormals fst snd app]. destruct (drawNormals b g). reflexivity.
  - cbn [Nat.add drawNormals]. destruct (rng_normal g) as [z g1].
    rewrite IH. destruct (drawNormals a g1) as [zs g2]. cbn [fst snd].
    destruct (drawNormals b g2). reflexivity.
Qed.

Lemma afterDraws_app : forall a b st,
  afterDraws F0 K sigma T tp antithetic b (afterDraws F0 K sigma T tp antithetic a st) = afterDraws F0 K sigma T tp antithetic (a + b) st.
Proof.
  intros a b st. unfold afterDraws. cbn [sim_rng payoffSum totalPaths].
  rewrite drawNormals_app. cbn [fst snd]. rewrite fold_left_app. f_equal.
  destruct a as [| a], b as [| b]; cbn [Nat.add]; try reflexivity.
  - rewrite Nat.add_0_r. reflexivity.
  - rewrite wrap64_add_l. f_equal. lia.
Qed.

Lemma afterDraws_same_draws : forall n a b,
  same_draws a b ->
  same_draws (afterDraws F0 K sigma T tp antithetic n a)
             (afterDraws F0 K sigma T tp antithetic n b).
Proof.
  intros n a b [Hpaths Hrng]. unfold same_draws, afterDraws.
  cbn [totalPaths sim_rng]. rewrite Hpaths, Hrng. split; reflexivity.
Qed.

(** The batch loop against one run of the scalar loop over all [N] draws, for
    a relation [related] that every batch keeps: equality where every path is
    computed with [std::exp], the same draws in any case. *)
Section BatchLoopInvariant.

Variable config : Config.
Variable related : SimState -> SimState -> Prop.

Hypothesis related_refl : forall st, related st st.
Hypothesis related_trans : forall a b c, related a b -> related b c -> related a c.
Hypothesis related_afterDraws : forall n a b,
  related a b ->
  related (afterDraws F0 K sigma T tp antithetic n a)
          (afterDraws F0 K sigma T tp antithetic n b).
Hypothesis related_batch : forall cur st,
  (0 < cur <= batchSize config)%Z ->
  related
    (if enableVectorization config && (1 <? cur)%Z
     then vectorBatch F0 K sigma T tp (useAntithetic config) cur st
     else scalarBatch F0 K sigma (- dhalf * sigma * sigma * T) (dsqrt T) tp
                      (useAntithetic config) (Z.to_nat cur) st)
    (afterDraws F0 K sigma T tp antithetic (Z.to_nat cur) st).

Lemma batchLoop_afterDraws : forall (N : Z) (fuel : nat) (batch : Z) st,
  (0 < batchSize config)%Z -> (N + batchSize config <= size_max)%Z ->
  (0 <= batch <= N)%Z -> (Z.to_nat (N - batch) < fuel)%nat ->
  exists st',
    batchLoop F0 K sigma T (- dhalf * sigma * sigma * T) (dsqrt T) tp N config fuel batch st
    = Some st' /\
    related st' (afterDraws F0 K sigma T tp antithetic (Z.to_nat (N - batch)) st).
Proof.
  intros N fuel. induction fuel as [| fuel IH]; intros batch st Hbs Hmax Hb Hfuel.
  - lia.
  - cbn [batchLoop]. destruct (Z.ltb_spec batch N) as [Hlt | Hge].
    + set (cur := Z.min (batchSize config) (N - batch)).
      assert (Hcur : (0 < cur <= batchSize config)%Z) by (unfold cur; lia).
      pose proof (related_batch st Hcur) as Hstep.
      set (st1 := if enableVectorization config && (1 <? cur)%Z
                  then vectorBatch F0 K sigma T tp (useAntithetic config) cur st
                  else scalarBatch F0 K sigma (- dhalf * sigma * sigma * T) (dsqrt T) tp
                                   (useAntithetic config) (Z.to_nat cur) st) in *.
      assert (Hnext : wrap64 (batch + batchSize config) = (batch + batchSize config)%Z)
        by (apply wrap64_small; unfold size_max in *; lia).
      rewrite Hnext.
      destruct (Z_lt_le_dec (batch + batchSize config) N) as [Hmore | Hlast].
      * destruct (IH (batch + batchSize config)%Z st1) as (st' & Hrun & Hrel);
          try assumption; try lia.
        exists st'. split; [exact Hrun |].
        eapply related_trans; [exact Hrel |].
        replace (Z.to_nat (N - batch))
          with (Z.to_nat cur + Z.to_nat (N - (batch + batchSize config)))%nat
          by (unfold cur; lia).
        rewrite <- afterDraws_app. apply related_afterDraws. exact Hstep.
      * destruct fuel as [| fuel']; [unfold cur in *; lia |].
        cbn [batchLoop].
        destruct (Z.ltb_spec (batch + batchSize config) N) as [Hcontra | _]; [lia |].
        exists st1. split; [reflexivity |].
        replace (Z.to_nat (N - batch)) with (Z.to_nat cur) by (unfold cur; lia).
        exact Hstep.
    + exists st. split; [reflexivity |].
      replace (Z.to_nat (N - batch)) with O by lia.
      replace (afterDraws F0 K sigma T tp antithetic 0 st) with st
        by (destruct st; reflexivity).
      apply related_refl.
Qed.

(** A batch size above [N]: one batch, and the counter does not wrap. *)
Lemma batchLoop_single : forall (N : Z) (fuel : nat) st,
  (0 <= N < batchSize config)%Z -> (batchSize config < size_max)%Z ->
  (Z.to_nat N < fuel)%nat ->
  exists st',
    batchLoop F0 K sigma T (- dhalf * sigma * sigma * T) (dsqrt T) tp N config fuel 0 st
    = Some st' /\
    related st' (afterDraws F0 K sigma T tp antithetic (Z.to_nat N) st).
Proof.
  intros N fuel st HN Hbs Hfuel.
  destruct fuel as [| fuel]; [lia |]. cbn [batchLoop].
  destruct (Z.ltb_spec 0 N) as [Hpos | Hzero].
  - destruct fuel as [| fuel]; [lia |]. cbn [batchLoop].
    replace (N - 0)%Z with N by lia.
    rewrite (Z.min_r (batchSize config) N) by lia.
    rewrite Z.add_0_l. rewrite wrap64_small by (unfold size_max in *; lia).
    destruct (Z.ltb_spec (batchSize config) N) as [Hcontra | _]; [lia |].
    eexists. split; [reflexivity |]. apply related_batch. lia.
  - exists st. split; [reflexivity |].
    replace (Z.to_nat N) with O by lia.
    replace (afterDraws F0 K sigma T tp antithetic 0 st) with st
      by (destruct st; reflexivity).
    apply related_refl.
Qed.

(** The whole loop, for a positive batch size and at most 2^63 paths. *)
Lemma batchLoop_from_start : forall (N : Z) (fuel : nat) st,
  (0 <= N <= 2 ^ 63)%Z -> (0 < batchSize config < size_max)%Z ->
  (Z.to_nat N < fuel)%nat ->
  exists st',
    batchLoop F0 K sigma T (- dhalf * sigma * sigma * T) (dsqrt T) tp N config fuel 0 st
    = Some st' /\
    related st' (afterDraws F0 K sigma T tp antithetic (Z.to_nat N) st).
Proof.
  intros N fuel st HN Hbs Hfuel.
  destruct (Z_le_gt_dec (batchSize config) N) as [Hle | Hgt].
  - pose proof (@batchLoop_afterDraws N fuel 0%Z st) as H.
    rewrite Z.sub_0_r in H. apply H; unfold size_max in *; lia.
  - apply batchLoop_single; lia.
Qed.

End BatchLoopInvariant.

(** Every path by [std::exp]: the loop is the scalar loop over all [N] draws. *)
Lemma batchLoop_std : forall (config : Config) (N : Z) (fuel : nat) st,
  std_exp_only config -> useAntithetic config = antithetic ->
  (0 <= N <= 2 ^ 63)%Z -> (0 < batchSize config < size_max)%Z ->
  (Z.to_nat N < fuel)%nat ->
  batchLoop F0 K sigma T (- dhalf * sigma * sigma * T) (dsqrt T) tp N config fuel 0 st
  = Some (afterDraws F0 K sigma T tp antithetic (Z.to_nat N) st).
Proof.
  intros config N fuel st Hstd Hanti HN Hbs Hfuel.
  destruct (@batchLoop_from_start config eq) with (N := N) (fuel := fuel) (st := st)
    as (st' & Hrun & Heq); try assumption.
  - reflexivity.
  - intros a b c Hab Hbc. congruence.
  - intros n a b Hab. congruence.
  - intros cur st0 Hcur. rewrite Hanti.
    destruct (enableVectorization config && (1 <? cur)%Z) eqn:Hbranch.
    + destruct Hstd as [Hoff | [Hone | Hagree]].
      * rewrite Hoff in Hbranch. discriminate.
      * apply andb_true_iff in Hbranch. destruct Hbranch as [_ Hbig].
        apply Z.ltb_lt in Hbig. lia.
      * apply vectorBatch_afterDraws; [assumption | lia].
    + apply scalarBatch_afterDraws.
  - rewrite Hrun, Heq. reflexivity.
Qed.

(** In any case the loop returns, with the draws and the path count of the
    scalar loop. *)
Lemma batchLoop_same_draws : forall (config : Config) (N : Z) (fuel : nat) st,
  useAntithetic config = antithetic ->
  (0 <= N <= 2 ^ 63)%Z -> (0 < batchSize config < size_max)%Z ->
  (Z.to_nat N < fuel)%nat ->
  exists st',
    batchLoop F0 K sigma T (- dhalf * sigma * sigma * T) (dsqrt T) tp N config fuel 0 st
    = Some st' /\
    same_draws st' (afterDraws F0 K sigma T tp antithetic (Z.to_nat N) st).
Proof.
  intros config N fuel st Hanti HN Hbs Hfuel.
  apply (@batchLoop_from_start config same_draws); try assumption.
  - intro a. split; reflexivity.
  - intros a b c [H1 H2] [H3 H4]. split; congruence.
  - apply afterDraws_same_draws.
  - intros cur st0 Hcur. rewrite Hanti.
    destruct (enableVectorization config && (1 <? cur)%Z).
    + apply vectorBatch_same_draws. lia.
    + rewrite scalarBatch_afterDraws. split; reflexivity.
Qed.

End BatchingGeneric.

(** In exact arithmetic Eigen's exponential is the exponential. *)
Lemma R_array_exp_is_std_exp : @array_exp_is_std_exp R R_libm.
Proof. intro xs. reflexivity. Qed.

Lemma simulateVectorized_simulateScalar :
  forall (D : Type) (ops : DoubleOps D) (lm : Libm D) (src : NormalSource D)
         (F0 K sigma T df : D) (tp : OptionType) (N : Z) (config : Config) (g : rng)
         (fuel : nat),
  std_exp_only config ->
  (0 <= N <= 2 ^ 63)%Z -> (0 < batchSize config < size_max)%Z ->
  (Z.to_nat N < fuel)%nat ->
  simulateVectorized fuel F0 K sigma T df tp N config g
  = Some (simulateScalar F0 K sigma T df tp N (useAntithetic config) g).
Proof.
  intros D ops lm src F0 K sigma T df tp N config g fuel Hstd HN Hbs Hfuel.
  unfold simulateVectorized, simulateScalar.
  destruct (T <=? d0)%D; [reflexivity |]. cbv zeta.
  rewrite (@batchLoop_std D ops lm src F0 K sigma T tp (useAntithetic config))
    by (try assumption; reflexivity).
  rewrite scalarBatch_afterDraws. reflexivity.
Qed.

(** What [simulateVectorized] does in any case: it returns, and leaves the
    generator after the first [N] draws (untouched for an expired option). *)
Lemma simulateVectorized_returns :
  forall (D : Type) (ops : DoubleOps D) (lm : Libm D) (src : NormalSource D)
         (F0 K sigma T df : D) (tp : OptionType) (N : Z) (config : Config) (g : rng)
         (fuel : nat),
  (0 <= N <= 2 ^ 63)%Z -> (0 < batchSize config < size_max)%Z ->
  (Z.to_nat N < fuel)%nat ->
  exists v : D,
    simulateVectorized fuel F0 K sigma T df tp N config g
    = Some (v, if (T <=? d0)%D then g else snd (drawNormals (Z.to_nat N) g)).
Proof.
  intros D ops lm src F0 K sigma T df tp N config g fuel HN Hbs Hfuel.
  unfold simulateVectorized.
  destruct (T <=? d0)%D; [eexists; reflexivity |]. cbv zeta.
  destruct (@batchLoop_same_draws D ops lm src F0 K sigma T tp (useAntithetic config)
              config N fuel {| payoffSum := d0; totalPaths := 0; sim_rng := g |})
    as (st' & Hrun & _ & Hrng); try assumption; try reflexivity.
  rewrite Hrun. cbn [afterDraws sim_rng] in Hrng. rewrite Hrng.
  eexists. reflexivity.
Qed.




(** C10. [mcPrice] returns what [mcPriceAdvanced] returns on the
    default-constructed [Config] (batch size 8000, antithetic variates on, seed
    42, vectorization on): both seed a fresh generator from the configuration's
    seed and call [simulateVectorized]; for a path count in range both return
    that same value. *)
Theorem mcPrice_is_mcPriceAdvanced_default :
  forall (D : Type) (ops : DoubleOps D) (lm : Libm D) (src : NormalSource D)
         (fuel : nat) (F0 K sigma T df : D) (tp : OptionType) (N : Z),
  mcPrice fuel F0 K sigma T df tp N
    = mcPriceAdvanced fuel F0 K sigma T df tp N Config_default /\
  Config_default
    = {| batchSize := 8000; useAntithetic := true; randomSeed := 42;
         enableVectorization := true |} /\
  mcPrice fuel F0 K sigma T df tp N
    = option_map fst
        (simulateVectorized fuel F0 K sigma T df tp N Config_default (rng_seed 42)) /\
  (forall config : Config,
     mcPriceAdvanced fuel F0 K sigma T df tp N config
     = option_map fst
         (simulateVectorized fuel F0 K sigma T df tp N config
            (rng_seed (randomSeed config)))) /\
  ((0 <= N <= 2 ^ 63)%Z -> (Z.to_nat N < fuel)%nat ->
   exists v : D,
     mcPrice fuel F0 K sigma T df tp N = Some v /\
     mcPriceAdvanced fuel F0 K sigma T df tp N Config_default = Some v).
Proof.
  intros D ops lm src fuel F0 K sigma T df tp N.
  repeat (split; [reflexivity |]).
  intros HN Hfuel. unfold mcPrice, mcPriceAdvanced. cbv zeta.
  destruct (@simulateVectorized_returns D ops lm src F0 K sigma T df tp N Config_default
              (rng_seed (randomSeed Config_default)) fuel) as [v Hv];
    [ assumption | cbn [batchSize Config_default]; unfold size_max; lia | assumption | ].
  rewrite Hv. exists v. split; reflexivity.
Qed.

Lemma mcPrice_is_mcPriceAdvanced_default_witness :
  exists v : R,
    mcPrice (src := counting_source_R) 4 (13 / 10)%R (5 / 4)%R (1 / 5)%R 1%R (19 / 20)%R
      Call 3 = Some v /\
    mcPriceAdvanced (src := counting_source_R) 4 (13 / 10)%R (5 / 4)%R (1 / 5)%R 1%R
      (19 / 20)%R Call 3 Config_default = Some v.
Proof.
  refine (proj2 (proj2 (proj2 (proj2
    (@mcPrice_is_mcPriceAdvanced_default R R_ops R_libm counting_source_R 4%nat
       (13 / 10)%R (5 / 4)%R (1 / 5)%R 1%R (19 / 20)%R Call 3)))) _ _);
    lia.
Defined.

(** ** Monte Carlo: expired options *)

(** The price-returning entry points return the discounted intrinsic payoff of
    an expired option at once, and leave the generator as it was. *)
Lemma simulateVectorized_expired :
  forall (D : Type) (ops : DoubleOps D) (lm : Libm D) (src : NormalSource D)
         (fuel : nat) (F0 K sigma T df : D) (tp : OptionType) (N : Z)
         (config : Config) (g : rng),
  (T <=? d0)%D = true ->
  simulateVectorized fuel F0 K sigma T df tp N config g
    = Some ((df * payoff F0 K tp)%D, g) /\
  mcPrice fuel F0 K sigma T df tp N = Some (df * payoff F0 K tp)%D /\
  mcPriceAdvanced fuel F0 K sigma T df tp N config = Some (df * payoff F0 K tp)%D.
Proof.
  intros D ops lm src fuel F0 K sigma T df tp N config g HT.
  unfold mcPrice, mcPriceAdvanced, simulateVectorized. rewrite HT.
  repeat split; reflexivity.
Qed.

(** C6, at failing inputs.  F0 = 1.3, K = 1.25, sigma = 0.2, df = 0.95, a call,
    N = 2, the default configuration, in binary64 with any <cmath> and any
    Eigen.  At T = 0 and at T = -1 [simulateVectorized] returns
    df * max(F0 - K, 0) and draws nothing.  [mcPriceWithStats] has no test on
    T: at T = 0 it draws two normal variates and simulates; at T = -1 the
    square root of T is a NaN, so every exponent is a NaN, and with an
    exponential that maps NaN to NaN (Eigen's in the default configuration,
    which takes the array branch, [std::exp] with the array branch off) its
    price is a NaN, where the discounted intrinsic payoff is a number. *)
Theorem mcPriceWithStats_expired_simulates :
  forall lm : Libm float,
  let F0 := float_lit (13 # 10) in
  let K := float_lit (5 # 4) in
  let sigma := float_lit (1 # 5) in
  let df := float_lit (19 # 20) in
  simulateVectorized (src := counting_source_float) 3 F0 K sigma 0%float df Call 2
    Config_default O
    = Some (PrimFloat.mul df (dmax (PrimFloat.sub F0 K) 0%float), O) /\
  simulateVectorized (src := counting_source_float) 3 F0 K sigma (-1)%float df Call 2
    Config_default O
    = Some (PrimFloat.mul df (dmax (PrimFloat.sub F0 K) 0%float), O) /\
  option_map snd
    (mcPriceWithStats_run (src := counting_source_float) 3 F0 K sigma 0%float df Call 2
       Config_default)
    = Some 2%nat /\
  (array_exp [nan; nan] = [nan; nan] ->
   option_map (fun r => PrimFloat.is_nan (price r))
     (mcPriceWithStats (src := counting_source_float) 3 F0 K sigma (-1)%float df Call 2
        Config_default)
   = Some true) /\
  (dexp nan = nan ->
   option_map (fun r => PrimFloat.is_nan (price r))
     (mcPriceWithStats (src := counting_source_float) 3 F0 K sigma (-1)%float df Call 2
        {| batchSize := 8000; useAntithetic := true; randomSeed := 42;
           enableVectorization := false |})
   = Some true) /\
  PrimFloat.is_nan (PrimFloat.mul df (dmax (PrimFloat.sub F0 K) 0%float)) = false.
Proof.
  intro lm. cbv zeta.
  split; [vm_compute; reflexivity |].
  split; [vm_compute; reflexivity |].
  split; [lazy; reflexivity |].
  split.
  { intro Hexp. destruct lm as [e l p f ae Hae]. cbn [array_exp] in Hexp.
    vm_compute in Hexp.
    unfold mcPriceWithStats, mcPriceWithStats_run. cbv zeta.
    match goal with
    | |- context [@statsBatchLoop _ _ ?lm0 _ ?F0 ?K ?sigma ?T ?drift ?sqrtT Call 2%Z
                    Config_default 3 0%Z ?st] =>
        replace (@statsBatchLoop _ _ lm0 _ F0 K sigma T drift sqrtT Call 2%Z
                   Config_default 3 0%Z st)
          with (Some (statsVectorBatch (lm := lm0) (src := counting_source_float)
                        F0 K sigma T Call true 2%Z st))
          by reflexivity
    end.
    unfold statsVectorBatch.
    match goal with
    | |- context [drawNormals ?n ?g] =>
        let v := eval vm_compute in (drawNormals n g) in change (drawNormals n g) with v
    end.
    unfold generateAntitheticPaths. cbv zeta. cbn [array_exp].
    repeat match goal with
    | |- context [ae (map ?f ?l)] =>
        let v := eval vm_compute in (map f l) in change (map f l) with v
    end.
    rewrite Hexp. vm_compute. reflexivity. }
  split; [| vm_compute; reflexivity].
  intro Hexp. destruct lm as [e l p f ae Hae]. cbn [dexp] in Hexp. vm_compute in Hexp.
  vm_compute. rewrite Hexp. vm_compute. reflexivity.
Qed.

(** * Further properties *)

(** ** Discount curves: positivity, forward prices, repricing of the quotes *)

Lemma lower_bound_le : forall (D : Type) (ops : DoubleOps D) (l : list (ZeroQuote D)) t,
  (lower_bound l t <= length l)%nat.
Proof.
  intros D ops l t. induction l as [| q l IH]; simpl; [lia |].
  destruct (zq_time q <? t)%D; lia.
Qed.

(** With positive stored factors, [df] of a bootstrapped curve is positive at
    every time. *)
Lemma DiscountCurve_df_boot_pos : forall (c : DiscountCurve R) (t : R),
  boot_ c <> [] -> Forall (fun q => 0 < zq_df q)%R (boot_ c) ->
  exists d : R, DiscountCurve_df c t = Ok d /\ (0 < d)%R.
Proof.
  intros c t Hne Hpos. unfold DiscountCurve_df.
  change (disnan t || disinf t) with false. cbv iota.
  destruct (boot_ c) as [| q0 rest] eqn:Hboot; [congruence |].
  rewrite Forall_forall in Hpos.
  destruct (t <=? d0)%D.
  { exists d1. split; [reflexivity |]. rewrite R_d1. lra. }
  cbv zeta.
  pose proof (@lower_bound_le R R_ops (q0 :: rest) t) as Hle.
  set (it := lower_bound (q0 :: rest) t) in *.
  destruct (Nat.eqb it 0) eqn:E0.
  { exists (zq_df q0). split; [reflexivity |]. apply Hpos. left. reflexivity. }
  destruct (Nat.eqb it (length (q0 :: rest))) eqn:E1.
  { eexists. split; [reflexivity |]. apply Hpos.
    destruct (exists_last (l := q0 :: rest)) as (l' & a & Hl); [discriminate |].
    rewrite Hl. rewrite last_last. apply in_or_app. right. left. reflexivity. }
  apply Nat.eqb_neq in E0, E1.
  assert (Hprev : (0 < zq_df (nth (it - 1) (q0 :: rest) q0))%R)
    by (apply Hpos; apply nth_In; lia).
  assert (Hcur : (0 < zq_df (nth it (q0 :: rest) q0))%R)
    by (apply Hpos; apply nth_In; lia).
  assert (H0a : dleb (zq_df (nth (it - 1) (q0 :: rest) q0)) d0 = false)
    by (to_R; apply Rleb_false; assumption).
  assert (H0b : dleb (zq_df (nth it (q0 :: rest) q0)) d0 = false)
    by (to_R; apply Rleb_false; assumption).
  rewrite H0a, H0b. cbn [orb].
  destruct (zq_time (nth it (q0 :: rest) q0) ==? zq_time (nth (it - 1) (q0 :: rest) q0))%D.
  - eexists. split; [reflexivity | assumption].
  - eexists. split; [reflexivity |]. apply exp_pos.
Qed.

Lemma DiscountCurve_fwdBondPrice_of_df : forall (c : DiscountCurve R) (t d : R),
  DiscountCurve_df c t = Ok d -> (0 < d)%R ->
  DiscountCurve_fwdBondPrice c t = Ok (1 / d)%R.
Proof.
  intros c t d Hd Hpos. unfold DiscountCurve_fwdBondPrice. rewrite Hd. cbn [bind].
  unfold dgtb. to_R. rewrite (proj2 (Rltb_true _ _)) by lra. reflexivity.
Qed.

(** X1. [fwdBondPrice] fails exactly when [df] does: on a NaN or infinite time,
    with InvalidArgument.  Over the reals, on a curve made by the bootstrapped
    constructor, [df] is positive at every time, the forward price is its
    reciprocal, and it is 1 for [t <= 0]. *)
Theorem DiscountCurve_fwdBondPrice_spec :
  (forall (D : Type) (ops : DoubleOps D) (lm : Libm D) (c : DiscountCurve D) (t : D),
     (DiscountCurve_fwdBondPrice c t = Err InvalidArgument
      <-> (disnan t || disinf t) = true) /\
     DiscountCurve_fwdBondPrice c t <> Err RootNotBracketed)
  /\
  (forall (quotes : list (ZeroQuote R)) (c : DiscountCurve R) (t : R),
     DiscountCurve_boot quotes = Ok c ->
     (exists d : R,
        DiscountCurve_df c t = Ok d /\ (0 < d)%R /\
        DiscountCurve_fwdBondPrice c t = Ok (1 / d)%R) /\
     ((t <= 0)%R -> DiscountCurve_fwdBondPrice c t = Ok 1%R)).
Proof.
  split.
  - intros D ops lm c t. unfold DiscountCurve_fwdBondPrice.
    destruct (DiscountCurve_df c t) as [d | e] eqn:Hd; cbn [bind].
    + split; [| discriminate].
      split; [discriminate |]. intro Hbad.
      assert (Hf : DiscountCurve_df c t = Err InvalidArgument)
        by (apply DiscountCurve_df_Err; split; [reflexivity | assumption]).
      congruence.
    + apply DiscountCurve_df_Err in Hd. destruct Hd as [He Hbad]. subst e.
      split; [tauto | discriminate].
  - intros quotes c t Hc.
    destruct (@DiscountCurve_boot_real quotes c Hc) as (Hpos & _ & _).
    assert (Hne : boot_ c <> []).
    { apply DiscountCurve_boot_Ok in Hc. destruct Hc as (Hq & _ & ->). simpl.
      intro Hs. apply Hq. apply Permutation_nil. apply Permutation_sym.
      rewrite <- Hs. apply sort_quotes_perm. }
    assert (Hdf : Forall (fun q => 0 < zq_df q)%R (boot_ c))
      by (eapply Forall_impl; [| exact Hpos]; intros q [_ Hq]; exact Hq).
    destruct (DiscountCurve_df_boot_pos c t Hne Hdf) as (d & Hd & Hdpos).
    split.
    + exists d. split; [assumption |]. split; [assumption |].
      apply DiscountCurve_fwdBondPrice_of_df; assumption.
    + intro Ht.
      rewrite (@DiscountCurve_fwdBondPrice_of_df c t 1%R); [f_equal; lra | | lra].
      rewrite DiscountCurve_df_nonpositive;
        [to_R; reflexivity | reflexivity | to_R; apply Rleb_true; assumption].
Qed.

Lemma StronglySorted_lt_adjacent : forall (l1 : list (ZeroQuote R)) qa qb l2,
  StronglySorted time_lt (l1 ++ qa :: qb :: l2) -> (zq_time qa < zq_time qb)%R.
Proof.
  induction l1 as [| h tl IH]; intros qa qb l2 Hs.
  - simpl in Hs. inversion Hs as [| ? ? _ Hall]; subst.
    inversion Hall; subst. assumption.
  - simpl in Hs. inversion Hs; subst. eapply IH. eassumption.
Qed.

(** X2. A curve built from quotes with pairwise distinct times gives back every
    quote: [df] at a quote's time is that quote's discount factor (over the
    reals). *)
Theorem DiscountCurve_reprices_quotes :
  forall (quotes : list (ZeroQuote R)) (c : DiscountCurve R) (q : ZeroQuote R),
  DiscountCurve_boot quotes = Ok c ->
  NoDup (map (@zq_time R) quotes) ->
  In q quotes ->
  DiscountCurve_df c (zq_time q) = Ok (zq_df q).
Proof.
  intros quotes c q Hc Hnd Hin.
  destruct (@DiscountCurve_boot_real quotes c Hc) as (Hpos & Hle & Hstrict).
  specialize (Hstrict Hnd).
  assert (Hin' : In q (boot_ c)).
  { apply DiscountCurve_boot_Ok in Hc. destruct Hc as (_ & _ & ->). simpl.
    eapply Permutation_in; [apply sort_quotes_perm | exact Hin]. }
  rewrite Forall_forall in Hpos.
  destruct (Hpos q Hin') as [Htq Hdq].
  destruct (in_split q (boot_ c) Hin') as (l1 & l2 & Hboot).
  destruct l1 as [| h tl] using rev_ind.
  - eapply DiscountCurve_df_first; [exact Hboot | lra].
  - clear IHtl. rename h into qa. rewrite <- app_assoc in Hboot. simpl in Hboot.
    assert (Hqa : (0 < zq_time qa /\ 0 < zq_df qa)%R).
    { apply Hpos. rewrite Hboot. apply in_or_app. right. left. reflexivity. }
    assert (Hlt : (zq_time qa < zq_time q)%R).
    { rewrite Hboot in Hstrict. eapply StronglySorted_lt_adjacent. exact Hstrict. }
    rewrite (@DiscountCurve_df_between c tl qa q l2 (zq_time q));
      try assumption; try tauto; try lra.
    f_equal.
    replace ((zq_time q - zq_time qa) / (zq_time q - zq_time qa))%R with 1%R
      by (field; lra).
    replace (ln (zq_df qa) + 1 * (ln (zq_df q) - ln (zq_df qa)))%R
      with (ln (zq_df q)) by ring.
    apply exp_ln. assumption.
Qed.

(** The quotes of scenario C: the curve returns 0.95 at one year. *)
Lemma DiscountCurve_reprices_quotes_witness :
  DiscountCurve_df
    {| y_ := d0; m_ := Continuous; dc_ := ACT_365F; boot_ := scenarioC_quotes |} 1%R
  = Ok (95 / 100)%R.
Proof.
  apply (@DiscountCurve_reprices_quotes scenarioC_quotes _ (rq 1 (95 / 100))%R).
  - apply scenarioC_boot.
  - unfold scenarioC_quotes. simpl.
    repeat constructor; simpl; intuition lra.
  - unfold scenarioC_quotes. simpl. auto.
Defined.

(** X3. Between two adjacent quotes the interpolated discount factor lies
    between the two quoted factors (over the reals). *)
Theorem DiscountCurve_df_between_quotes :
  forall (quotes : list (ZeroQuote R)) (c : DiscountCurve R) l1 qa qb l2 (t : R),
  DiscountCurve_boot quotes = Ok c ->
  boot_ c = l1 ++ qa :: qb :: l2 ->
  (zq_time qa < t < zq_time qb)%R ->
  exists d : R,
    DiscountCurve_df c t = Ok d /\
    (Rmin (zq_df qa) (zq_df qb) <= d <= Rmax (zq_df qa) (zq_df qb))%R.
Proof.
  intros quotes c l1 qa qb l2 t Hc Hboot [Hlo Hhi].
  destruct (@DiscountCurve_boot_real quotes c Hc) as (Hpos & Hle & _).
  rewrite Forall_forall in Hpos.
  assert (Hqa : (0 < zq_time qa /\ 0 < zq_df qa)%R).
  { apply Hpos. rewrite Hboot. apply in_or_app. right. left. reflexivity. }
  assert (Hqb : (0 < zq_time qb /\ 0 < zq_df qb)%R).
  { apply Hpos. rewrite Hboot. apply in_or_app. right. right. left. reflexivity. }
  eexists. split.
  { apply (@DiscountCurve_df_between c l1 qa qb l2 t); try assumption; try tauto; lra. }
  set (w := ((t - zq_time qa) / (zq_time qb - zq_time qa))%R).
  assert (Hw : (0 < w < 1)%R).
  { unfold w. split.
    - apply Rdiv_lt_0_compat; lra.
    - apply (Rmult_lt_reg_r (zq_time qb - zq_time qa)); [lra |].
      unfold Rdiv. rewrite Rmult_assoc, Rinv_l by lra. lra. }
  set (a := zq_df qa) in *. set (b := zq_df qb) in *.
  assert (Hea : exp (ln a) = a) by (apply exp_ln; tauto).
  assert (Heb : exp (ln b) = b) by (apply exp_ln; tauto).
  assert (Hmono : forall x y : R, (x <= y)%R -> (exp x <= exp y)%R).
  { intros x y [Hxy | ->]; [left; apply exp_increasing; assumption | right; reflexivity]. }
  destruct (Rle_dec a b) as [Hab | Hba].
  - rewrite Rmin_left, Rmax_right by assumption.
    assert (Hln : (ln a <= ln b)%R).
    { destruct Hab as [Hab | ->]; [left; apply ln_increasing; tauto | right; reflexivity]. }
    assert (H1 : (exp (ln a) <= exp (ln a + w * (ln b - ln a)))%R) by (apply Hmono; nra).
    assert (H2 : (exp (ln a + w * (ln b - ln a)) <= exp (ln b))%R) by (apply Hmono; nra).
    rewrite Hea in H1. rewrite Heb in H2. split; assumption.
  - rewrite Rmin_right, Rmax_left by lra.
    assert (Hln : (ln b <= ln a)%R) by (left; apply ln_increasing; [tauto | lra]).
    assert (H1 : (exp (ln b) <= exp (ln a + w * (ln b - ln a)))%R) by (apply Hmono; nra).
    assert (H2 : (exp (ln a + w * (ln b - ln a)) <= exp (ln a))%R) by (apply Hmono; nra).
    rewrite Heb in H1. rewrite Hea in H2. split; assumption.
Qed.

(** Scenario C at 1.5 years: between 0.90 and 0.95. *)
Lemma DiscountCurve_df_between_quotes_witness :
  exists d : R,
    DiscountCurve_df
      {| y_ := d0; m_ := Continuous; dc_ := ACT_365F; boot_ := scenarioC_quotes |}
      (3 / 2)%R = Ok d /\
    (Rmin (95 / 100) (9 / 10) <= d <= Rmax (95 / 100) (9 / 10))%R.
Proof.
  apply (@DiscountCurve_df_between_quotes scenarioC_quotes _
           [rq (1 / 2) (98 / 100)]%R (rq 1 (95 / 100))%R (rq 2 (9 / 10))%R [] (3 / 2)%R).
  - apply scenarioC_boot.
  - reflexivity.
  - simpl. lra.
Defined.

(** ** Cash-flow schedules *)

Lemma to_int_small : forall z : Z, (- 2 ^ 31 <= z < 2 ^ 31)%Z -> to_int z = z.
Proof.
  intros z Hz. unfold to_int. rewrite Z.mod_small by lia. lia.
Qed.

Section ScheduleGeneric.
Context {D : Type} {ops : DoubleOps D} {rd : Rounding D}.
Local Open Scope double_scope.

Lemma couponPayments_length : forall couponAmount timeStep maturityYears total count i,
  length (couponPayments couponAmount timeStep maturityYears total count i) = count.
Proof.
  intros ca ts mat total count. induction count as [| n IH]; intro i; simpl;
    [reflexivity | rewrite IH; reflexivity].
Qed.

Lemma couponPayments_nth :
  forall couponAmount timeStep maturityYears total count i k d,
  (k < count)%nat ->
  nth k (couponPayments couponAmount timeStep maturityYears total count i) d
  = {| cf_time := if (i + Z.of_nat k =? total)%Z then maturityYears
                  else dint (i + Z.of_nat k) * timeStep;
       cf_amount := couponAmount |}.
Proof.
  intros ca ts mat total count. induction count as [| n IH]; intros i k d Hk; [lia |].
  destruct k as [| k]; cbn [couponPayments nth].
  - rewrite Z.add_0_r. reflexivity.
  - rewrite IH by lia. replace (i + 1 + Z.of_nat k)%Z with (i + Z.of_nat (S k))%Z by lia.
    reflexivity.
Qed.

Lemma addToBack_length : forall face (l : list (CashFlow D)),
  length (addToBack face l) = length l.
Proof.
  intros face l. induction l as [| cf [| cf' rest] IH]; try reflexivity.
  change (addToBack face (cf :: cf' :: rest)) with (cf :: addToBack face (cf' :: rest)).
  cbn [length] in *. rewrite IH. reflexivity.
Qed.

Lemma addToBack_nth : forall face (l : list (CashFlow D)) k d,
  (S k < length l)%nat -> nth k (addToBack face l) d = nth k l d.
Proof.
  intros face l. induction l as [| cf [| cf' rest] IH]; intros k d Hk.
  - simpl in Hk. lia.
  - simpl in Hk. lia.
  - change (addToBack face (cf :: cf' :: rest)) with (cf :: addToBack face (cf' :: rest)).
    destruct k as [| k]; [reflexivity |]. cbn [nth]. apply IH. simpl in *. lia.
Qed.

Lemma addToBack_last : forall face (l : list (CashFlow D)) d,
  l <> [] ->
  last (addToBack face l) d
  = {| cf_time := cf_time (last l d); cf_amount := cf_amount (last l d) + face |}.
Proof.
  intros face l d. induction l as [| cf [| cf' rest] IH]; intro Hne.
  - congruence.
  - reflexivity.
  - change (addToBack face (cf :: cf' :: rest)) with (cf :: addToBack face (cf' :: rest)).
    change (last (cf :: cf' :: rest) d) with (last (cf' :: rest) d).
    rewrite <- IH by discriminate.
    destruct (addToBack face (cf' :: rest)) eqn:E; [| reflexivity].
    pose proof (addToBack_length face (cf' :: rest)) as Hl. rewrite E in Hl. discriminate.
Qed.

Lemma last_nth : forall (A : Type) (l : list A) (d : A),
  last l d = nth (length l - 1) l d.
Proof.
  intros A l d. induction l as [| a [| b rest] IH]; try reflexivity.
  change (last (a :: b :: rest) d) with (last (b :: rest) d). rewrite IH.
  cbn [length]. replace (S (S (length rest)) - 1)%nat with (S (length rest)) by lia.
  cbn [nth]. replace (S (length rest) - 1)%nat with (length rest) by lia. reflexivity.
Qed.

Lemma bulletSchedule_cases : forall face cpnRate couponPerYear maturityYears,
  let couponAmount := (cpnRate * face) / dint couponPerYear in
  let timeStep := d1 / dint couponPerYear in
  let totalPayments := to_int (dlround (maturityYears * dint couponPerYear)) in
  let cashFlows :=
    couponPayments couponAmount timeStep maturityYears totalPayments
      (Z.to_nat totalPayments) 1 in
  bulletSchedule face cpnRate couponPerYear maturityYears
  = if bulletSchedule_rejects face cpnRate couponPerYear maturityYears
    then Err InvalidArgument
    else Ok (match cashFlows with
             | [] => [ {| cf_time := maturityYears; cf_amount := face |} ]
             | _ :: _ => addToBack face cashFlows
             end).
Proof.
  intros face cpnRate cpy mat. cbv zeta.
  unfold bulletSchedule, bulletSchedule_rejects.
  destruct (disnan face); [reflexivity |].
  destruct (disinf face); [reflexivity |].
  destruct (disnan cpnRate); [reflexivity |].
  destruct (disinf cpnRate); [reflexivity |].
  destruct (disnan mat); [reflexivity |].
  destruct (disinf mat); [reflexivity |].
  destruct (mat <=? d0); [reflexivity |].
  destruct (cpy <=? 0)%Z; [reflexivity |].
  destruct (face <=? d0); [reflexivity |].
  cbn [orb].
  destruct (couponPayments _ _ _ _ _ _); reflexivity.
Qed.

End ScheduleGeneric.

(** X4. [bulletSchedule] fails, with InvalidArgument, exactly when the face
    value, the coupon rate or the maturity is NaN or infinite, the maturity or
    the face value is not above 0, or the coupon frequency is not positive (a
    negative coupon rate is accepted), and what it returns is never empty.
    For every interpretation of the arithmetic. *)
Theorem bulletSchedule_fails_iff :
  forall (D : Type) (ops : DoubleOps D) (rd : Rounding D)
         (face cpnRate : D) (couponPerYear : Z) (maturityYears : D),
  (bulletSchedule face cpnRate couponPerYear maturityYears = Err InvalidArgument <->
   ((disnan face || disinf face) = true \/
    (disnan cpnRate || disinf cpnRate) = true \/
    (disnan maturityYears || disinf maturityYears) = true \/
    (maturityYears <=? d0)%D = true \/
    (couponPerYear <= 0)%Z \/
    (face <=? d0)%D = true)) /\
  bulletSchedule face cpnRate couponPerYear maturityYears <> Err RootNotBracketed /\
  bulletSchedule face cpnRate couponPerYear maturityYears <> Ok [].
Proof.
  intros D ops rd face cpnRate cpy mat.
  rewrite bulletSchedule_cases. unfold bulletSchedule_rejects.
  assert (Hcpy : (cpy <=? 0)%Z = true <-> (cpy <= 0)%Z) by apply Z.leb_le.
  destruct (disnan face), (disinf face), (disnan cpnRate), (disinf cpnRate),
    (disnan mat), (disinf mat), (mat <=? d0)%D, (cpy <=? 0)%Z, (face <=? d0)%D;
    cbn [orb];
    (split; [| split; [discriminate |]]);
    try (split; [intros _ | reflexivity]; tauto);
    try discriminate.
  - split; [discriminate |].
    intros [H | [H | [H | [H | [H | H]]]]]; try discriminate.
    apply Hcpy in H. discriminate.
  - destruct (couponPayments _ _ _ _ _ _) as [| cf l] eqn:E; [discriminate |].
    intro H.
    apply (f_equal (fun r => match r with Ok x => length x | Err _ => O end)) in H.
    rewrite addToBack_length in H. discriminate.
Qed.

(** X5. What a schedule looks like, for every interpretation of the
    arithmetic.  With [n] the rounded number of payments [lround(maturity *
    couponPerYear)], the schedule has [max(1, n)] cash flows; the last one is
    at the maturity itself, not at a computed multiple of the period, and
    carries the face value on top of the coupon (the face value alone when
    [n < 1]); every earlier one is a coupon at [i * (1 / couponPerYear)]. *)
Theorem bulletSchedule_shape :
  forall (D : Type) (ops : DoubleOps D) (rd : Rounding D)
         (face cpnRate : D) (couponPerYear : Z) (maturityYears : D)
         (cfs : list (CashFlow D)),
  bulletSchedule face cpnRate couponPerYear maturityYears = Ok cfs ->
  let n := to_int (dlround (maturityYears * dint couponPerYear)%D) in
  let coupon := (cpnRate * face / dint couponPerYear)%D in
  length cfs = Z.to_nat (Z.max 1 n) /\
  (forall d, cf_time (last cfs d) = maturityYears) /\
  (forall d, cf_amount (last cfs d) = if (1 <=? n)%Z then (coupon + face)%D else face) /\
  (forall k d, (S k < length cfs)%nat ->
     nth k cfs d = {| cf_time := (dint (Z.of_nat (S k)) * (d1 / dint couponPerYear))%D;
                      cf_amount := coupon |}).
Proof.
  intros D ops rd face cpnRate cpy mat cfs H n coupon.
  rewrite bulletSchedule_cases in H.
  destruct (bulletSchedule_rejects face cpnRate cpy mat); [discriminate |].
  fold n coupon in H.
  set (ts := (d1 / dint cpy)%D) in *.
  destruct (Z.leb_spec 1 n) as [Hn | Hn].
  - set (l := couponPayments coupon ts mat n (Z.to_nat n) 1) in *.
    assert (Hlen : length l = Z.to_nat n) by apply couponPayments_length.
    destruct l as [| cf rest] eqn:El; [simpl in Hlen; lia |].
    rewrite <- El in *. inversion H as [Hcfs]. clear H.
    assert (Hne : l <> []) by (rewrite El; discriminate).
    assert (Hlast : forall d, last l d = {| cf_time := mat; cf_amount := coupon |}).
    { intro d. rewrite last_nth. unfold l at 2. rewrite couponPayments_nth by lia.
      rewrite Hlen.
      replace (1 + Z.of_nat (Z.to_nat n - 1))%Z with n by lia.
      rewrite Z.eqb_refl. reflexivity. }
    split; [| split; [| split]].
    + rewrite addToBack_length, Hlen. f_equal. lia.
    + intro d. rewrite addToBack_last by assumption. rewrite Hlast. reflexivity.
    + intro d. rewrite addToBack_last by assumption. rewrite Hlast. reflexivity.
    + intros k d Hk. rewrite addToBack_length in Hk.
      rewrite addToBack_nth by assumption.
      unfold l. rewrite couponPayments_nth by lia.
      destruct (Z.eqb_spec (1 + Z.of_nat k) n) as [Heq | _]; [lia |].
      replace (1 + Z.of_nat k)%Z with (Z.of_nat (S k)) by lia. reflexivity.
  - replace (Z.to_nat n) with O in H by lia. cbn [couponPayments] in H.
    inversion H as [Hcfs]. clear H.
    split; [| split; [| split]].
    + simpl. lia.
    + reflexivity.
    + reflexivity.
    + intros k d Hk. simpl in Hk. lia.
Qed.

(** A 100 face, 5% semi-annual bond of 1.5 years in binary64: three cash flows,
    the last at 1.5 with amount 102.5. *)
Lemma bulletSchedule_shape_witness :
  let cfs := [ {| cf_time := 0.5%float; cf_amount := 2.5%float |};
               {| cf_time := 1%float; cf_amount := 2.5%float |};
               {| cf_time := 1.5%float; cf_amount := 102.5%float |} ] in
  bulletSchedule (float_lit 100) (float_lit (5 # 100)) 2 (float_lit (3 # 2)) = Ok cfs /\
  length cfs = 3%nat /\
  cf_time (last cfs {| cf_time := 0%float; cf_amount := 0%float |}) = float_lit (3 # 2).
Proof.
  intro cfs.
  assert (E : bulletSchedule (float_lit 100) (float_lit (5 # 100)) 2 (float_lit (3 # 2))
              = Ok cfs) by (vm_compute; reflexivity).
  destruct (@bulletSchedule_shape float float_ops float_rounding _ _ _ _ cfs E)
    as (Hlen & Htime & _).
  split; [exact E |]. split; [rewrite Hlen; vm_compute; reflexivity | apply Htime].
Defined.

Lemma schedule_nth :
  forall (D : Type) (ops : DoubleOps D) (face coupon timeStep maturityYears : D)
         (n : Z) (k : nat) (d : CashFlow D),
  (k < Z.to_nat n)%nat ->
  nth k (addToBack face (couponPayments coupon timeStep maturityYears n (Z.to_nat n) 1)) d
  = {| cf_time := if (Z.of_nat (S k) =? n)%Z then maturityYears
                  else (dint (Z.of_nat (S k)) * timeStep)%D;
       cf_amount := if (Z.of_nat (S k) =? n)%Z then (coupon + face)%D else coupon |}.
Proof.
  intros D ops face coupon ts mat n k d Hk.
  set (l := couponPayments coupon ts mat n (Z.to_nat n) 1).
  assert (Hlen : length l = Z.to_nat n) by apply couponPayments_length.
  assert (Hne : l <> []) by (intro E; rewrite E in Hlen; simpl in Hlen; lia).
  replace (1 + Z.of_nat k)%Z with (Z.of_nat (S k)) by lia.
  destruct (Z.eqb_spec (Z.of_nat (S k)) n) as [Heq | Hneq].
  - assert (Hk' : k = (length (addToBack face l) - 1)%nat)
      by (rewrite addToBack_length, Hlen; lia).
    rewrite Hk'. rewrite <- last_nth. rewrite addToBack_last by assumption.
    rewrite last_nth. unfold l at 2 4. rewrite !couponPayments_nth by lia.
    rewrite Hlen. replace (1 + Z.of_nat (Z.to_nat n - 1))%Z with n by lia.
    rewrite Z.eqb_refl. reflexivity.
  - rewrite addToBack_nth by lia.
    unfold l. rewrite couponPayments_nth by lia.
    replace (1 + Z.of_nat k)%Z with (Z.of_nat (S k)) by lia.
    destruct (Z.eqb_spec (Z.of_nat (S k)) n); [contradiction | reflexivity].
Qed.

Lemma R_dint : forall z : Z, @dint R R_ops z = IZR z.
Proof.
  intro z. unfold dint. destruct (z <? 0)%Z; cbn [dneg dsize R_ops];
    [rewrite opp_IZR; ring | reflexivity].
Qed.

(** [lround] over the reals: within a half of its argument. *)
Lemma R_lround_bounds : forall x : R,
  (0 <= x)%R ->
  (0 <= R_lround x)%Z /\ (IZR (R_lround x) - 1 / 2 <= x < IZR (R_lround x) + 1 / 2)%R.
Proof.
  intros x Hx. unfold R_lround. destruct (Rle_dec 0 x) as [_ | Hn]; [| contradiction].
  destruct (base_Int_part (x + 1 / 2)) as [H1 H2].
  split; [| lra].
  apply le_IZR. destruct (Z_le_gt_dec 0 (Int_part (x + 1 / 2))) as [Hz | Hz].
  - apply IZR_le. assumption.
  - assert (Hz' : (Int_part (x + 1 / 2) <= -1)%Z) by lia.
    apply IZR_le in Hz'. lra.
Qed.

Lemma couponPayments_amounts :
  forall (ca ts mat : R) (total : Z) (count : nat) (i : Z),
  Rsum (map (@cf_amount R) (couponPayments ca ts mat total count i)) = (INR count * ca)%R.
Proof.
  intros ca ts mat total count. induction count as [| n IH]; intro i.
  - simpl. lra.
  - cbn [couponPayments map Rsum fold_right cf_amount].
    change (fold_right Rplus 0%R ?l) with (Rsum l). rewrite IH. rewrite S_INR. lra.
Qed.

Lemma addToBack_amounts : forall (face : R) (l : list (CashFlow R)),
  l <> [] ->
  Rsum (map (@cf_amount R) (addToBack face l)) = (Rsum (map (@cf_amount R) l) + face)%R.
Proof.
  intros face l. induction l as [| cf [| cf' rest] IH]; intro Hne.
  - congruence.
  - simpl. lra.
  - change (addToBack face (cf :: cf' :: rest)) with (cf :: addToBack face (cf' :: rest)).
    cbn [map Rsum fold_right] in *.
    change (fold_right Rplus 0%R ?l) with (Rsum l) in *.
    rewrite IH by discriminate. simpl. lra.
Qed.

(** X6. A schedule over the reals, for a number of payments within [int]: the
    payment times are positive, at most the maturity and strictly increasing,
    the number of payments [n] is within a half of [maturity * couponPerYear],
    and the amounts add up to the face value plus [n] coupons. *)
Theorem bulletSchedule_real :
  forall (face cpnRate : R) (couponPerYear : Z) (maturityYears : R)
         (cfs : list (CashFlow R)),
  bulletSchedule face cpnRate couponPerYear maturityYears = Ok cfs ->
  (maturityYears * IZR couponPerYear < 2147483647)%R ->
  let n := R_lround (maturityYears * IZR couponPerYear) in
  (IZR n - 1 / 2 <= maturityYears * IZR couponPerYear < IZR n + 1 / 2)%R /\
  length cfs = Z.to_nat (Z.max 1 n) /\
  Forall (fun cf => 0 < cf_time cf <= maturityYears)%R cfs /\
  (forall i j d, (i < j < length cfs)%nat ->
     (cf_time (nth i cfs d) < cf_time (nth j cfs d))%R) /\
  Rsum (map (@cf_amount R) cfs) = (face + IZR n * (cpnRate * face / IZR couponPerYear))%R.
Proof.
  intros face cpnRate cpy mat cfs H Hrange n.
  rewrite bulletSchedule_cases in H.
  destruct (bulletSchedule_rejects face cpnRate cpy mat) eqn:Hrej; [discriminate |].
  unfold bulletSchedule_rejects in Hrej. cbn [disnan disinf R_ops orb] in Hrej.
  apply orb_false_iff in Hrej. destruct Hrej as [Hrej Hface].
  apply orb_false_iff in Hrej. destruct Hrej as [Hmat Hcpy].
  to_R. apply Rleb_false in Hface, Hmat. apply Z.leb_gt in Hcpy.
  assert (Hcpy' : (1 <= IZR cpy)%R) by (apply IZR_le; lia).
  rewrite !R_dint in H. cbn [dlround R_rounding] in H. fold n in H.
  assert (Hx : (0 <= mat * IZR cpy)%R) by nra.
  destruct (R_lround_bounds Hx) as [Hn0 Hnb]. fold n in Hn0, Hnb.
  assert (Hn31 : (n < 2 ^ 31)%Z).
  { apply lt_IZR. change (IZR (2 ^ 31)) with 2147483648%R. lra. }
  rewrite to_int_small in H by lia.
  set (coupon := (cpnRate * face / IZR cpy)%R) in *.
  set (ts := (1 / IZR cpy)%R) in *.
  split; [exact Hnb |].
  destruct (Z_le_gt_dec 1 n) as [Hn | Hn].
  - set (l := couponPayments coupon ts mat n (Z.to_nat n) 1) in *.
    assert (Hlen : length l = Z.to_nat n) by apply couponPayments_length.
    destruct l as [| cf rest] eqn:El; [simpl in Hlen; lia |].
    rewrite <- El in *. inversion H as [Hcfs]. clear H.
    assert (Hne : l <> []) by (rewrite El; discriminate).
    assert (Hlen' : length (addToBack face l) = Z.to_nat n)
      by (rewrite addToBack_length; exact Hlen).
    assert (Htime : forall k d, (k < Z.to_nat n)%nat ->
              cf_time (nth k (addToBack face l) d)
              = if (Z.of_nat (S k) =? n)%Z then mat else (IZR (Z.of_nat (S k)) * ts)%R).
    { intros k d Hk. unfold l. rewrite schedule_nth by assumption.
      cbn [cf_time]. rewrite R_dint. reflexivity. }
    assert (Hbelow : forall k, (Z.of_nat (S k) < n)%Z ->
              (0 < IZR (Z.of_nat (S k)) * ts < mat)%R).
    { intros k Hk.
      assert (H1 : (1 <= IZR (Z.of_nat (S k)))%R) by (apply IZR_le; lia).
      assert (H2 : (IZR (Z.of_nat (S k)) <= IZR n - 1)%R)
        by (rewrite <- minus_IZR; apply IZR_le; lia).
      unfold ts. split.
      - apply Rmult_lt_0_compat; [lra | apply Rdiv_lt_0_compat; lra].
      - apply (Rmult_lt_reg_r (IZR cpy)); [lra |].
        unfold Rdiv. rewrite Rmult_assoc, Rmult_1_l, Rinv_l by lra. lra. }
    split; [rewrite Hlen'; f_equal; lia |].
    split; [| split].
    + apply Forall_nth. intros k d Hk. rewrite Hlen' in Hk.
      rewrite Htime by assumption.
      destruct (Z.eqb_spec (Z.of_nat (S k)) n); [lra |].
      pose proof (Hbelow k ltac:(lia)). lra.
    + intros i j d [Hij Hj]. rewrite Hlen' in Hj.
      rewrite !Htime by lia.
      destruct (Z.eqb_spec (Z.of_nat (S i)) n); [lia |].
      pose proof (Hbelow i ltac:(lia)) as Hi.
      destruct (Z.eqb_spec (Z.of_nat (S j)) n); [lra |].
      apply Rmult_lt_compat_r; [unfold ts; apply Rdiv_lt_0_compat; lra |].
      apply IZR_lt. lia.
    + rewrite addToBack_amounts by assumption. unfold l.
      rewrite couponPayments_amounts. rewrite INR_IZR_INZ.
      rewrite Z2Nat.id by lia. lra.
  - assert (Hn' : n = 0%Z) by lia. rewrite Hn' in *.
    cbn [Z.to_nat couponPayments] in H. inversion H as [Hcfs]. clear H.
    split; [reflexivity |].
    split; [| split].
    + constructor; [cbn [cf_time]; lra | constructor].
    + intros i j d [Hij Hj]. simpl in Hj. lia.
    + simpl. lra.
Qed.

Lemma R_lround_eq : forall (x : R) (z : Z),
  (0 <= x)%R -> (IZR z - 1 / 2 <= x < IZR z + 1 / 2)%R -> R_lround x = z.
Proof.
  intros x z Hx Hz. unfold R_lround. destruct (Rle_dec 0 x) as [_ | Hn]; [| contradiction].
  symmetry. apply Int_part_spec. lra.
Qed.

Lemma bulletSchedule_semiannual :
  R_lround (3 / 2 * 2) = 3%Z /\
  bulletSchedule 100%R (5 / 100)%R 2 (3 / 2)%R = Ok semiannual_schedule.
Proof.
  assert (Hl : R_lround (3 / 2 * 2) = 3%Z) by (apply R_lround_eq; lra).
  split; [exact Hl |].
  rewrite bulletSchedule_cases. unfold bulletSchedule_rejects.
  cbn [disnan disinf R_ops orb Z.leb Z.compare]. to_R.
  rewrite !(proj2 (Rleb_false _ _)) by lra. cbn [orb].
  rewrite !R_dint. cbn [dlround R_rounding]. rewrite Hl.
  rewrite to_int_small by lia.
  change (Z.to_nat 3) with 3%nat.
  cbv [couponPayments addToBack Z.eqb Z.add Pos.add Pos.succ Pos.eqb cf_time cf_amount].
  rewrite !R_dint. unfold semiannual_schedule. to_R.
  repeat (f_equal; try lra).
Qed.

(** A 100 face, 5% semi-annual bond of 1.5 years: payments at 0.5, 1 and 1.5,
    adding up to 107.5. *)
Lemma bulletSchedule_real_witness :
  bulletSchedule 100%R (5 / 100)%R 2 (3 / 2)%R = Ok semiannual_schedule /\
  length semiannual_schedule = 3%nat /\
  Rsum (map (@cf_amount R) semiannual_schedule) = (100 + 3 * (5 / 100 * 100 / 2))%R.
Proof.
  destruct bulletSchedule_semiannual as [Hl E].
  destruct (@bulletSchedule_real _ _ _ _ semiannual_schedule E ltac:(lra))
    as (_ & Hlen & _ & _ & Hsum).
  split; [exact E |]. split; [reflexivity |].
  rewrite Hsum. rewrite Hl. lra.
Defined.

(** ** Bonds on a flat curve *)

Section BondFlatGeneric.
Context {D : Type} {ops : DoubleOps D} {lm : Libm D}.
Local Open Scope double_scope.

(** On a flat curve, [df] at a finite time above 0 is the discount factor of
    [Sensitivity], operation for operation. *)
Lemma DiscountCurve_df_flat_discountFactor : forall y m dc t,
  (m <> Continuous -> (dsize (Compounding_value m) ==? d0) = false) ->
  (disnan t || disinf t) = false -> (t <=? d0) = false ->
  DiscountCurve_df {| y_ := y; m_ := m; dc_ := dc; boot_ := [] |} t
  = Ok (discountFactor t y m).
Proof.
  intros y m dc t Hm Hfin Hle. unfold discountFactor.
  destruct (is_Continuous m) eqn:Hc.
  - destruct m; try discriminate.
    apply DiscountCurve_df_flat_continuous; assumption.
  - assert (Hne : m <> Continuous) by (intros ->; discriminate).
    apply DiscountCurve_df_flat_discrete; auto.
Qed.

(** The loop of [Bond::price] and the loop of [Sensitivity::price] add the same
    terms in the same order. *)
Lemma Bond_price_loop_flat : forall cfs y m dc (p : D),
  (m <> Continuous -> (dsize (Compounding_value m) ==? d0) = false) ->
  Forall (fun cf => (disnan (cf_time cf) || disinf (cf_time cf)) = false /\
                    (cf_time cf <=? d0) = false) cfs ->
  Bond_price_loop cfs {| y_ := y; m_ := m; dc_ := dc; boot_ := [] |} p
  = Ok (fold_left (fun P cf => P + cf_amount cf * discountFactor (cf_time cf) y m) cfs p).
Proof.
  intros cfs y m dc p Hm Hall. revert p.
  induction Hall as [| cf rest [Hfin Hpos] _ IH]; intro p; [reflexivity |].
  cbn [Bond_price_loop fold_left].
  rewrite DiscountCurve_df_flat_discountFactor by assumption.
  cbn [bind]. apply IH.
Qed.

End BondFlatGeneric.

(** X7. On a flat curve of yield [y], a bond whose cash-flow times are finite
    and above 0 has the price [Sensitivity::price] computes at [y]: the two
    loops perform the same operations in the same order, so the results are
    equal for every interpretation of the arithmetic (bit for bit in
    binary64). *)
Theorem Bond_price_flat_is_Sensitivity_price :
  forall (D : Type) (ops : DoubleOps D) (lm : Libm D)
         (b : Bond D) (y : D) (m : Compounding) (dc : DayCount) (curve : DiscountCurve D),
  DiscountCurve_flat y m dc = Ok curve ->
  (m <> Continuous -> (dsize (Compounding_value m) ==? d0)%D = false) ->
  Forall (fun cf => (disnan (cf_time cf) || disinf (cf_time cf)) = false /\
                    (cf_time cf <=? d0)%D = false) (cfs_ b) ->
  Bond_price b curve = Ok (Sensitivity_price (cfs_ b) y m).
Proof.
  intros D ops lm b y m dc curve Hc Hm Hall.
  unfold DiscountCurve_flat in Hc.
  destruct (disnan y || disinf y); [discriminate |].
  inversion Hc; subst curve. clear Hc.
  unfold Bond_price, Sensitivity_price.
  apply Bond_price_loop_flat; assumption.
Qed.

(** A two-year 4% annual bond on a 5% flat curve, annual compounding, in
    binary64. *)
Lemma Bond_price_flat_is_Sensitivity_price_witness :
  let b := {| cfs_ := [ {| cf_time := 1%float; cf_amount := 4%float |};
                        {| cf_time := 2%float; cf_amount := 104%float |} ] |} in
  Bond_price (lm := libm_reciprocal) b
    {| y_ := float_lit (5 # 100); m_ := Annual; dc_ := ACT_365F; boot_ := [] |}
  = Ok (Sensitivity_price (lm := libm_reciprocal) (cfs_ b) (float_lit (5 # 100)) Annual).
Proof.
  intro b.
  apply (@Bond_price_flat_is_Sensitivity_price float float_ops libm_reciprocal b
           (float_lit (5 # 100)) Annual ACT_365F).
  - vm_compute. reflexivity.
  - intros _. vm_compute. reflexivity.
  - repeat constructor; vm_compute; reflexivity.
Defined.

Lemma Compounding_value_pos : forall m : Compounding,
  m <> Continuous -> (1 <= IZR (Compounding_value m))%R.
Proof.
  intros m Hm. destruct m; try congruence; simpl; lra.
Qed.

(** The yield read back from a flat curve is the curve's yield. *)
Lemma Bond_extractYield_flat_R :
  forall (b : Bond R) (y : R) (m : Compounding) (dc : DayCount),
  cfs_ b <> [] ->
  (forall d, 0 < cf_time (last (cfs_ b) d))%R ->
  (m <> Continuous -> 0 < 1 + y / IZR (Compounding_value m))%R ->
  Bond_extractYield b {| y_ := y; m_ := m; dc_ := dc; boot_ := [] |} m = Ok y.
Proof.
  intros b y m dc Hne HT Hbase. unfold Bond_extractYield.
  destruct (cfs_ b) as [| cf0 rest] eqn:Hcfs; [congruence |].
  specialize (HT cf0). set (T := cf_time (last (cf0 :: rest) cf0)) in *.
  rewrite DiscountCurve_df_flat_real by assumption. cbn [bind].
  destruct (is_Continuous m) eqn:Hc.
  - to_R. rewrite (proj2 (Rleb_false _ _)) by apply exp_pos.
    f_equal. rewrite ln_exp. field. lra.
  - assert (Hm : m <> Continuous) by (intros ->; discriminate).
    specialize (Hbase Hm). pose proof (Compounding_value_pos Hm) as Hmm.
    set (mm := IZR (Compounding_value m)) in *.
    to_R. fold mm.
    rewrite (proj2 (Rleb_false _ _)) by (unfold Rpower; apply exp_pos).
    f_equal.
    replace (1 / Rpower (1 + y / mm) (- mm * T))%R with (Rpower (1 + y / mm) (mm * T)).
    + rewrite Rpower_mult.
      replace (mm * T * (1 / (mm * T)))%R with 1%R by (field; lra).
      rewrite Rpower_1 by assumption. field. lra.
    + replace (- mm * T)%R with (- (mm * T))%R by ring.
      rewrite Rpower_Ropp. field.
      unfold Rpower. apply Rgt_not_eq. apply exp_pos.
Qed.

(** X8. Over the reals, on a flat curve and with the curve's own compounding,
    the yield a bond reads back from the curve is the curve's yield, and its
    DV01, modified duration and convexity are those of [Sensitivity] at that
    yield.  The last cash flow must lie after time 0 and, under a discrete
    convention, [1 + y/m] must be positive. *)
Theorem Bond_analytics_flat :
  forall (b : Bond R) (y : R) (m : Compounding) (dc : DayCount),
  cfs_ b <> [] ->
  (forall d, 0 < cf_time (last (cfs_ b) d))%R ->
  (m <> Continuous -> 0 < 1 + y / IZR (Compounding_value m))%R ->
  let curve := {| y_ := y; m_ := m; dc_ := dc; boot_ := [] |} in
  Bond_extractYield b curve m = Ok y /\
  Bond_dv01 b curve m = Ok (dv01 (cfs_ b) y m) /\
  Bond_modDuration b curve m = Ok (modifiedDuration (cfs_ b) y m) /\
  Bond_convexity b curve m = Ok (convexity (cfs_ b) y m).
Proof.
  intros b y m dc Hne HT Hbase curve.
  pose proof (Bond_extractYield_flat_R b dc Hne HT Hbase) as Hy. fold curve in Hy.
  unfold Bond_dv01, Bond_modDuration, Bond_convexity. rewrite Hy. cbn [bind].
  repeat split; reflexivity.
Qed.

(** A one-year zero-coupon bond on a 5% curve with semi-annual compounding. *)
Lemma Bond_analytics_flat_witness :
  Bond_extractYield zero_coupon
    {| y_ := (5 / 100)%R; m_ := Semi; dc_ := ACT_365F; boot_ := [] |} Semi
  = Ok (5 / 100)%R.
Proof.
  apply (@Bond_analytics_flat zero_coupon (5 / 100)%R Semi ACT_365F).
  - discriminate.
  - intro d. simpl. lra.
  - intros _. simpl. lra.
Defined.

Lemma bulletSchedule_last_time :
  forall (D : Type) (ops : DoubleOps D) (rd : Rounding D)
         (face cpnRate : D) (couponPerYear : Z) (maturityYears : D)
         (cfs : list (CashFlow D)),
  bulletSchedule face cpnRate couponPerYear maturityYears = Ok cfs ->
  cfs <> [] /\ forall d, cf_time (last cfs d) = maturityYears.
Proof.
  intros D ops rd face cpnRate cpy mat cfs H.
  rewrite bulletSchedule_cases in H.
  destruct (bulletSchedule_rejects face cpnRate cpy mat); [discriminate |].
  set (n := to_int (dlround (mat * dint cpy)%D)) in *.
  destruct (couponPayments _ _ _ n (Z.to_nat n) 1) as [| cf rest] eqn:El.
  - inversion H. split; [discriminate | reflexivity].
  - rewrite <- El in H. inversion H as [Hcfs]. clear H.
    pose proof (couponPayments_length ((cpnRate * face) / dint cpy)%D (d1 / dint cpy)%D
                  mat n (Z.to_nat n) 1) as Hlen.
    rewrite El in Hlen. cbn [length] in Hlen.
    split.
    + intro E. apply (f_equal (@length _)) in E.
      rewrite addToBack_length, couponPayments_length in E. simpl in E. lia.
    + intro d. rewrite last_nth. rewrite addToBack_length, couponPayments_length.
      rewrite schedule_nth by lia. cbn [cf_time].
      destruct (Z.eqb_spec (Z.of_nat (S (Z.to_nat n - 1))) n); [reflexivity | lia].
Qed.

Lemma bulletSchedule_times_positive :
  forall (face cpnRate : R) (couponPerYear : Z) (maturityYears : R)
         (cfs : list (CashFlow R)),
  bulletSchedule face cpnRate couponPerYear maturityYears = Ok cfs ->
  Forall (fun cf => 0 < cf_time cf)%R cfs.
Proof.
  intros face cpnRate cpy mat cfs H.
  rewrite bulletSchedule_cases in H.
  destruct (bulletSchedule_rejects face cpnRate cpy mat) eqn:Hrej; [discriminate |].
  unfold bulletSchedule_rejects in Hrej. cbn [disnan disinf R_ops orb] in Hrej.
  apply orb_false_iff in Hrej. destruct Hrej as [Hrej _].
  apply orb_false_iff in Hrej. destruct Hrej as [Hmat Hcpy].
  assert (Hmat' : (0 < mat)%R) by (apply Rleb_false; rewrite <- R_d0; exact Hmat).
  apply Z.leb_gt in Hcpy.
  assert (Hcpy' : (1 <= IZR cpy)%R) by (apply IZR_le; lia).
  set (n := to_int (dlround (mat * dint cpy)%D)) in *.
  destruct (couponPayments _ _ _ n (Z.to_nat n) 1) as [| cf rest] eqn:El.
  - inversion H. constructor; [cbn [cf_time]; assumption | constructor].
  - rewrite <- El in H. inversion H as [Hcfs]. clear H.
    apply Forall_nth. intros k d Hk.
    rewrite addToBack_length, couponPayments_length in Hk.
    rewrite schedule_nth by assumption. cbn [cf_time].
    destruct (Z.of_nat (S k) =? n)%Z; [assumption |].
    rewrite !R_dint. to_R.
    apply Rmult_lt_0_compat; [apply IZR_lt; lia | apply Rdiv_lt_0_compat; lra].
Qed.

(** X9. A bond made by the constructor, on a flat curve and with the curve's
    own compounding, over the reals: its price is [Sensitivity::price] at the
    curve's yield, and its DV01, modified duration and convexity are those of
    [Sensitivity] at that yield; the fallback yield of 0.05 is never used. *)
Theorem Bond_new_flat :
  forall (face cpnRate : R) (couponPerYear : Z) (maturityYears : R) (b : Bond R)
         (y : R) (m : Compounding) (dc : DayCount),
  Bond_new face cpnRate couponPerYear maturityYears = Ok b ->
  (m <> Continuous -> 0 < 1 + y / IZR (Compounding_value m))%R ->
  let curve := {| y_ := y; m_ := m; dc_ := dc; boot_ := [] |} in
  Bond_price b curve = Ok (Sensitivity_price (cfs_ b) y m) /\
  Bond_extractYield b curve m = Ok y /\
  Bond_dv01 b curve m = Ok (dv01 (cfs_ b) y m) /\
  Bond_modDuration b curve m = Ok (modifiedDuration (cfs_ b) y m) /\
  Bond_convexity b curve m = Ok (convexity (cfs_ b) y m).
Proof.
  intros face cpnRate cpy mat b y m dc Hb Hbase curve.
  unfold Bond_new in Hb.
  destruct (bulletSchedule face cpnRate cpy mat) as [cfs | e] eqn:Hs; [| discriminate].
  cbn [bind] in Hb. inversion Hb; subst b. clear Hb. cbn [cfs_].
  destruct (@bulletSchedule_last_time R R_ops R_rounding _ _ _ _ _ Hs) as [Hne Hlast].
  pose proof (@bulletSchedule_times_positive _ _ _ _ _ Hs) as Hpos.
  assert (Hmat : (0 < mat)%R).
  { destruct cfs as [| cf0 rest]; [congruence |].
    rewrite <- (Hlast cf0). rewrite Forall_forall in Hpos. apply Hpos.
    destruct (exists_last (l := cf0 :: rest)) as (l' & a & Hl); [discriminate |].
    rewrite Hl. rewrite last_last. apply in_or_app. right. left. reflexivity. }
  split.
  - unfold Bond_price, Sensitivity_price, curve. cbn [cfs_].
    apply Bond_price_loop_flat.
    + intro Hm. to_R. apply Reqb_false.
      pose proof (Compounding_value_pos Hm). lra.
    + eapply Forall_impl; [| exact Hpos]. intros cf Hcf. split; [reflexivity |].
      to_R. apply Rleb_false. exact Hcf.
  - assert (Hy : Bond_extractYield {| cfs_ := cfs |} curve m = Ok y).
    { apply Bond_extractYield_flat_R; cbn [cfs_]; try assumption.
      intro d. rewrite Hlast. assumption. }
    unfold Bond_dv01, Bond_modDuration, Bond_convexity. rewrite Hy. cbn [bind cfs_].
    repeat split; reflexivity.
Qed.

(** The 100 face, 5% semi-annual bond of 1.5 years on a 4% flat curve with
    semi-annual compounding. *)
Lemma Bond_new_flat_witness :
  Bond_new 100%R (5 / 100)%R 2 (3 / 2)%R = Ok {| cfs_ := semiannual_schedule |} /\
  Bond_extractYield {| cfs_ := semiannual_schedule |}
    {| y_ := (4 / 100)%R; m_ := Semi; dc_ := ACT_365F; boot_ := [] |} Semi
  = Ok (4 / 100)%R.
Proof.
  assert (Hb : Bond_new 100%R (5 / 100)%R 2 (3 / 2)%R = Ok {| cfs_ := semiannual_schedule |}).
  { unfold Bond_new. rewrite (proj2 bulletSchedule_semiannual). reflexivity. }
  split; [exact Hb |].
  apply (@Bond_new_flat _ _ _ _ _ (4 / 100)%R Semi ACT_365F Hb).
  intros _. simpl. lra.
Defined.

(** ** Sensitivities as derivatives *)

Lemma derivable_pt_lim_value : forall (f : R -> R) (x l l' : R),
  derivable_pt_lim f x l -> l = l' -> derivable_pt_lim f x l'.
Proof. intros f x l l' H <-. exact H. Qed.

(** [c * exp(-z*t)] and [c * (1 + z/mm)^a] as functions of the yield [z]. *)
Lemma derivable_pt_lim_exp_yield : forall c t x : R,
  derivable_pt_lim (fun z => c * exp (- z * t))%R x (c * (- t) * exp (- x * t))%R.
Proof.
  intros c t x.
  assert (Hin : derivable_pt_lim (fun z => - z * t)%R x (- t)%R).
  { apply (derivable_pt_lim_ext (mult_real_fct (- t) id)).
    - intro z. unfold mult_real_fct, id. ring.
    - eapply derivable_pt_lim_value;
        [apply derivable_pt_lim_scal; apply derivable_pt_lim_id | ring]. }
  pose proof (derivable_pt_lim_comp _ exp x _ _ Hin (derivable_pt_lim_exp _)) as Hc.
  apply (derivable_pt_lim_ext (mult_real_fct c (comp exp (fun z => - z * t)%R))).
  - intro z. reflexivity.
  - eapply derivable_pt_lim_value; [apply derivable_pt_lim_scal; exact Hc | ring].
Qed.

Lemma derivable_pt_lim_power_yield : forall c mm a x : R,
  (mm <> 0)%R -> (0 < 1 + x / mm)%R ->
  derivable_pt_lim (fun z => c * Rpower (1 + z / mm) a)%R x
    (c * (a / mm) * Rpower (1 + x / mm) (a - 1))%R.
Proof.
  intros c mm a x Hmm Hbase.
  assert (Hin : derivable_pt_lim (fun z => 1 + z / mm)%R x (/ mm)%R).
  { apply (derivable_pt_lim_ext (fct_cte 1 + mult_real_fct (/ mm) id)%F).
    - intro z. unfold plus_fct, fct_cte, mult_real_fct, id. field. assumption.
    - eapply derivable_pt_lim_value;
        [apply derivable_pt_lim_plus;
           [apply derivable_pt_lim_const
           | apply derivable_pt_lim_scal; apply derivable_pt_lim_id]
        | ring]. }
  pose proof (derivable_pt_lim_comp _ (fun b => Rpower b a) x _ _ Hin
                (derivable_pt_lim_power _ a Hbase)) as Hc.
  apply (derivable_pt_lim_ext
           (mult_real_fct c (comp (fun b => Rpower b a) (fun z => 1 + z / mm)%R))).
  - intro z. reflexivity.
  - eapply derivable_pt_lim_value; [apply derivable_pt_lim_scal; exact Hc |].
    field. assumption.
Qed.

Lemma discountFactorDelta_R : forall t y m,
  discountFactorDelta t y m
  = match m with
    | Continuous => (- t * exp (- y * t))%R
    | _ => (- t * Rpower (1 + y / IZR (Compounding_value m))
                         (- IZR (Compounding_value m) * t - 1))%R
    end.
Proof.
  intros t y m. unfold discountFactorDelta.
  destruct m; cbn [is_Continuous]; to_R; reflexivity.
Qed.

Lemma discountFactorGamma_R : forall t y m,
  discountFactorGamma t y m
  = match m with
    | Continuous => (t * t * exp (- y * t))%R
    | _ => ((t * t + t / IZR (Compounding_value m))
            * Rpower (1 + y / IZR (Compounding_value m))
                     (- IZR (Compounding_value m) * t - 2))%R
    end.
Proof.
  intros t y m. unfold discountFactorGamma.
  destruct m; cbn [is_Continuous]; to_R; reflexivity.
Qed.

Lemma discountFactor_derivative : forall (a t y : R) (m : Compounding),
  (m <> Continuous -> 0 < 1 + y / IZR (Compounding_value m))%R ->
  derivable_pt_lim (fun z => a * discountFactor t z m)%R y
    (a * discountFactorDelta t y m)%R.
Proof.
  intros a t y m Hbase.
  apply (derivable_pt_lim_ext (fun z => a * spec_discountFactor t z m)%R).
  { intro z. rewrite discountFactor_R. reflexivity. }
  rewrite discountFactorDelta_R.
  destruct m eqn:Hm; unfold spec_discountFactor;
    try (eapply derivable_pt_lim_value;
         [apply derivable_pt_lim_power_yield;
            [simpl; lra | apply Hbase; discriminate]
         | simpl; field]).
  eapply derivable_pt_lim_value; [apply derivable_pt_lim_exp_yield | ring].
Qed.

Lemma discountFactorDelta_derivative : forall (a t y : R) (m : Compounding),
  (m <> Continuous -> 0 < 1 + y / IZR (Compounding_value m))%R ->
  derivable_pt_lim (fun z => a * discountFactorDelta t z m)%R y
    (a * discountFactorGamma t y m)%R.
Proof.
  intros a t y m Hbase.
  rewrite discountFactorGamma_R.
  destruct m eqn:Hm.
  5:{ apply (derivable_pt_lim_ext (fun z => a * (- t) * exp (- z * t))%R).
      { intro z. rewrite discountFactorDelta_R. ring. }
      eapply derivable_pt_lim_value; [apply derivable_pt_lim_exp_yield | ring]. }
  all: match goal with
       | |- context [Compounding_value ?c] =>
           apply (derivable_pt_lim_ext
                    (fun z => a * (- t)
                              * Rpower (1 + z / IZR (Compounding_value c))
                                       (- IZR (Compounding_value c) * t - 1))%R);
           [ intro z; rewrite discountFactorDelta_R; ring
           | eapply derivable_pt_lim_value;
             [ apply derivable_pt_lim_power_yield;
               [simpl; lra | apply Hbase; discriminate]
             | simpl;
               match goal with
               | |- context [Rpower ?b (?e - 1 - 1)] =>
                   replace (e - 1 - 1)%R with (e - 2)%R by ring
               end; field ] ]
       end.
Qed.

(** The derivative of a running sum is the running sum of the derivatives. *)
Lemma fold_left_derivative :
  forall (term term' : R -> CashFlow R -> R) (cfs : list (CashFlow R))
         (acc : R -> R) (acc' y : R),
  (forall cf, derivable_pt_lim (fun z => term z cf) y (term' y cf)) ->
  derivable_pt_lim acc y acc' ->
  derivable_pt_lim (fun z => fold_left (fun P cf => (P + term z cf)%R) cfs (acc z)) y
    (fold_left (fun P cf => (P + term' y cf)%R) cfs acc').
Proof.
  intros term term' cfs. induction cfs as [| cf rest IH]; intros acc acc' y Hterm Hacc.
  - exact Hacc.
  - cbn [fold_left].
    apply (IH (fun z => (acc z + term z cf)%R) (acc' + term' y cf)%R y Hterm).
    exact (derivable_pt_lim_plus acc (fun z => term z cf) y acc' (term' y cf)
             Hacc (Hterm cf)).
Qed.

(** X10. Over the reals, [priceDelta] is the derivative of [price] with respect
    to the yield and [priceGamma] is the derivative of [priceDelta], at every
    yield under Continuous compounding and wherever [1 + y/m] is positive under
    a discrete convention. *)
Theorem Sensitivity_derivatives :
  forall (cashFlows : list (CashFlow R)) (y : R) (m : Compounding),
  (m <> Continuous -> 0 < 1 + y / IZR (Compounding_value m))%R ->
  derivable_pt_lim (fun z => Sensitivity_price cashFlows z m) y
    (priceDelta cashFlows y m) /\
  derivable_pt_lim (fun z => priceDelta cashFlows z m) y
    (priceGamma cashFlows y m).
Proof.
  intros cfs y m Hbase. split.
  - unfold Sensitivity_price, priceDelta.
    eapply derivable_pt_lim_value.
    + apply (@fold_left_derivative
               (fun z cf => cf_amount cf * discountFactor (cf_time cf) z m)%R
               (fun z cf => cf_amount cf * discountFactorDelta (cf_time cf) z m)%R
               cfs (fun _ => d0) 0%R y).
      * intro cf. apply discountFactor_derivative. assumption.
      * apply (derivable_pt_lim_const d0).
    + rewrite R_d0. reflexivity.
  - unfold priceDelta, priceGamma.
    eapply derivable_pt_lim_value.
    + apply (@fold_left_derivative
               (fun z cf => cf_amount cf * discountFactorDelta (cf_time cf) z m)%R
               (fun z cf => cf_amount cf * discountFactorGamma (cf_time cf) z m)%R
               cfs (fun _ => d0) 0%R y).
      * intro cf. apply discountFactorDelta_derivative. assumption.
      * apply (derivable_pt_lim_const d0).
    + rewrite R_d0. reflexivity.
Qed.

(** The 100 face, 5% semi-annual schedule at a 4% yield, semi-annual
    compounding. *)
Lemma Sensitivity_derivatives_witness :
  derivable_pt_lim (fun z => Sensitivity_price semiannual_schedule z Semi) (4 / 100)%R
    (priceDelta semiannual_schedule (4 / 100)%R Semi).
Proof.
  apply (@Sensitivity_derivatives semiannual_schedule (4 / 100)%R Semi).
  intros _. simpl. lra.
Defined.

Lemma Rpower_pos : forall x y : R, (0 < Rpower x y)%R.
Proof. intros x y. unfold Rpower. apply exp_pos. Qed.

Lemma spec_discountFactor_pos : forall t y m, (0 < spec_discountFactor t y m)%R.
Proof.
  intros t y m. unfold spec_discountFactor.
  destruct m; first [apply Rpower_pos | apply exp_pos].
Qed.

(** X11. A single cash flow over the reals, with a non-zero amount: under
    Continuous compounding the modified duration is its time [t] and the
    convexity is [t^2]; under a discrete convention with [1 + y/m > 0] they are
    [t / (1 + y/m)] and [(t^2 + t/m) / (1 + y/m)^2]. *)
Theorem Sensitivity_single_cash_flow :
  forall (t a y : R) (m : Compounding),
  a <> 0%R ->
  (m <> Continuous -> 0 < 1 + y / IZR (Compounding_value m))%R ->
  let cfs := [ {| cf_time := t; cf_amount := a |} ] in
  let base := (1 + y / IZR (Compounding_value m))%R in
  modifiedDuration cfs y m = (if is_Continuous m then t else t / base)%R /\
  convexity cfs y m
  = (if is_Continuous m then t * t
     else (t * t + t / IZR (Compounding_value m)) / (base * base))%R.
Proof.
  intros t a y m Ha Hbase cfs base.
  unfold modifiedDuration, convexity, Sensitivity_price, priceDelta, priceGamma, cfs.
  cbn [fold_left cf_time cf_amount].
  rewrite discountFactor_R, discountFactorDelta_R, discountFactorGamma_R.
  pose proof (spec_discountFactor_pos t y m) as Hdf.
  to_R.
  assert (Hne : (0 + a * spec_discountFactor t y m)%R <> 0%R) by nra.
  rewrite (proj2 (Reqb_false _ _) Hne).
  destruct m; cbn [is_Continuous]; unfold spec_discountFactor in *;
    try (assert (Hb : (0 < base)%R) by (apply Hbase; discriminate);
         unfold base in *; cbn [Compounding_value] in *;
         match goal with
         | |- context [Rpower ?b (?e - 1)] =>
             replace (Rpower b (e - 1)) with (Rpower b e * / b)%R
               by (unfold Rminus; rewrite Rpower_plus, Rpower_Ropp, Rpower_1 by assumption;
                   reflexivity);
             replace (Rpower b (e - 2)) with (Rpower b e * / b * / b)%R
               by (replace (e - 2)%R with (e + - (1) + - (1))%R by ring;
                   rewrite !Rpower_plus, Rpower_Ropp, Rpower_1 by assumption;
                   reflexivity)
         end;
         split; field; repeat split; lra).
  split; field; lra.
Qed.

(** A payment of 100 after one year at a 5% yield: duration 1 under Continuous
    compounding. *)
Lemma Sensitivity_single_cash_flow_witness :
  modifiedDuration [ {| cf_time := 1%R; cf_amount := 100%R |} ] (5 / 100)%R Continuous
  = 1%R.
Proof.
  apply (@Sensitivity_single_cash_flow 1%R 100%R (5 / 100)%R Continuous).
  - lra.
  - intro H. congruence.
Defined.

Lemma fold_left_sum_nonneg :
  forall (term : CashFlow R -> R) (cfs : list (CashFlow R)) (acc : R),
  Forall (fun cf => 0 <= term cf)%R cfs -> (0 <= acc)%R ->
  (0 <= fold_left (fun P cf => P + term cf) cfs acc)%R.
Proof.
  intros term cfs acc H. revert acc.
  induction H as [| cf rest Hcf _ IH]; intros acc Hacc; cbn [fold_left];
    [assumption | apply IH; lra].
Qed.

Lemma fold_left_sum_opp :
  forall (term : CashFlow R -> R) (cfs : list (CashFlow R)) (acc : R),
  (- fold_left (fun P cf => P + term cf) cfs acc
   = fold_left (fun P cf => P + - term cf) cfs (- acc))%R.
Proof.
  intros term cfs. induction cfs as [| cf rest IH]; intro acc; cbn [fold_left];
    [reflexivity |].
  rewrite IH. f_equal. ring.
Qed.

(** X12. For cash flows with non-negative amounts at non-negative times, over
    the reals: the price and [priceGamma] are non-negative and [priceDelta] is
    non-positive, so DV01, modified duration and convexity are non-negative.
    Under a discrete convention the statement is for [1 + y/m > 0], where
    [std::pow] is the real power. *)
Theorem Sensitivity_signs :
  forall (cashFlows : list (CashFlow R)) (y : R) (m : Compounding),
  (m <> Continuous -> 0 < 1 + y / IZR (Compounding_value m))%R ->
  Forall (fun cf => 0 <= cf_time cf /\ 0 <= cf_amount cf)%R cashFlows ->
  (0 <= Sensitivity_price cashFlows y m)%R /\
  (priceDelta cashFlows y m <= 0)%R /\
  (0 <= priceGamma cashFlows y m)%R /\
  (0 <= dv01 cashFlows y m)%R /\
  (0 <= modifiedDuration cashFlows y m)%R /\
  (0 <= convexity cashFlows y m)%R.
Proof.
  intros cfs y m _ Hall.
  assert (HP : (0 <= Sensitivity_price cfs y m)%R).
  { unfold Sensitivity_price. rewrite R_d0.
    apply (fold_left_sum_nonneg
             (fun cf => cf_amount cf * discountFactor (cf_time cf) y m)%R); [| lra].
    eapply Forall_impl; [| exact Hall]. intros cf [Ht Ha]. cbv beta.
    rewrite discountFactor_R. pose proof (spec_discountFactor_pos (cf_time cf) y m). nra. }
  assert (HD : (0 <= - priceDelta cfs y m)%R).
  { unfold priceDelta. rewrite R_d0.
    rewrite (fold_left_sum_opp
               (fun cf => cf_amount cf * discountFactorDelta (cf_time cf) y m)%R).
    apply fold_left_sum_nonneg; [| lra].
    eapply Forall_impl; [| exact Hall]. intros cf [Ht Ha]. cbv beta.
    rewrite discountFactorDelta_R.
    assert (Hat : (0 <= cf_amount cf * cf_time cf)%R) by (apply Rmult_le_pos; assumption).
    destruct m;
      match goal with
      | |- context [Rpower ?b ?e] =>
          replace (- (cf_amount cf * (- cf_time cf * Rpower b e)))%R
            with (cf_amount cf * cf_time cf * Rpower b e)%R by ring;
          apply Rmult_le_pos; [assumption | left; apply Rpower_pos]
      | |- context [exp ?e] =>
          replace (- (cf_amount cf * (- cf_time cf * exp e)))%R
            with (cf_amount cf * cf_time cf * exp e)%R by ring;
          apply Rmult_le_pos; [assumption | left; apply exp_pos]
      end. }
  assert (HG : (0 <= priceGamma cfs y m)%R).
  { unfold priceGamma. rewrite R_d0.
    apply (fold_left_sum_nonneg
             (fun cf => cf_amount cf * discountFactorGamma (cf_time cf) y m)%R); [| lra].
    eapply Forall_impl; [| exact Hall]. intros cf [Ht Ha]. cbv beta.
    rewrite discountFactorGamma_R.
    assert (Hmm : forall c, c <> Continuous ->
                   (0 <= cf_time cf * cf_time cf
                         + cf_time cf / IZR (Compounding_value c))%R).
    { intros c Hc. pose proof (Compounding_value_pos Hc) as H1.
      assert (0 <= cf_time cf / IZR (Compounding_value c))%R
        by (apply Rmult_le_pos; [assumption | left; apply Rinv_0_lt_compat; lra]).
      nra. }
    destruct m;
      try (match goal with
           | |- context [Rpower ?b ?e] =>
               pose proof (Rpower_pos b e);
               match goal with
               | |- context [Compounding_value ?c] =>
                   pose proof (Hmm c ltac:(discriminate))
               end
           end;
           apply Rmult_le_pos; [assumption | apply Rmult_le_pos; lra]).
    pose proof (exp_pos (- y * cf_time cf)).
    apply Rmult_le_pos; [assumption | apply Rmult_le_pos; [nra | lra]]. }
  split; [exact HP |]. split; [lra |]. split; [exact HG |].
  split; [| split].
  - unfold dv01. to_R_lit. nra.
  - unfold modifiedDuration. cbv zeta. to_R.
    unfold Reqb. destruct (Req_dec_T (Sensitivity_price cfs y m) 0); [lra |].
    apply Rmult_le_pos; [lra | left; apply Rinv_0_lt_compat; lra].
  - unfold convexity. cbv zeta. to_R.
    unfold Reqb. destruct (Req_dec_T (Sensitivity_price cfs y m) 0); [lra |].
    apply Rmult_le_pos; [lra | left; apply Rinv_0_lt_compat; lra].
Qed.

(** The 100 face, 5% semi-annual schedule at a 4% yield. *)
Lemma Sensitivity_signs_witness :
  (0 <= dv01 semiannual_schedule (4 / 100)%R Semi)%R.
Proof.
  apply (@Sensitivity_signs semiannual_schedule (4 / 100)%R Semi).
  - intros _. simpl. lra.
  - unfold semiannual_schedule. repeat constructor; simpl; lra.
Defined.

(** ** Day counts *)

Lemma isLeapYear_mod : forall y : Z,
  isLeapYear y = ((y mod 4 =? 0)%Z && negb (y mod 100 =? 0)%Z) || (y mod 400 =? 0)%Z.
Proof.
  intro y. unfold isLeapYear.
  assert (H : forall k : Z, (0 < k)%Z -> (Z.rem y k =? 0)%Z = (y mod k =? 0)%Z).
  { intros k Hk. apply Bool.eq_true_iff_eq. rewrite !Z.eqb_eq.
    rewrite Z.rem_divide, Z.mod_divide by lia. reflexivity. }
  rewrite !H by lia. reflexivity.
Qed.

Lemma leapsBefore_succ : forall y : Z,
  leapsBefore (y + 1) = (leapsBefore y + if isLeapYear y then 1 else 0)%Z.
Proof.
  intro y. rewrite isLeapYear_mod. unfold leapsBefore.
  replace (y + 1 - 1)%Z with y by lia.
  destruct (Z.eqb_spec (y mod 4) 0), (Z.eqb_spec (y mod 100) 0),
    (Z.eqb_spec (y mod 400) 0); cbn [andb orb negb];
    Z.div_mod_to_equations; lia.
Qed.

Lemma int_checked_Some : forall z : Z,
  (- 2147483648 <= z <= 2147483647)%Z -> int_checked z = Some z.
Proof.
  intros z Hz. unfold int_checked, int_min, int_max.
  destruct (Z.leb_spec (- 2 ^ 31) z); [| lia].
  destruct (Z.leb_spec z (2 ^ 31 - 1)); [reflexivity | lia].
Qed.

Lemma int_add_Some : forall a b : Z,
  (- 2147483648 <= a + b <= 2147483647)%Z -> int_add a b = Some (a + b)%Z.
Proof. intros a b H. apply int_checked_Some. exact H. Qed.

Lemma int_sub_Some : forall a b : Z,
  (- 2147483648 <= a - b <= 2147483647)%Z -> int_sub a b = Some (a - b)%Z.
Proof. intros a b H. apply int_checked_Some. exact H. Qed.

Lemma int_mul_Some : forall a b : Z,
  (- 2147483648 <= a * b <= 2147483647)%Z -> int_mul a b = Some (a * b)%Z.
Proof. intros a b H. apply int_checked_Some. exact H. Qed.

(** Discharges the range checks of the [int] operations in turn. *)
Ltac int_steps :=
  repeat (first [ rewrite int_add_Some by lia
                | rewrite int_sub_Some by lia
                | rewrite int_mul_Some by lia ];
          cbn [and_then]).

Lemma leapYearLoop_leapsBefore : forall (count : nat) (y totalDays : Z),
  (- 2147483648 <= totalDays)%Z -> (totalDays + Z.of_nat count <= 2147483647)%Z ->
  leapYearLoop count y totalDays
  = Some (totalDays + (leapsBefore (y + Z.of_nat count) - leapsBefore y))%Z.
Proof.
  induction count as [| n IH]; intros y t Hlo Hhi.
  - cbn [leapYearLoop]. replace (y + Z.of_nat 0)%Z with y by lia. f_equal. lia.
  - cbn [leapYearLoop].
    replace (y + Z.of_nat (S n))%Z with (y + 1 + Z.of_nat n)%Z by lia.
    pose proof (leapsBefore_succ y) as Hs.
    destruct (isLeapYear y).
    + int_steps. rewrite IH by lia. f_equal. lia.
    + cbn [and_then]. rewrite IH by lia. f_equal. lia.
Qed.

Lemma leapsBefore_monotone : forall (n : nat) (y : Z),
  (leapsBefore y <= leapsBefore (y + Z.of_nat n))%Z.
Proof.
  induction n as [| n IH]; intro y.
  - replace (y + Z.of_nat 0)%Z with y by lia. lia.
  - replace (y + Z.of_nat (S n))%Z with (y + Z.of_nat n + 1)%Z by lia.
    rewrite leapsBefore_succ. specialize (IH y).
    destruct (isLeapYear (y + Z.of_nat n)); lia.
Qed.

(** A year has at most one leap day. *)
Lemma leapsBefore_growth : forall (n : nat) (y : Z),
  (leapsBefore (y + Z.of_nat n) - leapsBefore y <= Z.of_nat n)%Z.
Proof.
  induction n as [| n IH]; intro y.
  - replace (y + Z.of_nat 0)%Z with y by lia. lia.
  - replace (y + Z.of_nat (S n))%Z with (y + Z.of_nat n + 1)%Z by lia.
    rewrite leapsBefore_succ. specialize (IH y).
    destruct (isLeapYear (y + Z.of_nat n)); lia.
Qed.

(** One pass of a month loop, for a month that has a successor. *)
Lemma daysInMonth_at_month : forall (leap : bool) (m : Z),
  (1 <= m <= 11)%Z ->
  exists days : Z,
    daysInMonth_at (m - 1) = Some days /\ (28 <= days <= 31)%Z /\
    daysBeforeMonth leap (m + 1)
    = (daysBeforeMonth leap m + days + if (m =? 2)%Z && leap then 1 else 0)%Z.
Proof.
  intros leap m Hm.
  assert (Hcases : (m = 1 \/ m = 2 \/ m = 3 \/ m = 4 \/ m = 5 \/ m = 6 \/ m = 7 \/ m = 8
                    \/ m = 9 \/ m = 10 \/ m = 11)%Z) by lia.
  destruct leap;
    repeat (destruct Hcases as [-> | Hcases]); try subst m;
    eexists; (split; [reflexivity |]); (split; [lia | reflexivity]).
Qed.

Lemma monthLoop_from : forall (leap : bool) (count : nat) (m totalDays : Z),
  (1 <= m)%Z -> (m + Z.of_nat count <= 12)%Z ->
  (- 2147483648 + 32 * Z.of_nat count <= totalDays
   <= 2147483647 - 32 * Z.of_nat count)%Z ->
  monthLoop int_add leap count m totalDays
    = Some (totalDays + (daysBeforeMonth leap (m + Z.of_nat count)
                         - daysBeforeMonth leap m))%Z /\
  monthLoop int_sub leap count m totalDays
    = Some (totalDays - (daysBeforeMonth leap (m + Z.of_nat count)
                         - daysBeforeMonth leap m))%Z.
Proof.
  intros leap count. induction count as [| n IH]; intros m t Hm Hlast Ht.
  - cbn [monthLoop]. replace (m + Z.of_nat 0)%Z with m by lia.
    split; f_equal; lia.
  - cbn [monthLoop].
    destruct (@daysInMonth_at_month leap m) as (days & Hread & Hdays & Hnext); [lia |].
    rewrite Hread. cbn [and_then].
    replace (m + Z.of_nat (S n))%Z with (m + 1 + Z.of_nat n)%Z by lia.
    destruct ((m =? 2)%Z && leap); int_steps.
    + destruct (IH (m + 1)%Z (t + days + 1)%Z) as [Ha _]; try lia.
      destruct (IH (m + 1)%Z (t - days - 1)%Z) as [_ Hs]; try lia.
      rewrite Ha, Hs. rewrite Hnext. split; f_equal; lia.
    + destruct (IH (m + 1)%Z (t + days)%Z) as [Ha _]; try lia.
      destruct (IH (m + 1)%Z (t - days)%Z) as [_ Hs]; try lia.
      rewrite Ha, Hs. rewrite Hnext. split; f_equal; lia.
Qed.

Lemma daysBeforeMonth_bounds : forall (leap : bool) (m : Z),
  (1 <= m <= 12)%Z -> (0 <= daysBeforeMonth leap m <= 335)%Z.
Proof.
  intros leap m Hm.
  assert (Hcases : (m = 1 \/ m = 2 \/ m = 3 \/ m = 4 \/ m = 5 \/ m = 6 \/ m = 7 \/ m = 8
                    \/ m = 9 \/ m = 10 \/ m = 11 \/ m = 12)%Z) by lia.
  destruct leap;
    repeat (destruct Hcases as [-> | Hcases]); try subst m;
    vm_compute; split; discriminate.
Qed.

(** The days of the year before a month, as the two month loops count them. *)
Lemma monthLoop_daysBeforeMonth : forall (leap : bool) (m totalDays : Z),
  (1 <= m <= 12)%Z ->
  (- 2147483000 <= totalDays <= 2147483000)%Z ->
  monthLoop int_add leap (Z.to_nat (m - 1)) 1 totalDays
    = Some (totalDays + daysBeforeMonth leap m)%Z /\
  monthLoop int_sub leap (Z.to_nat (m - 1)) 1 totalDays
    = Some (totalDays - daysBeforeMonth leap m)%Z.
Proof.
  intros leap m t Hm Ht.
  destruct (@monthLoop_from leap (Z.to_nat (m - 1)) 1%Z t) as [Ha Hs]; try lia.
  rewrite Ha, Hs.
  replace (1 + Z.of_nat (Z.to_nat (m - 1)))%Z with m by lia.
  replace (daysBeforeMonth leap 1) with 0%Z by (destruct leap; reflexivity).
  split; f_equal; lia.
Qed.

(** Between an earlier and a later date at most five million years apart no
    [int] overflows, no read leaves the table, and [totalDays] is the
    difference of the day numbers. *)
Lemma actualDays_dayNumber : forall d0 d1 : Date,
  (0 <= year d1 - year d0 <= 5000000)%Z ->
  (1 <= month d0 <= 12)%Z -> (1 <= month d1 <= 12)%Z ->
  (1 <= day d0 <= 31)%Z -> (1 <= day d1 <= 31)%Z ->
  actualDays d0 d1 = Some (dayNumber d1 - dayNumber d0)%Z.
Proof.
  intros d0 d1 Hy Hm0 Hm1 Hd0 Hd1. unfold actualDays, dayNumber. cbv zeta.
  pose proof (leapsBefore_monotone (Z.to_nat (year d1 - year d0)) (year d0)) as Hmono.
  pose proof (leapsBefore_growth (Z.to_nat (year d1 - year d0)) (year d0)) as Hgrow.
  pose proof (daysBeforeMonth_bounds (isLeapYear (year d0)) Hm0) as Hb0.
  pose proof (daysBeforeMonth_bounds (isLeapYear (year d1)) Hm1) as Hb1.
  int_steps.
  rewrite leapYearLoop_leapsBefore by lia. cbn [and_then].
  replace (year d0 + Z.of_nat (Z.to_nat (year d1 - year d0)))%Z with (year d1) in * by lia.
  match goal with
  | |- context [monthLoop int_sub ?l _ 1%Z ?t] =>
      destruct (@monthLoop_daysBeforeMonth l (month d0) t Hm0) as [_ Hsub]; [lia |];
      rewrite Hsub
  end.
  cbn [and_then]. int_steps.
  match goal with
  | |- context [monthLoop int_add ?l _ 1%Z ?t] =>
      destruct (@monthLoop_daysBeforeMonth l (month d1) t Hm1) as [Hadd _]; [lia |];
      rewrite Hadd
  end.
  cbn [and_then]. int_steps.
  f_equal. lia.
Qed.

(** Evaluates the table look-ups at a concrete month. *)
Ltac calendar_eval :=
  repeat match goal with
         | |- context [daysBeforeMonth ?l ?m] =>
             let v := eval vm_compute in (daysBeforeMonth l m) in
             change (daysBeforeMonth l m) with v
         | |- context [monthLength ?l ?m] =>
             let v := eval vm_compute in (monthLength l m) in
             change (monthLength l m) with v
         | H : context [daysBeforeMonth ?l ?m] |- _ =>
             let v := eval vm_compute in (daysBeforeMonth l m) in
             change (daysBeforeMonth l m) with v in H
         | H : context [monthLength ?l ?m] |- _ =>
             let v := eval vm_compute in (monthLength l m) in
             change (monthLength l m) with v in H
         end.

(** The day number counts calendar days: it grows by one from a day to the
    next, across the end of a month and across the end of a year. *)
Lemma dayNumber_consecutive : forall y m d : Z,
  dayNumber {| year := y; month := m; day := d + 1 |}
    = (dayNumber {| year := y; month := m; day := d |} + 1)%Z /\
  ((1 <= m < 12)%Z ->
   dayNumber {| year := y; month := m + 1; day := 1 |}
     = (dayNumber {| year := y; month := m; day := monthLength (isLeapYear y) m |} + 1)%Z) /\
  dayNumber {| year := y + 1; month := 1; day := 1 |}
    = (dayNumber {| year := y; month := 12; day := 31 |} + 1)%Z.
Proof.
  intros y m d. unfold dayNumber. cbn [year month day].
  split; [lia |]. split.
  - intro Hm.
    assert (Hcases : (m = 1 \/ m = 2 \/ m = 3 \/ m = 4 \/ m = 5 \/ m = 6 \/ m = 7
                      \/ m = 8 \/ m = 9 \/ m = 10 \/ m = 11)%Z) by lia.
    destruct (isLeapYear y);
      repeat (destruct Hcases as [-> | Hcases]); try subst m;
      cbn [Z.add Pos.add Pos.succ]; calendar_eval; lia.
  - rewrite leapsBefore_succ.
    destruct (isLeapYear y), (isLeapYear (y + 1)); calendar_eval; lia.
Qed.

Lemma validDate_bounds : forall d : Date,
  validDate d = true ->
  (1 <= month d <= 12)%Z /\
  (1 <= day d <= monthLength (isLeapYear (year d)) (month d))%Z.
Proof.
  intros d H. unfold validDate in H.
  repeat (apply andb_true_iff in H; destruct H as [H ?]).
  rewrite ?Z.leb_le in *. lia.
Qed.

(** The day of the year of a valid date. *)
Lemma dayOfYear_bounds : forall (leap : bool) (m d : Z),
  (1 <= m <= 12)%Z -> (1 <= d <= monthLength leap m)%Z ->
  (1 <= daysBeforeMonth leap m + d <= 365 + if leap then 1 else 0)%Z.
Proof.
  intros leap m d Hm Hd.
  assert (Hcases : (m = 1 \/ m = 2 \/ m = 3 \/ m = 4 \/ m = 5 \/ m = 6 \/ m = 7 \/ m = 8
                    \/ m = 9 \/ m = 10 \/ m = 11 \/ m = 12)%Z) by lia.
  destruct leap;
    repeat (destruct Hcases as [-> | Hcases]); try subst m;
    calendar_eval; lia.
Qed.

Lemma dayOfYear_monotone : forall (leap : bool) (m0 d0 m1 d1 : Z),
  (1 <= m1 < m0)%Z -> (m0 <= 12)%Z ->
  (1 <= d0)%Z -> (1 <= d1 <= monthLength leap m1)%Z ->
  (daysBeforeMonth leap m1 + d1 < daysBeforeMonth leap m0 + d0)%Z.
Proof.
  intros leap m0 d0 m1 d1 Hm1 Hm0 Hd0 Hd1.
  assert (H0 : (m0 = 2 \/ m0 = 3 \/ m0 = 4 \/ m0 = 5 \/ m0 = 6 \/ m0 = 7 \/ m0 = 8
                \/ m0 = 9 \/ m0 = 10 \/ m0 = 11 \/ m0 = 12)%Z) by lia.
  assert (H1 : (m1 = 1 \/ m1 = 2 \/ m1 = 3 \/ m1 = 4 \/ m1 = 5 \/ m1 = 6 \/ m1 = 7
                \/ m1 = 8 \/ m1 = 9 \/ m1 = 10 \/ m1 = 11)%Z) by lia.
  destruct leap;
    repeat (destruct H0 as [-> | H0]); try subst m0;
    repeat (destruct H1 as [-> | H1]); try subst m1;
    try lia;
    calendar_eval; lia.
Qed.

(** The later of two valid dates has the larger day number. *)
Lemma laterThan_dayNumber : forall d0 d1 : Date,
  validDate d0 = true -> validDate d1 = true -> laterThan d0 d1 = true ->
  (dayNumber d1 < dayNumber d0)%Z.
Proof.
  intros d0 d1 H0 H1 Hl.
  apply validDate_bounds in H0, H1. destruct H0 as [Hm0 Hd0]. destruct H1 as [Hm1 Hd1].
  pose proof (dayOfYear_bounds _ Hm0 Hd0) as Hb0.
  pose proof (dayOfYear_bounds _ Hm1 Hd1) as Hb1.
  unfold laterThan in Hl. unfold dayNumber.
  destruct (Z.gtb_spec (year d0) (year d1)) as [Hy | Hy].
  - pose proof (leapsBefore_monotone (Z.to_nat (year d0 - (year d1 + 1))) (year d1 + 1)) as Hmono.
    replace (year d1 + 1 + Z.of_nat (Z.to_nat (year d0 - (year d1 + 1))))%Z
      with (year d0) in Hmono by lia.
    rewrite leapsBefore_succ in Hmono.
    destruct (isLeapYear (year d1)); lia.
  - cbn [orb] in Hl.
    destruct (Z.eqb_spec (year d0) (year d1)) as [Heq | Hne]; [| discriminate].
    cbn [andb] in Hl. rewrite Heq in *.
    destruct (Z.gtb_spec (month d0) (month d1)) as [Hm | Hm].
    + pose proof (@dayOfYear_monotone (isLeapYear (year d1)) (month d0) (day d0)
                    (month d1) (day d1)). lia.
    + cbn [orb] in Hl.
      destruct (Z.eqb_spec (month d0) (month d1)) as [Hmeq | Hmne]; [| discriminate].
      cbn [andb] in Hl. rewrite Hmeq in *.
      destruct (Z.gtb_spec (day d0) (day d1)); [lia | discriminate].
Qed.

(** Of two valid dates, the one that is not later has the smaller or equal day
    number. *)
Lemma not_laterThan_dayNumber : forall d0 d1 : Date,
  validDate d0 = true -> validDate d1 = true -> laterThan d0 d1 = false ->
  (year d0 <= year d1)%Z /\ (dayNumber d0 <= dayNumber d1)%Z.
Proof.
  intros d0 d1 H0 H1 Hl.
  destruct (laterThan d1 d0) eqn:Hr.
  - pose proof (@laterThan_dayNumber d1 d0 H1 H0 Hr). split; [| lia].
    unfold laterThan in Hl, Hr.
    destruct (Z.gtb_spec (year d0) (year d1)); [discriminate | lia].
  - unfold laterThan in Hl, Hr.
    destruct (Z.gtb_spec (year d0) (year d1)); [discriminate |].
    destruct (Z.gtb_spec (year d1) (year d0)); [discriminate |].
    assert (Hy : year d0 = year d1) by lia.
    rewrite Hy in *. rewrite Z.eqb_refl in *. cbn [orb andb] in *.
    destruct (Z.gtb_spec (month d0) (month d1)); [discriminate |].
    destruct (Z.gtb_spec (month d1) (month d0)); [discriminate |].
    assert (Hm : month d0 = month d1) by lia.
    rewrite Hm in *. rewrite Z.eqb_refl in *. cbn [orb andb] in *.
    destruct (Z.gtb_spec (day d0) (day d1)); [discriminate |].
    destruct (Z.gtb_spec (day d1) (day d0)); [discriminate |].
    unfold dayNumber. rewrite Hy, Hm. lia.
Qed.

Lemma monthLength_le_31 : forall (leap : bool) (m : Z), (monthLength leap m <= 31)%Z.
Proof.
  intros leap m. unfold monthLength.
  destruct (m =? 2)%Z; [destruct leap; lia |].
  destruct ((m =? 4)%Z || (m =? 6)%Z || (m =? 9)%Z || (m =? 11)%Z); lia.
Qed.

(** X13. ACT/365F, for every interpretation of the arithmetic: between two
    valid calendar dates at most five million years apart, in either order,
    the call is defined (no [int] overflows and no read leaves the month
    table) and the year fraction is the number of calendar days between them
    (the absolute difference of their day numbers) divided by 365.0. *)
Theorem yearFraction_ACT_365F :
  forall (D : Type) (ops : DoubleOps D) (d0 d1 : Date),
  validDate d0 = true -> validDate d1 = true ->
  (Z.abs (year d1 - year d0) <= 5000000)%Z ->
  yearFraction d0 d1 ACT_365F
  = Some (dint (Z.abs (dayNumber d1 - dayNumber d0)) / dlit 365)%D.
Proof.
  intros D ops d0 d1 H0 H1 Hyears. unfold yearFraction.
  pose proof (validDate_bounds _ H0) as [Hm0 Hd0].
  pose proof (validDate_bounds _ H1) as [Hm1 Hd1].
  pose proof (monthLength_le_31 (isLeapYear (year d0)) (month d0)) as Hl0.
  pose proof (monthLength_le_31 (isLeapYear (year d1)) (month d1)) as Hl1.
  destruct (laterThan d0 d1) eqn:Hl.
  - pose proof (@laterThan_dayNumber d0 d1 H0 H1 Hl) as Hlt.
    assert (Hy : (year d1 <= year d0)%Z).
    { unfold laterThan in Hl.
      destruct (Z.gtb_spec (year d0) (year d1)); [lia |].
      destruct (Z.eqb_spec (year d0) (year d1)); [lia | discriminate]. }
    rewrite actualDays_dayNumber by lia. cbn [and_then].
    f_equal. f_equal. f_equal. lia.
  - destruct (@not_laterThan_dayNumber d0 d1 H0 H1 Hl) as [Hy Hle].
    rewrite actualDays_dayNumber by lia. cbn [and_then].
    f_equal. f_equal. f_equal. lia.
Qed.

(** From 1 January 2024 to 1 January 2025, in either order: 366 days. *)
Lemma yearFraction_ACT_365F_witness :
  yearFraction {| year := 2025; month := 1; day := 1 |}
    {| year := 2024; month := 1; day := 1 |} ACT_365F
  = Some (366 / 365)%R.
Proof.
  rewrite (@yearFraction_ACT_365F R R_ops)
    by (try (vm_compute; reflexivity); cbn [year]; lia).
  replace (Z.abs _) with 366%Z by (vm_compute; reflexivity).
  rewrite R_dint. cbn [ddiv dlit R_ops]. f_equal. unfold Q2R. simpl. field.
Defined.

(** The day count of 30/360 between an earlier and a later date, where no
    [int] overflows. *)
Lemma thirty360Days_defined : forall d0 d1 : Date,
  (Z.abs (year d1 - year d0) <= 5000000)%Z ->
  (1 <= month d0 <= 12)%Z -> (1 <= day d0 <= 31)%Z ->
  (1 <= month d1 <= 12)%Z -> (1 <= day d1 <= 31)%Z ->
  thirty360Days d0 d1
  = Some (360 * (year d1 - year d0) + 30 * (month d1 - month d0)
          + ((if (day d1 =? 31)%Z && ((if (day d0 =? 31)%Z then 30 else day d0) =? 30)%Z
              then 30 else day d1)
             - (if (day d0 =? 31)%Z then 30 else day d0)))%Z.
Proof.
  intros d0 d1 Hy Hm0 Hd0 Hm1 Hd1. unfold thirty360Days. cbv zeta.
  destruct (Z.eqb_spec (day d0) 31); destruct (Z.eqb_spec (day d1) 31); cbn [andb];
    repeat match goal with
           | |- context [(?a =? ?b)%Z] => destruct (Z.eqb_spec a b)
           end;
    int_steps; reflexivity.
Qed.

(** X14. 30/360, for every interpretation of the arithmetic: for months 1..12
    and days 1..31 and two dates at most five million years apart, in either
    order, the call is defined (no [int] overflows) and the year fraction is a
    day count [n >= 0] divided by 360.0; [n] is [|360*dy + 30*dm + dd|] when
    neither date falls on a 31st, and a whole number of years counts 360 days
    a year whatever the day of the month. *)
Theorem yearFraction_THIRTY_360 :
  forall (D : Type) (ops : DoubleOps D) (d0 d1 : Date),
  (1 <= month d0 <= 12)%Z -> (1 <= day d0 <= 31)%Z ->
  (1 <= month d1 <= 12)%Z -> (1 <= day d1 <= 31)%Z ->
  (Z.abs (year d1 - year d0) <= 5000000)%Z ->
  exists n : Z,
    yearFraction d0 d1 THIRTY_360 = Some (dint n / dlit 360)%D /\
    (0 <= n)%Z /\
    (day d0 <> 31%Z -> day d1 <> 31%Z ->
     n = Z.abs (360 * (year d1 - year d0) + 30 * (month d1 - month d0)
                + (day d1 - day d0))) /\
    (month d0 = month d1 -> day d0 = day d1 ->
     n = (360 * Z.abs (year d1 - year d0))%Z).
Proof.
  intros D ops d0 d1 Hm0 Hd0 Hm1 Hd1 Hyears. unfold yearFraction.
  destruct (laterThan d0 d1) eqn:Hl;
    rewrite thirty360Days_defined by lia; cbn [and_then];
    eexists; (split; [reflexivity |]);
    unfold laterThan in Hl;
    destruct (Z.gtb_spec (year d0) (year d1));
    destruct (Z.eqb_spec (year d0) (year d1));
    destruct (Z.gtb_spec (month d0) (month d1));
    destruct (Z.eqb_spec (month d0) (month d1));
    destruct (Z.gtb_spec (day d0) (day d1));
    cbn [orb andb] in Hl; try discriminate; try lia;
    destruct (Z.eqb_spec (day d0) 31); destruct (Z.eqb_spec (day d1) 31);
    cbn [andb];
    repeat match goal with
           | |- context [(?a =? ?b)%Z] => destruct (Z.eqb_spec a b)
           end;
    cbn [andb]; repeat split; intros; lia.
Qed.

(** From 31 January 2024 to 31 March 2024: 60 days. *)
Lemma yearFraction_THIRTY_360_witness :
  exists n : Z,
    yearFraction {| year := 2024; month := 1; day := 31 |}
      {| year := 2024; month := 3; day := 31 |} THIRTY_360
    = Some (dint n / dlit 360)%R /\ (0 <= n)%Z.
Proof.
  destruct (@yearFraction_THIRTY_360 R R_ops
              {| year := 2024; month := 1; day := 31 |}
              {| year := 2024; month := 3; day := 31 |})
    as (n & Hn & Hpos & _); cbn [year month day]; try lia.
  exists n. split; assumption.
Defined.

Lemma laterThan_asymmetric : forall d0 d1 : Date,
  laterThan d0 d1 = true -> laterThan d1 d0 = false.
Proof.
  intros d0 d1 H. unfold laterThan in *.
  destruct (Z.gtb_spec (year d0) (year d1)), (Z.gtb_spec (year d1) (year d0)),
    (Z.eqb_spec (year d0) (year d1)), (Z.eqb_spec (year d1) (year d0)),
    (Z.gtb_spec (month d0) (month d1)), (Z.gtb_spec (month d1) (month d0)),
    (Z.eqb_spec (month d0) (month d1)), (Z.eqb_spec (month d1) (month d0)),
    (Z.gtb_spec (day d0) (day d1)), (Z.gtb_spec (day d1) (day d0));
    cbn [orb andb] in *; try reflexivity; try discriminate; lia.
Qed.

Lemma laterThan_total : forall d0 d1 : Date,
  laterThan d0 d1 = false -> laterThan d1 d0 = false -> d0 = d1.
Proof.
  intros [y0 m0 dd0] [y1 m1 dd1] H0 H1. unfold laterThan in *. cbn [year month day] in *.
  destruct (Z.gtb_spec y0 y1), (Z.gtb_spec y1 y0),
    (Z.eqb_spec y0 y1), (Z.eqb_spec y1 y0),
    (Z.gtb_spec m0 m1), (Z.gtb_spec m1 m0),
    (Z.eqb_spec m0 m1), (Z.eqb_spec m1 m0),
    (Z.gtb_spec dd0 dd1), (Z.gtb_spec dd1 dd0);
    cbn [orb andb] in *; try discriminate; try lia.
  f_equal; lia.
Qed.

(** X15. The year fraction does not depend on the order of its two dates:
    [yearFraction(d0, d1)] and [yearFraction(d1, d0)] are both undefined (an
    [int] overflows or a read leaves the month table) or both defined and
    equal, for every interpretation of the arithmetic, both conventions and
    all field values.  For a month 1..12 and a day 1..31 a date is at 0 days
    from itself: [yearFraction(d, d)] is defined and is 0 days over 365.0 or
    360.0. *)
Theorem yearFraction_symmetric :
  forall (D : Type) (ops : DoubleOps D) (d0 d1 : Date) (dc : DayCount),
  yearFraction d0 d1 dc = yearFraction d1 d0 dc /\
  ((1 <= month d0 <= 12)%Z -> (1 <= day d0 <= 31)%Z ->
   yearFraction d0 d0 dc
   = Some (dint 0 / match dc with ACT_365F => dlit 365 | THIRTY_360 => dlit 360 end)%D).
Proof.
  intros D ops d0 d1 dc. split.
  - unfold yearFraction.
    destruct (laterThan d0 d1) eqn:H01.
    + rewrite (laterThan_asymmetric _ _ H01). reflexivity.
    + destruct (laterThan d1 d0) eqn:H10; [reflexivity |].
      rewrite (laterThan_total _ _ H01 H10). reflexivity.
  - intros Hm Hd. unfold yearFraction.
    assert (Hl : laterThan d0 d0 = false).
    { destruct (laterThan d0 d0) eqn:E; [| reflexivity].
      pose proof (laterThan_asymmetric _ _ E). congruence. }
    rewrite Hl. destruct dc.
    + rewrite actualDays_dayNumber by lia. cbn [and_then].
      rewrite Z.sub_diag. reflexivity.
    + rewrite thirty360Days_defined by lia. cbn [and_then].
      f_equal. f_equal. f_equal.
      destruct (Z.eqb_spec (day d0) 31); cbn [andb];
        repeat match goal with
               | |- context [(?a =? ?b)%Z] => destruct (Z.eqb_spec a b)
               end; cbn [andb]; lia.
Qed.

(** 29 February 2024, under both conventions. *)
Lemma yearFraction_symmetric_witness :
  yearFraction {| year := 2024; month := 2; day := 29 |}
    {| year := 2024; month := 2; day := 29 |} ACT_365F = Some (dint 0 / dlit 365)%R /\
  yearFraction {| year := 2024; month := 2; day := 29 |}
    {| year := 2024; month := 2; day := 29 |} THIRTY_360 = Some (dint 0 / dlit 360)%R.
Proof.
  split.
  - apply (proj2 (@yearFraction_symmetric R R_ops
                    {| year := 2024; month := 2; day := 29 |}
                    {| year := 2024; month := 2; day := 29 |} ACT_365F));
      cbn [month day]; lia.
  - apply (proj2 (@yearFraction_symmetric R R_ops
                    {| year := 2024; month := 2; day := 29 |}
                    {| year := 2024; month := 2; day := 29 |} THIRTY_360));
      cbn [month day]; lia.
Defined.

(** ** Black-76: parity for every input, deltas and vega *)

(** Put-call parity holds in both branches of the pricer. *)
Lemma Black76_price_parity_R : forall F K T sigma Dc : R,
  (Black76_price F K T sigma Dc true - Black76_price F K T sigma Dc false
   = Dc * (F - K))%R.
Proof.
  intros F K T sigma Dc. unfold Black76_price.
  destruct ((T <=? d0) || (sigma <=? d0))%D.
  - to_R. unfold Rmax.
    destruct (Rle_dec (F - K) 0), (Rle_dec (K - F) 0);
      try ring; try (exfalso; lra).
    replace (F - K)%R with 0%R by lra. ring.
  - cbv zeta.
    set (x1 := Black76_d1 F K T sigma). set (x2 := Black76_d2 F K T sigma).
    to_R.
    pose proof (normCDF_symm x1) as H1. pose proof (normCDF_symm x2) as H2.
    replace (normCDF (- x1)%R) with (1 - normCDF x1)%R by lra.
    replace (normCDF (- x2)%R) with (1 - normCDF x2)%R by lra.
    ring.
Qed.

(** X16. Expired or zero-volatility options over the reals ([T <= 0] or
    [sigma <= 0]): put-call parity holds on the intrinsic values,
    call - put = D * (F - K), but the deltas differ by [D] only off the strike:
    at [F = K] both deltas are 0. *)
Theorem Black76_degenerate_parity : forall F K T sigma Dc : R,
  (T <= 0 \/ sigma <= 0)%R ->
  (Black76_price F K T sigma Dc true - Black76_price F K T sigma Dc false
   = Dc * (F - K))%R /\
  (Black76_delta F K T sigma Dc true - Black76_delta F K T sigma Dc false
   = if Req_dec_T F K then 0 else Dc)%R /\
  Black76_vega F K T sigma Dc = 0%R.
Proof.
  intros F K T sigma Dc Hdeg.
  split; [apply Black76_price_parity_R |].
  unfold Black76_delta, Black76_vega. rewrite (degenerate_test Hdeg).
  split; [| apply R_d0].
  unfold dgtb. to_R. unfold Rltb.
  destruct (Req_dec_T F K), (Rlt_dec K F), (Rlt_dec F K); lra.
Qed.

(** An expired call and put at the strike, and off it. *)
Lemma Black76_degenerate_parity_witness :
  (Black76_price 3 2 0 (1 / 5) (1 / 2) true - Black76_price 3 2 0 (1 / 5) (1 / 2) false
   = 1 / 2 * (3 - 2))%R /\
  (Black76_delta 2 2 0 (1 / 5) (1 / 2) true - Black76_delta 2 2 0 (1 / 5) (1 / 2) false
   = 0)%R.
Proof.
  split.
  - apply (@Black76_degenerate_parity 3 2 0 (1 / 5) (1 / 2))%R. left. lra.
  - destruct (@Black76_degenerate_parity 2 2 0 (1 / 5) (1 / 2))%R as (_ & Hd & _);
      [left; lra |].
    rewrite Hd. destruct (Req_dec_T 2 2); [reflexivity | lra].
Defined.

Lemma normPDF_pos : forall x : R, (0 < normPDF x)%R.
Proof.
  intro x. unfold normPDF. to_R.
  apply Rmult_lt_0_compat; [| apply exp_pos].
  apply Rdiv_lt_0_compat; [lra |].
  apply sqrt_lt_R0. pose proof PI_RGT_0. lra.
Qed.

(** X17. Live options over the reals ([T > 0], [sigma > 0]): the call delta
    exceeds the put delta by the discount factor, [D * N(d1) + D * N(-d1) = D],
    and vega, [D * F * phi(d1) * sqrt(T)], has the sign of [D * F]: it is
    positive for a positive discount factor and forward. *)
Theorem Black76_delta_vega : forall F K T sigma Dc : R,
  (0 < T)%R -> (0 < sigma)%R ->
  (Black76_delta F K T sigma Dc true - Black76_delta F K T sigma Dc false = Dc)%R /\
  Black76_vega F K T sigma Dc
    = (Dc * F * normPDF (Black76_d1 F K T sigma) * sqrt T)%R /\
  ((0 < Dc)%R -> (0 < F)%R -> (0 < Black76_vega F K T sigma Dc)%R).
Proof.
  intros F K T sigma Dc HT Hs.
  unfold Black76_delta, Black76_vega. rewrite (regular_test HT Hs). cbv zeta.
  set (x1 := Black76_d1 F K T sigma). to_R.
  pose proof (normCDF_symm x1) as H1.
  split; [| split].
  - replace (normCDF (- x1)%R) with (1 - normCDF x1)%R by lra. ring.
  - reflexivity.
  - intros HD HF.
    apply Rmult_lt_0_compat; [| apply sqrt_lt_R0; assumption].
    apply Rmult_lt_0_compat; [| apply normPDF_pos].
    apply Rmult_lt_0_compat; assumption.
Qed.

Lemma Black76_delta_vega_witness :
  (Black76_delta 3 2 1 1 (1 / 2) true - Black76_delta 3 2 1 1 (1 / 2) false = 1 / 2)%R.
Proof.
  apply (@Black76_delta_vega 3 2 1 1 (1 / 2))%R; lra.
Defined.

(** ** European bond options *)

Section BondOptionGeneric.
Context {D : Type} {ops : DoubleOps D} {lm : Libm D} {src : NormalSource D}.
Local Open Scope double_scope.

Lemma getForwardPrice_Ok : forall (opt : EuropeanBondOption D) (curve : DiscountCurve D),
  (disnan (T_ opt + dlit 5) || disinf (T_ opt + dlit 5)) = false ->
  exists F, getForwardPrice opt curve = Ok F.
Proof.
  intros opt curve Hfin. unfold getForwardPrice, DiscountCurve_fwdBondPrice. cbv zeta.
  destruct (DiscountCurve_df curve (T_ opt + dlit 5)) as [d | e] eqn:Hd.
  - cbn [bind]. eexists. reflexivity.
  - apply DiscountCurve_df_Err in Hd. destruct Hd as [_ Hbad]. congruence.
Qed.

Lemma getForwardPrice_Err : forall (opt : EuropeanBondOption D) (curve : DiscountCurve D) e,
  getForwardPrice opt curve = Err e ->
  e = InvalidArgument /\ (disnan (T_ opt + dlit 5) || disinf (T_ opt + dlit 5)) = true.
Proof.
  intros opt curve e H. unfold getForwardPrice, DiscountCurve_fwdBondPrice in H.
  cbv zeta in H.
  destruct (DiscountCurve_df curve (T_ opt + dlit 5)) as [d | e'] eqn:Hd;
    cbn [bind] in H; [discriminate |].
  inversion H; subst e'. apply DiscountCurve_df_Err in Hd. exact Hd.
Qed.

End BondOptionGeneric.

(** X18. A bond option, for every interpretation of the arithmetic.  Its three
    pricers fail, with InvalidArgument, exactly when the expiry [T] or the bond
    maturity [T + 5] is NaN or infinite.  For an expired option ([T <= 0]) the
    Monte Carlo price is the Black price itself, the discounted intrinsic
    value with [df(T) = 1], whatever the path count, and vega is 0. *)
Theorem EuropeanBondOption_expired :
  forall (D : Type) (ops : DoubleOps D) (lm : Libm D) (src : NormalSource D)
         (opt : EuropeanBondOption D) (curve : DiscountCurve D) (sigma : D)
         (paths : Z) (fuel : nat),
  let bad := (disnan (T_ opt + dlit 5)%D || disinf (T_ opt + dlit 5)%D
              || disnan (T_ opt) || disinf (T_ opt)) in
  (priceBlack opt curve sigma = Err InvalidArgument <-> bad = true) /\
  (priceMC fuel opt curve sigma paths = Err InvalidArgument <-> bad = true) /\
  (vegaBlack opt curve sigma = Err InvalidArgument <-> bad = true) /\
  (bad = false -> (T_ opt <=? d0)%D = true ->
   exists F : D,
     getForwardPrice opt curve = Ok F /\
     priceBlack opt curve sigma
       = Ok (d1 * match type_ opt with
                  | Type_Call => dmax (F - K_ opt) d0
                  | Type_Put => dmax (K_ opt - F) d0
                  end)%D /\
     priceMC fuel opt curve sigma paths
       = Ok (Some (d1 * match type_ opt with
                        | Type_Call => dmax (F - K_ opt) d0
                        | Type_Put => dmax (K_ opt - F) d0
                        end)%D) /\
     vegaBlack opt curve sigma = Ok d0).
Proof.
  intros D ops lm src opt curve sigma paths fuel bad.
  assert (Hcases :
    (bad = true /\
     priceBlack opt curve sigma = Err InvalidArgument /\
     priceMC fuel opt curve sigma paths = Err InvalidArgument /\
     vegaBlack opt curve sigma = Err InvalidArgument)
    \/
    (bad = false /\
     exists F d, getForwardPrice opt curve = Ok F /\
                 DiscountCurve_df curve (T_ opt) = Ok d /\
                 ((T_ opt <=? d0)%D = true -> d = d1))).
  { unfold bad, priceBlack, priceMC, vegaBlack.
    destruct (getForwardPrice opt curve) as [F | e] eqn:HF.
    - destruct (DiscountCurve_df curve (T_ opt)) as [d | e] eqn:Hd.
      + right. split.
        * destruct (disnan (T_ opt + dlit 5)%D || disinf (T_ opt + dlit 5)%D) eqn:H5.
          -- destruct (getForwardPrice_Ok opt curve) as [F' HF'].
             ++ exfalso. unfold getForwardPrice, DiscountCurve_fwdBondPrice in HF.
                cbv zeta in HF.
                assert (Hb : DiscountCurve_df curve (T_ opt + dlit 5)%D = Err InvalidArgument)
                  by (apply DiscountCurve_df_Err; split; [reflexivity | exact H5]).
                rewrite Hb in HF. discriminate.
             ++ exfalso. unfold getForwardPrice, DiscountCurve_fwdBondPrice in HF.
                cbv zeta in HF.
                assert (Hb : DiscountCurve_df curve (T_ opt + dlit 5)%D = Err InvalidArgument)
                  by (apply DiscountCurve_df_Err; split; [reflexivity | exact H5]).
                rewrite Hb in HF. discriminate.
          -- rewrite <- orb_assoc. cbn [orb].
             destruct (disnan (T_ opt) || disinf (T_ opt)) eqn:HT; [| reflexivity].
             assert (Hb : DiscountCurve_df curve (T_ opt) = Err InvalidArgument)
               by (apply DiscountCurve_df_Err; split; [reflexivity | exact HT]).
             congruence.
        * exists F, d. split; [reflexivity |]. split; [reflexivity |].
          intro Hle.
          assert (Hfin : (disnan (T_ opt) || disinf (T_ opt)) = false).
          { destruct (disnan (T_ opt) || disinf (T_ opt)) eqn:HT; [| reflexivity].
            assert (Hb : DiscountCurve_df curve (T_ opt) = Err InvalidArgument)
              by (apply DiscountCurve_df_Err; split; [reflexivity | exact HT]).
            congruence. }
          rewrite (DiscountCurve_df_nonpositive curve _ Hfin Hle) in Hd.
          inversion Hd. reflexivity.
      + left. apply DiscountCurve_df_Err in Hd. destruct Hd as [-> HT].
        cbn [bind]. rewrite <- orb_assoc. rewrite HT. rewrite orb_true_r. auto.
    - left. apply getForwardPrice_Err in HF. destruct HF as [-> H5].
      cbn [bind]. rewrite H5. cbn [orb]. auto. }
  destruct Hcases as [(Hb & H1 & H2 & H3) | (Hb & F & d & HF & Hd & Hone)].
  - rewrite Hb, H1, H2, H3. repeat split; auto; intros; discriminate.
  - rewrite Hb.
    unfold priceBlack, priceMC, vegaBlack. rewrite HF, Hd. cbn [bind].
    split; [split; discriminate |]. split; [split; discriminate |].
    split; [split; discriminate |].
    intros _ Hle. exists F. split; [reflexivity |].
    rewrite (Hone Hle).
    unfold Black76_price, Black76_vega, mcPrice, simulateVectorized.
    rewrite Hle. cbn [orb option_map fst].
    destruct (type_ opt); repeat split; reflexivity.
Qed.

(** X19. Put-call parity of bond options over the reals: on any curve, for a
    call and a put with the same strike and expiry,
    [priceBlack(call) - priceBlack(put) = df(T) * (F - K)] with [F] the forward
    price of the bond maturing at [T + 5], live or expired. *)
Theorem EuropeanBondOption_parity :
  forall (curve : DiscountCurve R) (K T sigma : R),
  let call := {| type_ := Type_Call; K_ := K; T_ := T |} in
  let put := {| type_ := Type_Put; K_ := K; T_ := T |} in
  exists F d vc vp : R,
    DiscountCurve_fwdBondPrice curve (T + 5)%R = Ok F /\
    DiscountCurve_df curve T = Ok d /\
    priceBlack call curve sigma = Ok vc /\
    priceBlack put curve sigma = Ok vp /\
    (vc - vp = d * (F - K))%R.
Proof.
  intros curve K T sigma call put.
  destruct (@getForwardPrice_Ok R R_ops R_libm call curve) as [F HF]; [reflexivity |].
  destruct (DiscountCurve_df curve T) as [d | e] eqn:Hd.
  2:{ apply DiscountCurve_df_Err in Hd. destruct Hd as [_ Hbad]. discriminate. }
  assert (HF' : getForwardPrice put curve = Ok F) by exact HF.
  exists F, d. eexists. eexists.
  split.
  { unfold getForwardPrice in HF. cbv zeta in HF. cbn [T_ call] in HF.
    replace (T + 5)%R with (T + dlit 5)%D; [exact HF |].
    cbn [dadd dlit R_ops]. f_equal. unfold Q2R. simpl. field. }
  split; [reflexivity |].
  unfold priceBlack. rewrite HF, HF'. cbn [bind T_ K_ type_ call put].
  rewrite Hd. cbn [bind isCall_of].
  split; [reflexivity |]. split; [reflexivity |].
  apply Black76_price_parity_R.
Qed.

(** ** Monte Carlo: the statistics variant *)

Section StatsGeneric.
Context {D : Type} {ops : DoubleOps D} {lm : Libm D} {src : NormalSource D}.
Local Open Scope double_scope.

Variables (F0 K sigma T : D) (tp : OptionType) (antithetic : bool).

Lemma statsScalarBatch_statsAfterDraws : forall n st,
  statsScalarBatch F0 K sigma (- dhalf * sigma * sigma * T) (dsqrt T) tp antithetic n st
  = statsAfterDraws F0 K sigma T tp antithetic n st.
Proof.
  induction n as [| n IH]; intro st.
  - unfold statsAfterDraws. cbn [statsScalarBatch drawNormals fst snd flat_map].
    rewrite app_nil_r. destruct st. reflexivity.
  - cbn [statsScalarBatch]. unfold statsAfterDraws. cbn [drawNormals].
    destruct (rng_normal (snd st)) as [z g] eqn:Hz.
    rewrite IH. unfold statsAfterDraws. cbn [fst snd].
    destruct (drawNormals n g) as [zs g'] eqn:Hzs. cbn [fst snd flat_map].
    unfold pathPayoffs at 2.
    destruct antithetic; cbv zeta; rewrite <- ?app_assoc; reflexivity.
Qed.

Lemma fold_left_push2 : forall (A : Type) (a b : A -> D) (zs : list A) (init : list D),
  fold_left (fun ps z => (ps ++ [a z]) ++ [b z]) zs init
  = init ++ flat_map (fun z => [a z; b z]) zs.
Proof.
  intros A a b zs. induction zs as [| z zs IH]; intro init; cbn [fold_left flat_map].
  - rewrite app_nil_r. reflexivity.
  - rewrite IH. rewrite <- !app_assoc. reflexivity.
Qed.

Lemma fold_left_push1 : forall (A : Type) (a : A -> D) (zs : list A) (init : list D),
  fold_left (fun ps z => ps ++ [a z]) zs init = init ++ flat_map (fun z => [a z]) zs.
Proof.
  intros A a zs. induction zs as [| z zs IH]; intro init; cbn [fold_left flat_map].
  - rewrite app_nil_r. reflexivity.
  - rewrite IH. rewrite <- !app_assoc. reflexivity.
Qed.

(** Where Eigen's exponential is [std::exp], the array branch appends the
    payoffs the scalar branch appends. *)
Lemma statsVectorBatch_statsAfterDraws : array_exp_is_std_exp ->
  forall currentBatchSize st,
  statsVectorBatch F0 K sigma T tp antithetic currentBatchSize st
  = statsAfterDraws F0 K sigma T tp antithetic (Z.to_nat currentBatchSize) st.
Proof.
  intros Hstd cur st. unfold statsVectorBatch, statsAfterDraws.
  destruct (drawNormals (Z.to_nat cur) (snd st)) as [zs g]. cbn [fst snd].
  unfold pathPayoffs.
  destruct antithetic; cbv zeta.
  - rewrite generateAntitheticPaths_std by exact Hstd.
    rewrite combine_map, fold_left_map. cbn [fst snd].
    rewrite fold_left_push2. reflexivity.
  - rewrite generatePaths_std by exact Hstd.
    rewrite fold_left_map. rewrite fold_left_push1. reflexivity.
Qed.

(** The sum over the payoff vector is the payoff sum of [simulateVectorized],
    term by term in the same order, and its length is the path count. *)
Lemma payoffs_sum : forall (zs : list D) (s q : D),
  fst (fold_left (fun acc p => (fst acc + p, snd acc + p * p))
         (flat_map (pathPayoffs F0 K sigma T tp antithetic) zs) (s, q))
  = fold_left (addPath F0 K sigma T tp antithetic) zs s.
Proof.
  induction zs as [| z zs IH]; intros s q; [reflexivity |].
  cbn [flat_map fold_left]. rewrite fold_left_app.
  unfold pathPayoffs at 2, addPath at 2.
  destruct antithetic; cbv zeta; cbn [fold_left fst snd]; apply IH.
Qed.

Lemma payoffs_length : forall (zs : list D),
  Z.of_nat (length (flat_map (pathPayoffs F0 K sigma T tp antithetic) zs))
  = (pathsPerDraw antithetic * Z.of_nat (length zs))%Z.
Proof.
  induction zs as [| z zs IH]; [unfold pathsPerDraw; destruct antithetic; reflexivity |].
  cbn [flat_map]. rewrite length_app. unfold pathPayoffs at 1.
  unfold pathsPerDraw in *. destruct antithetic; cbn [length] in *; lia.
Qed.

Lemma length_pushed2 : forall (A : Type) (a b : A -> D) (zs : list A) (init : list D),
  length (fold_left (fun ps z => (ps ++ [a z]) ++ [b z]) zs init)
  = (length init + 2 * length zs)%nat.
Proof.
  intros A a b zs. induction zs as [| z zs IH]; intro init; cbn [fold_left length].
  - lia.
  - rewrite IH, !length_app. cbn [length]. lia.
Qed.

Lemma length_pushed1 : forall (A : Type) (a : A -> D) (zs : list A) (init : list D),
  length (fold_left (fun ps z => ps ++ [a z]) zs init) = (length init + length zs)%nat.
Proof.
  intros A a zs. induction zs as [| z zs IH]; intro init; cbn [fold_left length].
  - lia.
  - rewrite IH, length_app. cbn [length]. lia.
Qed.

(** Whatever Eigen's exponential returns, the array branch takes the draws the
    scalar branch takes and appends as many payoffs. *)
Lemma statsVectorBatch_same_shape : forall currentBatchSize st,
  same_shape (statsVectorBatch F0 K sigma T tp antithetic currentBatchSize st)
             (statsAfterDraws F0 K sigma T tp antithetic (Z.to_nat currentBatchSize) st).
Proof.
  intros cur st. unfold statsVectorBatch, statsAfterDraws, same_shape.
  pose proof (drawNormals_length (Z.to_nat cur) (snd st)) as Hlen.
  destruct (drawNormals (Z.to_nat cur) (snd st)) as [zs g]. cbn [fst snd] in *.
  pose proof (payoffs_length zs) as Hpay.
  rewrite length_app.
  unfold pathsPerDraw in Hpay.
  destruct antithetic.
  - pose proof (generateAntitheticPaths_length F0 sigma T zs) as [L1 L2].
    destruct (generateAntitheticPaths F0 sigma T zs) as [paths1 paths2].
    cbn [fst snd] in *. split; [| reflexivity].
    rewrite length_pushed2, length_combine, L1, L2. lia.
  - cbn [fst snd]. split; [| reflexivity].
    rewrite length_pushed1, generatePaths_length. lia.
Qed.

Lemma statsAfterDraws_app : forall a b st,
  statsAfterDraws F0 K sigma T tp antithetic b
    (statsAfterDraws F0 K sigma T tp antithetic a st)
  = statsAfterDraws F0 K sigma T tp antithetic (a + b) st.
Proof.
  intros a b st. unfold statsAfterDraws. cbn [fst snd].
  rewrite drawNormals_app. cbn [fst snd].
  rewrite flat_map_app, app_assoc. reflexivity.
Qed.

Lemma statsAfterDraws_same_shape : forall n a b,
  same_shape a b ->
  same_shape (statsAfterDraws F0 K sigma T tp antithetic n a)
             (statsAfterDraws F0 K sigma T tp antithetic n b).
Proof.
  intros n a b [Hlen Hrng]. unfold same_shape, statsAfterDraws. cbn [fst snd].
  rewrite !length_app, Hlen, Hrng. split; reflexivity.
Qed.

(** The batch loop of [mcPriceWithStats] against one run of the scalar loop,
    for a relation [related] that every batch keeps. *)
Section StatsLoopInvariant.

Variable config : Config.
Variable related : StatsState -> StatsState -> Prop.

Hypothesis related_refl : forall st, related st st.
Hypothesis related_trans : forall a b c, related a b -> related b c -> related a c.
Hypothesis related_afterDraws : forall n a b,
  related a b ->
  related (statsAfterDraws F0 K sigma T tp antithetic n a)
          (statsAfterDraws F0 K sigma T tp antithetic n b).
Hypothesis related_batch : forall cur st,
  (0 < cur <= batchSize config)%Z ->
  related
    (if enableVectorization config && (1 <? cur)%Z
     then statsVectorBatch F0 K sigma T tp (useAntithetic config) cur st
     else statsScalarBatch F0 K sigma (- dhalf * sigma * sigma * T) (dsqrt T) tp
            (useAntithetic config) (Z.to_nat cur) st)
    (statsAfterDraws F0 K sigma T tp antithetic (Z.to_nat cur) st).

Lemma statsAfterDraws_0 : forall st : StatsState,
  statsAfterDraws F0 K sigma T tp antithetic 0 st = st.
Proof.
  intro st. unfold statsAfterDraws. cbn [drawNormals fst snd flat_map].
  rewrite app_nil_r. destruct st. reflexivity.
Qed.

Lemma statsBatchLoop_statsAfterDraws :
  forall (N : Z) (fuel : nat) (batch : Z) st,
  (0 < batchSize config)%Z -> (N + batchSize config <= size_max)%Z ->
  (0 <= batch <= N)%Z -> (Z.to_nat (N - batch) < fuel)%nat ->
  exists st',
    statsBatchLoop F0 K sigma T (- dhalf * sigma * sigma * T) (dsqrt T) tp N config fuel
      batch st = Some st' /\
    related st' (statsAfterDraws F0 K sigma T tp antithetic (Z.to_nat (N - batch)) st).
Proof.
  intros N fuel. induction fuel as [| fuel IH]; intros batch st Hbs Hmax Hb Hfuel.
  - lia.
  - cbn [statsBatchLoop]. destruct (Z.ltb_spec batch N) as [Hlt | Hge].
    + set (cur := Z.min (batchSize config) (N - batch)).
      assert (Hcur : (0 < cur <= batchSize config)%Z) by (unfold cur; lia).
      pose proof (related_batch st Hcur) as Hstep.
      set (st1 := if enableVectorization config && (1 <? cur)%Z
                  then statsVectorBatch F0 K sigma T tp (useAntithetic config) cur st
                  else statsScalarBatch F0 K sigma (- dhalf * sigma * sigma * T) (dsqrt T)
                         tp (useAntithetic config) (Z.to_nat cur) st) in *.
      assert (Hnext : wrap64 (batch + batchSize config) = (batch + batchSize config)%Z)
        by (apply wrap64_small; unfold size_max in *; lia).
      rewrite Hnext.
      destruct (Z_lt_le_dec (batch + batchSize config) N) as [Hmore | Hlast].
      * destruct (IH (batch + batchSize config)%Z st1) as (st' & Hrun & Hrel);
          try assumption; try lia.
        exists st'. split; [exact Hrun |].
        eapply related_trans; [exact Hrel |].
        replace (Z.to_nat (N - batch))
          with (Z.to_nat cur + Z.to_nat (N - (batch + batchSize config)))%nat
          by (unfold cur; lia).
        rewrite <- statsAfterDraws_app. apply related_afterDraws. exact Hstep.
      * destruct fuel as [| fuel']; [unfold cur in *; lia |].
        cbn [statsBatchLoop].
        destruct (Z.ltb_spec (batch + batchSize config) N) as [Hcontra | _]; [lia |].
        exists st1. split; [reflexivity |].
        replace (Z.to_nat (N - batch)) with (Z.to_nat cur) by (unfold cur; lia).
        exact Hstep.
    + exists st. split; [reflexivity |].
      replace (Z.to_nat (N - batch)) with O by lia.
      rewrite statsAfterDraws_0. apply related_refl.
Qed.

Lemma statsBatchLoop_single : forall (N : Z) (fuel : nat) st,
  (0 <= N < batchSize config)%Z -> (batchSize config < size_max)%Z ->
  (Z.to_nat N < fuel)%nat ->
  exists st',
    statsBatchLoop F0 K sigma T (- dhalf * sigma * sigma * T) (dsqrt T) tp N config fuel 0
      st = Some st' /\
    related st' (statsAfterDraws F0 K sigma T tp antithetic (Z.to_nat N) st).
Proof.
  intros N fuel st HN Hbs Hfuel.
  destruct fuel as [| fuel]; [lia |]. cbn [statsBatchLoop].
  destruct (Z.ltb_spec 0 N) as [Hpos | Hzero].
  - destruct fuel as [| fuel]; [lia |]. cbn [statsBatchLoop].
    replace (N - 0)%Z with N by lia.
    rewrite (Z.min_r (batchSize config) N) by lia.
    rewrite Z.add_0_l. rewrite wrap64_small by (unfold size_max in *; lia).
    destruct (Z.ltb_spec (batchSize config) N) as [Hcontra | _]; [lia |].
    eexists. split; [reflexivity |]. apply related_batch. lia.
  - exists st. split; [reflexivity |].
    replace (Z.to_nat N) with O by lia.
    rewrite statsAfterDraws_0. apply related_refl.
Qed.

Lemma statsBatchLoop_from_start : forall (N : Z) (fuel : nat) st,
  (0 <= N <= 2 ^ 63)%Z -> (0 < batchSize config < size_max)%Z ->
  (Z.to_nat N < fuel)%nat ->
  exists st',
    statsBatchLoop F0 K sigma T (- dhalf * sigma * sigma * T) (dsqrt T) tp N config fuel 0
      st = Some st' /\
    related st' (statsAfterDraws F0 K sigma T tp antithetic (Z.to_nat N) st).
Proof.
  intros N fuel st HN Hbs Hfuel.
  destruct (Z_le_gt_dec (batchSize config) N) as [Hle | Hgt].
  - pose proof (@statsBatchLoop_statsAfterDraws N fuel 0%Z st) as H.
    rewrite Z.sub_0_r in H. apply H; unfold size_max in *; lia.
  - apply statsBatchLoop_single; lia.
Qed.

End StatsLoopInvariant.

(** Every path by [std::exp]: the payoff vector is that of the scalar loop. *)
Lemma statsBatchLoop_std : forall (config : Config) (N : Z) (fuel : nat) st,
  std_exp_only config -> useAntithetic config = antithetic ->
  (0 <= N <= 2 ^ 63)%Z -> (0 < batchSize config < size_max)%Z ->
  (Z.to_nat N < fuel)%nat ->
  statsBatchLoop F0 K sigma T (- dhalf * sigma * sigma * T) (dsqrt T) tp N config fuel 0 st
  = Some (statsAfterDraws F0 K sigma T tp antithetic (Z.to_nat N) st).
Proof.
  intros config N fuel st Hstd Hanti HN Hbs Hfuel.
  destruct (@statsBatchLoop_from_start config eq) with (N := N) (fuel := fuel) (st := st)
    as (st' & Hrun & Heq); try assumption.
  - reflexivity.
  - intros a b c Hab Hbc. congruence.
  - intros n a b Hab. congruence.
  - intros cur st0 Hcur. rewrite Hanti.
    destruct (enableVectorization config && (1 <? cur)%Z) eqn:Hbranch.
    + destruct Hstd as [Hoff | [Hone | Hagree]].
      * rewrite Hoff in Hbranch. discriminate.
      * apply andb_true_iff in Hbranch. destruct Hbranch as [_ Hbig].
        apply Z.ltb_lt in Hbig. lia.
      * apply statsVectorBatch_statsAfterDraws; assumption.
    + apply statsScalarBatch_statsAfterDraws.
  - rewrite Hrun, Heq. reflexivity.
Qed.

(** In any case the loop returns, with the draws of the scalar loop and as
    many payoffs. *)
Lemma statsBatchLoop_same_shape : forall (config : Config) (N : Z) (fuel : nat) st,
  useAntithetic config = antithetic ->
  (0 <= N <= 2 ^ 63)%Z -> (0 < batchSize config < size_max)%Z ->
  (Z.to_nat N < fuel)%nat ->
  exists st',
    statsBatchLoop F0 K sigma T (- dhalf * sigma * sigma * T) (dsqrt T) tp N config fuel 0
      st = Some st' /\
    same_shape st' (statsAfterDraws F0 K sigma T tp antithetic (Z.to_nat N) st).
Proof.
  intros config N fuel st Hanti HN Hbs Hfuel.
  apply (@statsBatchLoop_from_start config same_shape); try assumption.
  - intro a. split; reflexivity.
  - intros a b c [H1 H2] [H3 H4]. split; congruence.
  - apply statsAfterDraws_same_shape.
  - intros cur st0 _. rewrite Hanti.
    destruct (enableVectorization config && (1 <? cur)%Z).
    + apply statsVectorBatch_same_shape.
    + rewrite statsScalarBatch_statsAfterDraws. split; reflexivity.
Qed.

(** ** The two loops side by side *)

Lemma fold_left_dadd_pushed2 : forall (A : Type) (a b : A -> D) (zs : list A) (s : D),
  fold_left dadd (flat_map (fun z => [a z; b z]) zs) s
  = fold_left (fun s z => s + a z + b z) zs s.
Proof.
  intros A a b zs. induction zs as [| z zs IH]; intro s; [reflexivity |].
  cbn [flat_map app fold_left]. apply IH.
Qed.

Lemma fold_left_dadd_pushed1 : forall (A : Type) (a : A -> D) (zs : list A) (s : D),
  fold_left dadd (flat_map (fun z => [a z]) zs) s = fold_left (fun s z => s + a z) zs s.
Proof.
  intros A a zs. induction zs as [| z zs IH]; intro s; [reflexivity |].
  cbn [flat_map app fold_left]. apply IH.
Qed.

Lemma scalarBatch_related : forall n st sst,
  sim_stats_related st sst ->
  sim_stats_related
    (scalarBatch F0 K sigma (- dhalf * sigma * sigma * T) (dsqrt T) tp antithetic n st)
    (statsScalarBatch F0 K sigma (- dhalf * sigma * sigma * T) (dsqrt T) tp antithetic n sst).
Proof.
  induction n as [| n IH]; intros st sst Hrel; [exact Hrel |].
  destruct Hrel as (Hsum & Hcount & Hrng).
  cbn [scalarBatch statsScalarBatch]. rewrite <- Hrng.
  destruct (rng_normal (sim_rng st)) as [z g].
  apply IH. unfold sim_stats_related.
  destruct antithetic; cbn [payoffSum totalPaths sim_rng fst snd];
    rewrite !fold_left_app, !length_app; cbn [fold_left length];
    rewrite Hsum, Hcount, ?wrap64_add_l;
    (split; [reflexivity |]); (split; [| reflexivity]);
    rewrite ?wrap64_add_l, ?wrap64_add_l2; f_equal; lia.
Qed.

Lemma vectorBatch_related : forall currentBatchSize st sst,
  (0 <= currentBatchSize)%Z ->
  sim_stats_related st sst ->
  sim_stats_related (vectorBatch F0 K sigma T tp antithetic currentBatchSize st)
                    (statsVectorBatch F0 K sigma T tp antithetic currentBatchSize sst).
Proof.
  intros cur st sst Hcur (Hsum & Hcount & Hrng).
  unfold vectorBatch, statsVectorBatch. rewrite <- Hrng.
  pose proof (drawNormals_length (Z.to_nat cur) (sim_rng st)) as Hlen.
  destruct (drawNormals (Z.to_nat cur) (sim_rng st)) as [zs g]. cbn [fst] in Hlen.
  unfold sim_stats_related.
  destruct antithetic.
  - pose proof (generateAntitheticPaths_length F0 sigma T zs) as [L1 L2].
    destruct (generateAntitheticPaths F0 sigma T zs) as [paths1 paths2].
    cbn [fst snd payoffSum totalPaths sim_rng] in *.
    split; [| split; [| reflexivity]].
    + rewrite fold_left_push2, fold_left_app, <- Hsum.
      rewrite fold_left_dadd_pushed2. reflexivity.
    + rewrite length_pushed2, length_combine, L1, L2, Nat.min_id, Hlen, Hcount.
      rewrite wrap64_add_l, wrap64_add_r. f_equal. lia.
  - cbn [fst snd payoffSum totalPaths sim_rng] in *.
    split; [| split; [| reflexivity]].
    + rewrite fold_left_push1, fold_left_app, <- Hsum.
      rewrite fold_left_dadd_pushed1. reflexivity.
    + rewrite length_pushed1, generatePaths_length, Hlen, Hcount.
      rewrite wrap64_add_l. f_equal. lia.
Qed.

(** Batch by batch, [simulateVectorized] and [mcPriceWithStats] take the same
    branch, draw the same variates and compute the same payoffs: the one adds
    them up as it goes, the other stores them. *)
Lemma batchLoop_statsBatchLoop :
  forall (config : Config) (N : Z) (fuel : nat) (batch : Z) st sst,
  useAntithetic config = antithetic ->
  sim_stats_related st sst ->
  match batchLoop F0 K sigma T (- dhalf * sigma * sigma * T) (dsqrt T) tp N config fuel
          batch st,
        statsBatchLoop F0 K sigma T (- dhalf * sigma * sigma * T) (dsqrt T) tp N config fuel
          batch sst
  with
  | Some st', Some sst' => sim_stats_related st' sst'
  | None, None => True
  | _, _ => False
  end.
Proof.
  intros config N fuel. induction fuel as [| fuel IH]; intros batch st sst Hanti Hrel.
  - exact I.
  - cbn [batchLoop statsBatchLoop].
    destruct (batch <? N)%Z; [| exact Hrel].
    apply IH; [exact Hanti |]. rewrite Hanti.
    destruct (enableVectorization config && (1 <? Z.min (batchSize config) (N - batch))%Z)
      eqn:Hbranch.
    + apply andb_true_iff in Hbranch. destruct Hbranch as [_ Hbig].
      apply Z.ltb_lt in Hbig.
      apply vectorBatch_related; [lia | exact Hrel].
    + apply scalarBatch_related. exact Hrel.
Qed.

Lemma fold_left_sum_fst : forall (l : list D) (s q : D),
  fst (fold_left (fun acc p => (fst acc + p, snd acc + p * p)) l (s, q))
  = fold_left dadd l s.
Proof.
  induction l as [| p l IH]; intros s q; [reflexivity |].
  cbn [fold_left fst snd]. apply IH.
Qed.

End StatsGeneric.



Lemma fold_left_sums_R : forall (l : list R) (s q : R),
  fold_left (fun acc p => ((fst acc + p)%D, (snd acc + p * p)%D)) l (s, q)
  = ((s + Rsum l)%R, (q + Rsum (map (fun p => p * p)%R l))%R).
Proof.
  induction l as [| p l IH]; intros s q.
  - cbn [fold_left map]. unfold Rsum. cbn [fold_right]. rewrite !Rplus_0_r. reflexivity.
  - cbn [fold_left fst snd]. rewrite IH. cbn [map Rsum fold_right dadd dmul R_ops].
    change (fold_right Rplus 0%R ?x) with (Rsum x).
    f_equal; rewrite Rplus_assoc; reflexivity.
Qed.

Lemma Rsum_cross : forall (l : list R) (p : R),
  (2 * Rsum l * p <= Rsum (map (fun x => x * x) l) + INR (length l) * (p * p))%R.
Proof.
  induction l as [| x l IH]; intro p.
  - simpl. lra.
  - cbn [map length]. rewrite S_INR. specialize (IH p).
    unfold Rsum in *. cbn [fold_right].
    pose proof (Rle_0_sqr (x - p)) as Hs. unfold Rsqr in Hs.
    set (S1 := fold_right Rplus 0%R l) in *.
    set (S2 := fold_right Rplus 0%R (map (fun x0 : R => (x0 * x0)%R) l)) in *.
    nra.
Qed.

(** The square of a sum is at most the count times the sum of the squares. *)
Lemma Rsum_square : forall l : list R,
  (Rsum l * Rsum l <= INR (length l) * Rsum (map (fun x => x * x) l))%R.
Proof.
  induction l as [| x l IH].
  - simpl. lra.
  - cbn [map length]. rewrite S_INR.
    pose proof (Rsum_cross l x) as Hc.
    pose proof (pos_INR (length l)) as Hn.
    unfold Rsum in *. cbn [fold_right].
    set (S1 := fold_right Rplus 0%R l) in *.
    set (S2 := fold_right Rplus 0%R (map (fun x0 : R => (x0 * x0)%R) l)) in *.
    set (n := INR (length l)) in *.
    nra.
Qed.

(** X22. The statistics of [mcPriceWithStats] over the reals, for a non-empty
    payoff vector: the price is [df] times the mean payoff; the variance
    estimate, the mean of the squares minus the square of the mean, is never
    negative, so the standard error [df * sqrt(variance / n)] is defined and
    non-negative for [df >= 0]; the 95% half-width is 1.96 standard errors;
    [varianceReduction] is left at 0. *)
Theorem statsOfPayoffs_real :
  forall (df : R) (effective : Z) (payoffs : list R),
  payoffs <> [] ->
  let r := statsOfPayoffs df effective payoffs in
  let variance := (Rmean_sq payoffs - Rmean payoffs * Rmean payoffs)%R in
  price r = (df * Rmean payoffs)%R /\
  (0 <= variance)%R /\
  standardError r = (df * sqrt (variance / INR (length payoffs)))%R /\
  confidenceInterval95 r = (196 / 100 * standardError r)%R /\
  ((0 <= df)%R -> (0 <= standardError r)%R) /\
  effectivePaths r = effective /\
  varianceReduction r = 0%R.
Proof.
  intros df effective payoffs Hne r variance.
  assert (Hn : (0 < INR (length payoffs))%R).
  { destruct payoffs; [congruence |]. apply lt_0_INR. simpl. lia. }
  unfold r, statsOfPayoffs.
  rewrite fold_left_sums_R. to_R.
  rewrite <- INR_IZR_INZ.
  cbn [price standardError confidenceInterval95 effectivePaths varianceReduction].
  replace (0 + Rsum payoffs)%R with (Rsum payoffs) by ring.
  replace (0 + Rsum (map (fun p => p * p) payoffs))%R
    with (Rsum (map (fun p => (p * p)%R) payoffs)) by ring.
  fold (Rmean payoffs). fold (Rmean_sq payoffs). fold variance.
  assert (Hvar : (0 <= variance)%R).
  { unfold variance, Rmean, Rmean_sq.
    pose proof (Rsum_square payoffs) as Hsq.
    set (n := INR (length payoffs)) in *.
    set (S1 := Rsum payoffs) in *. set (S2 := Rsum (map (fun x => (x * x)%R) payoffs)) in *.
    replace (S2 / n - S1 / n * (S1 / n))%R with ((n * S2 - S1 * S1) / (n * n))%R
      by (field; lra).
    apply Rmult_le_pos; [lra |]. left. apply Rinv_0_lt_compat. nra. }
  split; [unfold Rmean, Rdiv; ring |].
  split; [exact Hvar |].
  split; [reflexivity |].
  split; [cbn [dlit R_ops]; unfold Q2R; simpl; field |].
  split; [| split; reflexivity].
  intro Hdf. apply Rmult_le_pos; [assumption | apply sqrt_pos].
Qed.

(** Two payoffs, 1 and 3, discounted at 0.5: price 1. *)
Lemma statsOfPayoffs_real_witness :
  price (statsOfPayoffs (1 / 2)%R 2 [1%R; 3%R]) = 1%R.
Proof.
  destruct (@statsOfPayoffs_real (1 / 2)%R 2 [1%R; 3%R]) as (Hp & _); [discriminate |].
  rewrite Hp. unfold Rmean. simpl. lra.
Defined.

(** ** Flat curves *)

Lemma spec_discountFactor_le : forall (t t' y y' : R) (m : Compounding),
  (0 <= y)%R -> (0 <= t)%R ->
  (y * t <= y' * t')%R -> (y <= y')%R -> (t <= t')%R ->
  (spec_discountFactor t' y' m <= spec_discountFactor t y m)%R.
Proof.
  intros t t' y y' m Hy Ht Hprod Hyy Htt.
  assert (Hmono : forall a b : R, (a <= b)%R -> (exp a <= exp b)%R).
  { intros a b [Hab | ->]; [left; apply exp_increasing; assumption | right; reflexivity]. }
  unfold spec_discountFactor.
  destruct m;
    try (match goal with
         | |- context [Compounding_value ?c] =>
             pose proof (@Compounding_value_pos c ltac:(discriminate)) as Hmm;
             set (mm := IZR (Compounding_value c)) in *
         end;
         unfold Rpower; apply Hmono;
         assert (Hb : (1 <= 1 + y / mm)%R)
           by (assert (0 <= y / mm)%R
                 by (apply Rmult_le_pos; [lra | left; apply Rinv_0_lt_compat; lra]); lra);
         assert (Hbb : (1 + y / mm <= 1 + y' / mm)%R)
           by (apply Rplus_le_compat_l; apply Rmult_le_compat_r;
               [left; apply Rinv_0_lt_compat; lra | lra]);
         assert (Hl0 : (0 <= ln (1 + y / mm))%R)
           by (rewrite <- ln_1; destruct Hb as [Hb | Hb];
               [left; apply ln_increasing; lra | rewrite <- Hb; right; reflexivity]);
         assert (Hll : (ln (1 + y / mm) <= ln (1 + y' / mm))%R)
           by (destruct Hbb as [Hbb | Hbb];
               [left; apply ln_increasing; lra | rewrite Hbb; right; reflexivity]);
         assert (Hmt : (0 <= mm * t)%R) by (apply Rmult_le_pos; lra);
         assert (Hmtt : (mm * t <= mm * t')%R) by (apply Rmult_le_compat_l; lra);
         nra).
  apply Hmono. lra.
Qed.

Lemma spec_discountFactor_0 : forall (y : R) (m : Compounding),
  (0 <= y)%R -> spec_discountFactor 0 y m = 1%R.
Proof.
  intros y m Hy. unfold spec_discountFactor.
  destruct m; rewrite Rmult_0_r; try apply exp_0;
    apply Rpower_O;
    match goal with
    | |- context [Compounding_value ?k] =>
        pose proof (@Compounding_value_pos k ltac:(discriminate)) as Hmm;
        assert (0 <= y / IZR (Compounding_value k))%R
          by (apply Rmult_le_pos; [lra | left; apply Rinv_0_lt_compat; lra]);
        lra
    end.
Qed.

(** X23. A flat curve over the reals, for a yield [y >= 0]: every discount
    factor lies in (0, 1], discount factors do not increase with time, and they
    compose, [df(t1 + t2) = df(t1) * df(t2)] for [t1, t2 > 0], so the forward
    bond price does too. *)
Theorem DiscountCurve_flat_properties :
  forall (y : R) (m : Compounding) (dc : DayCount) (c : DiscountCurve R),
  DiscountCurve_flat y m dc = Ok c -> (0 <= y)%R ->
  (forall t : R, exists d : R, DiscountCurve_df c t = Ok d /\ (0 < d <= 1)%R) /\
  (forall t t' a b : R, (t <= t')%R ->
     DiscountCurve_df c t = Ok a -> DiscountCurve_df c t' = Ok b -> (b <= a)%R) /\
  (forall t1 t2 a b : R, (0 < t1)%R -> (0 < t2)%R ->
     DiscountCurve_df c t1 = Ok a -> DiscountCurve_df c t2 = Ok b ->
     DiscountCurve_df c (t1 + t2)%R = Ok (a * b)%R /\
     DiscountCurve_fwdBondPrice c (t1 + t2)%R = Ok (1 / a * (1 / b))%R).
Proof.
  intros y m dc c Hc Hy.
  unfold DiscountCurve_flat in Hc. simpl in Hc. inversion Hc; subst c. clear Hc.
  assert (Hone : forall t, (0 <= t)%R -> (spec_discountFactor t y m <= 1)%R).
  { intros t Ht. rewrite <- (spec_discountFactor_0 m Hy).
    apply spec_discountFactor_le; nra. }
  split; [| split].
  - intro t. rewrite DiscountCurve_df_flat_R. eexists. split; [reflexivity |].
    unfold flat_df. destruct (Rle_dec t 0); [lra |].
    split; [apply spec_discountFactor_pos | apply Hone; lra].
  - intros t t' a b Htt Ha Hb.
    rewrite DiscountCurve_df_flat_R in Ha, Hb.
    injection Ha as <-. injection Hb as <-. unfold flat_df.
    destruct (Rle_dec t 0), (Rle_dec t' 0); try lra.
    + apply Hone. lra.
    + apply spec_discountFactor_le; nra.
  - intros t1 t2 a b Ht1 Ht2 Ha Hb.
    rewrite DiscountCurve_df_flat_R in Ha, Hb.
    injection Ha as <-. injection Hb as <-.
    assert (Hmul : flat_df y m (t1 + t2) = (flat_df y m t1 * flat_df y m t2)%R).
    { unfold flat_df.
      destruct (Rle_dec t1 0), (Rle_dec t2 0), (Rle_dec (t1 + t2) 0); try lra.
      unfold spec_discountFactor.
      destruct m; rewrite <- ?Rpower_plus, <- ?exp_plus; f_equal; ring. }
    split.
    + rewrite DiscountCurve_df_flat_R. rewrite Hmul. reflexivity.
    + rewrite (@DiscountCurve_fwdBondPrice_of_df _ _ (flat_df y m t1 * flat_df y m t2)%R).
      * f_equal. field. unfold flat_df.
        destruct (Rle_dec t1 0), (Rle_dec t2 0); try lra.
        pose proof (spec_discountFactor_pos t1 y m).
        pose proof (spec_discountFactor_pos t2 y m). lra.
      * rewrite DiscountCurve_df_flat_R. rewrite Hmul. reflexivity.
      * unfold flat_df. destruct (Rle_dec t1 0), (Rle_dec t2 0); try lra.
        apply Rmult_lt_0_compat; apply spec_discountFactor_pos.
Qed.

(** A 5% flat curve, annual compounding: the two-year factor is the square of
    the one-year factor. *)
Lemma DiscountCurve_flat_properties_witness :
  DiscountCurve_df {| y_ := (5 / 100)%R; m_ := Annual; dc_ := ACT_365F; boot_ := [] |}
    (1 + 1)%R
  = Ok (flat_df (5 / 100) Annual 1 * flat_df (5 / 100) Annual 1)%R.
Proof.
  destruct (@DiscountCurve_flat_properties (5 / 100)%R Annual ACT_365F
              {| y_ := (5 / 100)%R; m_ := Annual; dc_ := ACT_365F; boot_ := [] |}
              eq_refl ltac:(lra)) as (_ & _ & Hmul).
  apply (Hmul 1%R 1%R); try lra; apply DiscountCurve_df_flat_R.
Defined.

(** ** The yield solver: the range of its result *)

(** Bisection keeps the bracket inside the one it started from. *)
Lemma bisect_iter_inside : forall (f : R -> R) (k : nat) (a b : R),
  (a <= b)%R ->
  (a <= fst (Nat.iter k (bisect_step f) (a, b))
   <= snd (Nat.iter k (bisect_step f) (a, b)))%R /\
  (snd (Nat.iter k (bisect_step f) (a, b)) <= b)%R.
Proof.
  intros f k a b Hab. induction k as [| k IH].
  - cbn [Nat.iter nat_rect fst snd]. lra.
  - rewrite Nat.iter_succ.
    destruct (Nat.iter k (bisect_step f) (a, b)) as [a' b'].
    cbn [fst snd] in IH. unfold bisect_step. cbn [fst snd].
    destruct (Rlt_dec (f a' * f ((a' + b') / 2))%R 0%R); cbn [fst snd]; lra.
Qed.

(** On a flat curve the price of non-negative cash flows does not increase
    with the yield. *)
Lemma price_of_yield_decreasing : forall (b : Bond R) (m : Compounding) (y y' : R),
  Forall (fun cf => 0 <= cf_amount cf)%R (cfs_ b) ->
  (0 <= y <= y')%R ->
  (price_of_yield b m y' <= price_of_yield b m y)%R.
Proof.
  intros b m y y' Hall Hy. unfold price_of_yield.
  induction Hall as [| cf rest Hcf _ IH]; [simpl; lra |].
  cbn [map Rsum fold_right]. change (fold_right Rplus 0%R ?l) with (Rsum l) in *.
  assert (Hdf : (flat_df y' m (cf_time cf) <= flat_df y m (cf_time cf))%R).
  { unfold flat_df. destruct (Rle_dec (cf_time cf) 0); [lra |].
    apply spec_discountFactor_le; nra. }
  assert (Hterm : (cf_amount cf * flat_df y' m (cf_time cf)
                   <= cf_amount cf * flat_df y m (cf_time cf))%R)
    by (apply Rmult_le_compat_l; assumption).
  unfold Rsum in *. lra.
Qed.

(** X20. What [solve] returns, over the reals.  A returned yield lies in
    [0, 2]: the bisection midpoint lies in the bracket, inside [0, 2], and every
    Newton update is clamped into [0, 2].  For a bond with non-negative cash
    flows, a target price that is the bond's price on a flat curve at some
    yield in [0, 2] is always bracketed: [solve] returns a yield and does not
    fail.  The initial guess [y0] has no effect on the result (for every
    interpretation of the arithmetic). *)
Theorem solve_range :
  (forall (b : Bond R) (targetPrice : R) (m : Compounding) (y0 y : R),
     solve b targetPrice m y0 = Ok y -> (0 <= y <= 2)%R) /\
  (forall (b : Bond R) (m : Compounding) (dc : DayCount) (curve : DiscountCurve R)
          (yield targetPrice y0 : R),
     Forall (fun cf => 0 <= cf_amount cf)%R (cfs_ b) ->
     (0 <= yield <= 2)%R ->
     DiscountCurve_flat yield m dc = Ok curve ->
     Bond_price b curve = Ok targetPrice ->
     exists y : R, solve b targetPrice m y0 = Ok y /\ (0 <= y <= 2)%R) /\
  (forall (D : Type) (ops : DoubleOps D) (lm : Libm D)
          (b : Bond D) (targetPrice : D) (m : Compounding) (y0 y0' : D),
     solve b targetPrice m y0 = solve b targetPrice m y0').
Proof.
  assert (Hrange : forall (b : Bond R) (targetPrice : R) (m : Compounding) (y0 y : R),
            solve b targetPrice m y0 = Ok y -> (0 <= y <= 2)%R).
  { intros b targetPrice m y0 y H.
    rewrite solve_R in H.
    assert (Hnewton : forall y1 : R, (0 <= y1 <= 2)%R ->
              newtonRaphsonPhase b targetPrice m y1 = Ok y -> (0 <= y <= 2)%R).
    { intros y1 Hy1 Hrun. unfold newtonRaphsonPhase in Hrun.
      destruct (newtonLoop_R b targetPrice m maxIterations y1) as (k & _ & Hk & _).
      rewrite Hk in Hrun. injection Hrun as Hy. rewrite <- Hy. clear Hy Hk.
      destruct k as [| k].
      - exact Hy1.
      - rewrite Nat.iter_succ. unfold newton_update. apply clampYield_range. }
    assert (Hmid : forall bu : R, (0 <= bu <= 2)%R ->
              (0 <= midpoint (Nat.iter 10 (bisect_step (price_gap b targetPrice m))
                                (0%R, bu)) <= 2)%R).
    { intros bu Hbu. unfold midpoint.
      pose proof (@bisect_iter_inside (price_gap b targetPrice m) 10 0%R bu ltac:(lra)).
      lra. }
    destruct (Rlt_dec 0 (price_gap b targetPrice m 0 * price_gap b targetPrice m 1)%R).
    - destruct (Rlt_dec 0 (price_gap b targetPrice m 0 * price_gap b targetPrice m 2)%R);
        [discriminate |].
      eapply Hnewton; [| exact H]. apply Hmid. lra.
    - eapply Hnewton; [| exact H]. apply Hmid. lra. }
  split; [exact Hrange |]. split; [| reflexivity].
  intros b m dc curve yield targetPrice y0 Hall Hy Hc Hp.
  unfold DiscountCurve_flat in Hc. simpl in Hc. injection Hc as <-.
  unfold Bond_price in Hp. rewrite Bond_price_loop_R in Hp. injection Hp as Hp.
  assert (Htarget : targetPrice = price_of_yield b m yield).
  { rewrite <- Hp. unfold price_of_yield. rewrite Q2R_lit0. ring. }
  assert (Hsolve : exists y, solve b targetPrice m y0 = Ok y).
  { rewrite solve_R.
    pose proof (@price_of_yield_decreasing b m 0%R yield Hall ltac:(lra)) as H0.
    pose proof (@price_of_yield_decreasing b m yield 2%R Hall ltac:(lra)) as H2.
    unfold price_gap. rewrite <- Htarget in H0, H2.
    destruct (Rlt_dec 0 ((price_of_yield b m 0 - targetPrice)
                         * (price_of_yield b m 1 - targetPrice))%R);
      [| apply newtonRaphsonPhase_total].
    destruct (Rlt_dec 0 ((price_of_yield b m 0 - targetPrice)
                         * (price_of_yield b m 2 - targetPrice))%R) as [Hbad | _];
      [| apply newtonRaphsonPhase_total].
    exfalso. nra. }
  destruct Hsolve as [y Hyv]. exists y. split; [exact Hyv |].
  eapply Hrange. exact Hyv.
Qed.

(** The one-year zero-coupon bond priced at a 5% yield, annual compounding. *)
Lemma solve_range_witness :
  exists y : R,
    solve zero_coupon (100 * flat_df (5 / 100) Annual 1)%R Annual (5 / 100)%R = Ok y /\
    (0 <= y <= 2)%R.
Proof.
  apply (proj1 (proj2 solve_range) zero_coupon Annual ACT_365F
           {| y_ := (5 / 100)%R; m_ := Annual; dc_ := ACT_365F; boot_ := [] |}
           (5 / 100)%R).
  - unfold zero_coupon. repeat constructor; simpl; lra.
  - lra.
  - reflexivity.
  - unfold Bond_price. rewrite Bond_price_loop_R. f_equal.
    unfold zero_coupon. cbn [cfs_ map Rsum fold_right cf_amount cf_time].
    rewrite R_d0. ring.
Defined.

(** ** Monte Carlo: bounds on the estimate *)

Lemma payoff_bounds : forall (FT K : R) (tp : OptionType),
  (0 <= payoff FT K tp)%R /\
  (tp = Put -> 0 <= FT -> payoff FT K tp <= Rmax K 0)%R.
Proof.
  intros FT K tp. unfold payoff. destruct tp; rewrite R_dmax; to_R; unfold Rmax.
  - split; [| discriminate]. destruct (Rle_dec (FT - K) 0); lra.
  - split; [destruct (Rle_dec (K - FT) 0); lra |].
    intros _ HFT. destruct (Rle_dec (K - FT) 0), (Rle_dec K 0); lra.
Qed.

Lemma addPath_bounds :
  forall (F0 K sigma T : R) (tp : OptionType) (antithetic : bool) (zs : list R) (s : R),
  (s <= fold_left (addPath F0 K sigma T tp antithetic) zs s)%R /\
  (tp = Put -> 0 <= F0 ->
   fold_left (addPath F0 K sigma T tp antithetic) zs s
   <= s + IZR (pathsPerDraw antithetic) * INR (length zs) * Rmax K 0)%R.
Proof.
  intros F0 K sigma T tp antithetic zs.
  induction zs as [| z zs IH]; intro s.
  - cbn [fold_left length INR]. split; [lra | intros; lra].
  - cbn [fold_left]. destruct (IH (addPath F0 K sigma T tp antithetic s z)) as [Hlo Hhi].
    assert (Hstep : (s <= addPath F0 K sigma T tp antithetic s z)%R /\
                    (tp = Put -> 0 <= F0 ->
                     addPath F0 K sigma T tp antithetic s z
                     <= s + IZR (pathsPerDraw antithetic) * Rmax K 0)%R).
    { unfold addPath, pathsPerDraw. cbv zeta.
      set (p1 := (F0 * dexp (- dhalf * sigma * sigma * T + sigma * dsqrt T * z))%D).
      set (p2 := (F0 * dexp (- dhalf * sigma * sigma * T + sigma * dsqrt T * - z))%D).
      destruct (payoff_bounds p1 K tp) as [H1 H1'].
      destruct (payoff_bounds p2 K tp) as [H2 H2'].
      assert (Hp : (0 <= F0 -> 0 <= p1 /\ 0 <= p2)%R).
      { intro HF. unfold p1, p2. cbn [dmul dexp R_ops R_libm].
        split; apply Rmult_le_pos; try assumption; left; apply exp_pos. }
      destruct antithetic; cbn [dadd R_ops]; split; try lra;
        intros Hput HF; specialize (H1' Hput); specialize (H2' Hput);
        destruct (Hp HF); lra. }
    destruct Hstep as [Hs Hs'].
    split; [lra |].
    intros Hput HF. specialize (Hhi Hput HF). specialize (Hs' Hput HF).
    change (length (z :: zs)) with (S (length zs)). rewrite S_INR. lra.
Qed.

(** X24. The Monte Carlo estimate over the reals, for [df >= 0], a positive
    batch size and between 1 and 2^63 - 1 paths: [mcPriceAdvanced] returns a
    price, the price is not negative, and the price of a put on a non-negative
    forward is at most [df * max(K, 0)]. *)
Theorem mcPriceAdvanced_bounds :
  forall (src : NormalSource R) (F0 K sigma T df : R) (tp : OptionType) (N : Z)
         (config : Config) (fuel : nat),
  (0 <= df)%R ->
  (0 < N < 2 ^ 63)%Z -> (0 < batchSize config < size_max)%Z ->
  (Z.to_nat N < fuel)%nat ->
  exists v : R,
    mcPriceAdvanced fuel F0 K sigma T df tp N config = Some v /\
    (0 <= v)%R /\
    (tp = Put -> (0 <= F0)%R -> (v <= df * Rmax K 0)%R).
Proof.
  intros src F0 K sigma T df tp N config fuel Hdf HN Hbs Hfuel.
  unfold mcPriceAdvanced. cbv zeta.
  rewrite simulateVectorized_simulateScalar
    by first [assumption | lia | (right; right; exact R_array_exp_is_std_exp)].
  cbn [option_map]. unfold simulateScalar.
  destruct (T <=? d0)%D.
  - cbn [fst]. eexists. split; [reflexivity |].
    destruct (payoff_bounds F0 K tp) as [Hlo Hhi]. cbn [dmul R_ops].
    split; [apply Rmult_le_pos; assumption |].
    intros Hput HF. apply Rmult_le_compat_l; [assumption | apply Hhi; assumption].
  - cbv zeta. rewrite scalarBatch_afterDraws. cbn [fst].
    unfold afterDraws. cbn [payoffSum totalPaths sim_rng].
    destruct (Z.to_nat N) as [| k] eqn:Hk; [lia |]. rewrite <- Hk.
    set (zs := fst (drawNormals (Z.to_nat N) (rng_seed (randomSeed config)))).
    assert (Hlen : length zs = Z.to_nat N) by apply drawNormals_length.
    destruct (addPath_bounds F0 K sigma T tp (useAntithetic config) zs d0) as [Hlo Hhi].
    rewrite Z.add_0_l, Z2Nat.id by lia.
    assert (Hppd : (pathsPerDraw (useAntithetic config) = 1
                    \/ pathsPerDraw (useAntithetic config) = 2)%Z)
      by (unfold pathsPerDraw; destruct (useAntithetic config); auto).
    rewrite wrap64_small by (unfold size_max; lia).
    pose proof R_d0 as Hzero. rewrite Hlen, INR_IZR_INZ, Z2Nat.id in Hhi by lia.
    cbn [dmul ddiv dsize R_ops]. rewrite mult_IZR.
    set (n := (IZR (pathsPerDraw (useAntithetic config)) * IZR N)%R) in *.
    assert (Hn : (0 < n)%R).
    { unfold n. apply Rmult_lt_0_compat; [| apply IZR_lt; lia].
      destruct Hppd as [-> | ->]; lra. }
    set (S := fold_left (addPath F0 K sigma T tp (useAntithetic config)) zs d0) in *.
    eexists. split; [reflexivity |].
    assert (Hinv : (0 < / n)%R) by (apply Rinv_0_lt_compat; assumption).
    split.
    + apply Rmult_le_pos; [assumption |]. apply Rmult_le_pos; lra.
    + intros Hput HF. specialize (Hhi Hput HF).
      apply Rmult_le_compat_l; [assumption |].
      apply (Rmult_le_reg_r n); [assumption |].
      unfold Rdiv. rewrite Rmult_assoc, Rinv_l by lra. lra.
Qed.

(** Three paths on the counting source. *)
Lemma mcPriceAdvanced_bounds_witness :
  exists v : R,
    mcPriceAdvanced (src := counting_source_R) 4 (13 / 10)%R (5 / 4)%R (1 / 5)%R 1%R
      (19 / 20)%R Put 3 Config_default = Some v /\
    (0 <= v)%R.
Proof.
  destruct (@mcPriceAdvanced_bounds counting_source_R (13 / 10)%R (5 / 4)%R (1 / 5)%R 1%R
              (19 / 20)%R Put 3 Config_default 4%nat) as (v & Hv & Hpos & _).
  - lra.
  - lia.
  - cbn [batchSize Config_default]. unfold size_max. lia.
  - simpl. lia.
  - exists v. split; assumption.
Defined.

(** ** Bonds: where pricing and analytics fail *)

Section BondErrors.
Context {D : Type} {ops : DoubleOps D} {lm : Libm D}.
Local Open Scope double_scope.

Lemma Bond_price_loop_fails : forall cfs (curve : DiscountCurve D) p,
  Exists (fun cf => (disnan (cf_time cf) || disinf (cf_time cf)) = true) cfs ->
  Bond_price_loop cfs curve p = Err InvalidArgument.
Proof.
  induction cfs as [| cf rest IH]; intros curve p Hex; [inversion Hex |].
  cbn [Bond_price_loop].
  destruct (DiscountCurve_df curve (cf_time cf)) as [v | e] eqn:Hdf; cbn [bind].
  - apply IH. inversion Hex as [? ? Hbad | ? ? Hrest]; subst; [| exact Hrest].
    assert (Hf : DiscountCurve_df curve (cf_time cf) = Err InvalidArgument)
      by (apply DiscountCurve_df_Err; split; [reflexivity | exact Hbad]).
    congruence.
  - apply DiscountCurve_df_Err in Hdf. destruct Hdf as [-> _]. reflexivity.
Qed.

End BondErrors.

(** X25. Where a bond's pricing and analytics fail, for every interpretation of
    the arithmetic.  [Bond::price] fails, with InvalidArgument, exactly when
    some cash-flow time is NaN or infinite; a bond without cash flows has price
    0.0.  The analytics read the curve at the last cash-flow time only: they
    fail exactly when that time is NaN or infinite, and for a bond without
    cash flows they use the yield 0.05. *)
Theorem Bond_failures :
  forall (D : Type) (ops : DoubleOps D) (lm : Libm D)
         (b : Bond D) (curve : DiscountCurve D) (m : Compounding),
  (Bond_price b curve = Err InvalidArgument <->
   Exists (fun cf => (disnan (cf_time cf) || disinf (cf_time cf)) = true) (cfs_ b)) /\
  Bond_price b curve <> Err RootNotBracketed /\
  (cfs_ b = [] ->
   Bond_price b curve = Ok d0 /\
   Bond_extractYield b curve m = Ok (dlit (5 # 100)) /\
   Bond_dv01 b curve m = Ok (dv01 [] (dlit (5 # 100)) m)) /\
  (forall cf0 rest, cfs_ b = cf0 :: rest ->
   let maturityTime := cf_time (last (cfs_ b) cf0) in
   (Bond_extractYield b curve m = Err InvalidArgument
    <-> (disnan maturityTime || disinf maturityTime) = true) /\
   (Bond_dv01 b curve m = Err InvalidArgument
    <-> (disnan maturityTime || disinf maturityTime) = true) /\
   (Bond_modDuration b curve m = Err InvalidArgument
    <-> (disnan maturityTime || disinf maturityTime) = true) /\
   (Bond_convexity b curve m = Err InvalidArgument
    <-> (disnan maturityTime || disinf maturityTime) = true)).
Proof.
  intros D ops lm b curve m.
  split; [| split; [| split]].
  - unfold Bond_price. split.
    + intro H. apply Bond_price_loop_Err in H. tauto.
    + apply Bond_price_loop_fails.
  - unfold Bond_price. intro H. apply Bond_price_loop_Err in H.
    destruct H as [H _]. discriminate.
  - intro Hnil. unfold Bond_price, Bond_dv01, Bond_extractYield. rewrite Hnil.
    cbn [Bond_price_loop bind]. repeat split; reflexivity.
  - intros cf0 rest Hcfs maturityTime.
    assert (Hy : Bond_extractYield b curve m = Err InvalidArgument
                 <-> (disnan maturityTime || disinf maturityTime) = true).
    { unfold Bond_extractYield. rewrite Hcfs. rewrite <- Hcfs. fold maturityTime.
      destruct (DiscountCurve_df curve maturityTime) as [d | e] eqn:Hd; cbn [bind].
      - split.
        + intro H. destruct (d <=? d0)%D; [discriminate |].
          destruct (is_Continuous m); discriminate.
        + intro Hbad.
          assert (Hf : DiscountCurve_df curve maturityTime = Err InvalidArgument)
            by (apply DiscountCurve_df_Err; split; [reflexivity | exact Hbad]).
          congruence.
      - apply DiscountCurve_df_Err in Hd. destruct Hd as [-> Hbad].
        split; [intros _; exact Hbad | reflexivity]. }
    split; [exact Hy |].
    unfold Bond_dv01, Bond_modDuration, Bond_convexity.
    destruct (Bond_extractYield b curve m) as [y | e] eqn:Hey; cbn [bind].
    + repeat split; try discriminate; intro Hbad; apply Hy in Hbad; discriminate.
    + assert (He : e = InvalidArgument).
      { unfold Bond_extractYield in Hey. rewrite Hcfs in Hey. rewrite <- Hcfs in Hey.
        destruct (DiscountCurve_df curve (cf_time (last (cfs_ b) cf0))) as [d | e'] eqn:Hd;
          cbn [bind] in Hey.
        - destruct (d <=? d0)%D; [discriminate |].
          destruct (is_Continuous m); discriminate.
        - apply DiscountCurve_df_Err in Hd. destruct Hd as [-> _]. congruence. }
      subst e. repeat split; try (intros _; apply Hy; reflexivity); intros _; reflexivity.
Qed.
